(** * Schema resolution for CEL type checking: OpenAPI resolvers

    A verification development for package [resolver]
    (pkg/cel/openapi/resolver): the reference inliner [populateRefs] with
    its helper [refOf], the discovery-backed resolver and the resolver
    backed by the table of generated definitions.

    The development has two layers.
    - A value layer: a schema is a finite tree and [populateRefs] returns
      the tree that the Go function leaves behind its pointer argument.
      This is exact whenever the lookup function hands back storage that
      is not shared with the node being populated.
    - A store layer (module [Store]): Go's pointers, maps and slices live
      in an explicit heap, so that sharing between the definition table,
      the index and the schemas handed to callers can be stated. *)

From Stdlib Require Import String Ascii List Arith Lia Bool.
From stdpp Require Import base list option.
Import ListNotations.
Open Scope string_scope.
Open Scope list_scope.
Set Warnings "-register-all".

(** ** Errors *)

(** Arguments of a [fmt.Errorf] call, kept unformatted; [E] is the type
    of errors, for an error passed to a [%v] verb. *)
Inductive arg (E : Type) : Type :=
| ArgString (s : string)
| ArgGVK (group version kind : string)
| ArgGV (group version : string)
| ArgError (e : E).
Arguments ArgString {E} s.
Arguments ArgGVK {E} group version kind.
Arguments ArgGV {E} group version.
Arguments ArgError {E} e.

(** [ErrSchemaNotFound] is the package's sentinel (declared next to the
    [SchemaResolver] interface).  [Errorf] keeps the format string and the
    arguments; [wrapped] is the operand of a [%w] verb, if the format has
    one.  [External] stands for the errors of collaborators (discovery
    client, encoding/json).  [Panic] marks a run-time panic, which Go's
    typing rules out for the accesses modelled here. *)
Inductive error : Type :=
| ErrSchemaNotFound
| Errorf (format : string) (args : list (arg error)) (wrapped : option error)
| External (msg : string)
| Panic (msg : string).

(** [errors.Is err ErrSchemaNotFound]: walk the [Unwrap] chain. *)
Fixpoint Is_ErrSchemaNotFound (err : error) : bool :=
  match err with
  | ErrSchemaNotFound => true
  | Errorf _ _ (Some w) => Is_ErrSchemaNotFound w
  | Errorf _ _ None => false
  | External _ => false
  | Panic _ => false
  end.

(** Outcome of a call: a value, a returned error, or no return within the
    given number of nested calls. *)
Inductive res (A : Type) : Type :=
| Ok (a : A)
| Err (e : error)
| OutOfFuel.
Arguments Ok {A} a.
Arguments Err {A} e.
Arguments OutOfFuel {A}.

Definition bind {A B : Type} (r : res A) (k : A -> res B) : res B :=
  match r with
  | Ok a => k a
  | Err e => Err e
  | OutOfFuel => OutOfFuel
  end.

(** [settled r]: the call returned, with a value or an error. *)
Definition settled {A : Type} (r : res A) : Prop := r <> OutOfFuel.

Notation "'let*' x ':=' r 'in' k" := (bind r (fun x => k))
  (at level 10, x name, r at level 100, k at level 200).

(** ** Data *)

(** schema.GroupVersionKind: equality is field-wise. *)
Record GroupVersionKind : Type := mkGVK {
  Group : string;
  Version : string;
  Kind : string }.

Definition gvk_eqb (a b : GroupVersionKind) : bool :=
  String.eqb (Group a) (Group b) && String.eqb (Version a) (Version b)
  && String.eqb (Kind a) (Kind b).

Definition gvk_arg {E : Type} (g : GroupVersionKind) : arg E :=
  ArgGVK (Group g) (Version g) (Kind g).

(** Go values of static type [any] as they occur in extension maps. *)
Inductive any : Type :=
| ANil
| ABool (b : bool)
| ANumber (digits : string)
| AString (s : string)
| ASlice (elems : list any)
| AMap (fields : list (string * any))
| AOther (gotype : string).

(** A Go map read by key, as an association list without repeated keys. *)
Fixpoint assoc {A : Type} (key : string) (m : list (string * A)) : option A :=
  match m with
  | [] => None
  | (k, v) :: rest => if String.eqb k key then Some v else assoc key rest
  end.

Definition Extensions_t : Type := list (string * any).

Definition refPrefix : string := "#/components/schemas/".
Definition extGVK : string := "x-kubernetes-group-version-kind".


Definition cannotResolveRef (ref : string) : error :=
  Errorf "internal error: cannot resolve Ref %q: %w" [ArgString ref]
    (Some ErrSchemaNotFound).

(** ** strings.HasPrefix and strings.TrimPrefix *)

Fixpoint HasPrefix (s prefix : string) {struct prefix} : bool :=
  match prefix with
  | EmptyString => true
  | String c prefix' =>
      match s with
      | EmptyString => false
      | String d s' => Ascii.eqb c d && HasPrefix s' prefix'
      end
  end.

Fixpoint drop_bytes (n : nat) (s : string) : string :=
  match n with
  | 0 => s
  | S n' => match s with EmptyString => EmptyString | String _ s' => drop_bytes n' s' end
  end.

Definition TrimPrefix (s prefix : string) : string :=
  if HasPrefix s prefix then drop_bytes (String.length prefix) s else s.

(** [strings.ToLower], on the letters A to Z.  Go lowers other upper-case
    runes too; none of them becomes an [x] or a [-], so whether the
    result starts with ["x-"] is decided by this function. *)
Definition lower (c : ascii) : ascii :=
  let n := nat_of_ascii c in
  if Nat.leb 65 n && Nat.leb n 90 then ascii_of_nat (n + 32) else c.

Fixpoint ToLower (s : string) : string :=
  match s with
  | EmptyString => EmptyString
  | String c s' => String (lower c) (ToLower s')
  end.

(** ** extensionsToGVKs *)

(** The loop of [extensionsToGVKs]; [result] is the slice built so far.
    A failed type assertion returns nil. *)
Fixpoint gvksLoop (gvks : list any) (result : list GroupVersionKind)
    : list GroupVersionKind :=
  match gvks with
  | [] => result
  | gvkAny :: rest =>
      match gvkAny with
      | AMap gvkMap =>
          match assoc "group" gvkMap with
          | Some (AString g) =>
              match assoc "version" gvkMap with
              | Some (AString v) =>
                  match assoc "kind" gvkMap with
                  | Some (AString k) => gvksLoop rest (result ++ [mkGVK g v k])
                  | _ => []
                  end
              | _ => []
              end
          | _ => []
          end
      | _ => []
      end
  end.

Definition extensionsToGVKs (extensions : Extensions_t)
    : list GroupVersionKind :=
  match assoc extGVK extensions with
  | None => []
  | Some gvksAny =>
      match gvksAny with
      | ASlice gvks => gvksLoop gvks []
      | _ => []
      end
  end.

(** ** Well-formed extension payloads *)

(** An element of the extension's sequence carries a GVK when it is a
    mapping with string-valued [group], [version] and [kind]. *)
Definition gvkOfAny (a : any) : option GroupVersionKind :=
  match a with
  | AMap gvkMap =>
      match assoc "group" gvkMap, assoc "version" gvkMap, assoc "kind" gvkMap with
      | Some (AString g), Some (AString v), Some (AString k) => Some (mkGVK g v k)
      | _, _, _ => None
      end
  | _ => None
  end.

Fixpoint allGVKs (elems : list any) : option (list GroupVersionKind) :=
  match elems with
  | [] => Some []
  | a :: rest =>
      match gvkOfAny a, allGVKs rest with
      | Some g, Some l => Some (g :: l)
      | _, _ => None
      end
  end.

(* ================================================================== *)
(** * The value layer *)

Module Value.

(** spec.Schema, restricted to the fields the package reads.  [Ref] is
    [Some u] when [Ref.GetURL()] is not nil and [u] is [Ref.String()].
    [AdditionalProperties] and [Items] are pointers to a struct that holds
    a [Schema] pointer, hence the two options.  [Properties] lists the map
    in the order the run iterates over it. *)
Inductive Schema : Type := mkSchema {
  Ref : option string;
  Description : string;
  Properties : list (string * Schema);
  AdditionalProperties : option (option Schema);
  Items : option (option Schema);
  AllOf : list Schema;
  Extensions : Extensions_t }.


(** ** refOf *)

Fixpoint refOf (schema : Schema) : string * bool :=
  match Ref schema with
  | Some u => (u, true)
  | None =>
      (fix scan (l : list Schema) : string * bool :=
         match l with
         | [] => (EmptyString, false)
         | allOf :: rest =>
             let '(ref, isRef) := refOf allOf in
             if isRef then (ref, isRef) else scan rest
         end) (AllOf schema)
  end.

(** ** populateRefs *)

(** The loop over [schema.Properties]: each value is populated and written
    back under its key; the first error ends the loop. *)
Fixpoint rangeProperties (f : Schema -> res Schema)
    (props : list (string * Schema)) : res (list (string * Schema)) :=
  match props with
  | [] => Ok []
  | (name, prop) :: rest =>
      let* prop' := f prop in
      let* rest' := rangeProperties f rest in
      Ok ((name, prop') :: rest')
  end.

(** [p != nil && p.Schema != nil] followed by a call on [p.Schema]. *)
Definition populateNested (f : Schema -> res Schema)
    (p : option (option Schema)) : res (option (option Schema)) :=
  match p with
  | Some (Some s) => let* s' := f s in Ok (Some (Some s'))
  | _ => Ok p
  end.

(** The first block of [populateRefs]: [*schema = *resolved]. *)
Definition replaceIfRef (schemaOf : string -> option Schema)
    (schema : Schema) : res Schema :=
  let '(ref, isRef) := refOf schema in
  if isRef then
    match schemaOf ref with
    | None => Err (cannotResolveRef ref)
    | Some resolved => Ok resolved
    end
  else Ok schema.

(** What follows the first block, given the function for nested calls. *)
Definition populateChildren (f : Schema -> res Schema)
    (schema : Schema) : res Schema :=
  let* props := rangeProperties f (Properties schema) in
  let* ap := populateNested f (AdditionalProperties schema) in
  let* items := populateNested f (Items schema) in
  Ok (mkSchema (Ref schema) (Description schema) props ap items
        (AllOf schema) (Extensions schema)).

Fixpoint populateRefs (fuel : nat) (schemaOf : string -> option Schema)
    (schema : Schema) : res Schema :=
  match fuel with
  | 0 => OutOfFuel
  | S fuel' =>
      let* schema1 := replaceIfRef schemaOf schema in
      populateChildren (populateRefs fuel' schemaOf) schema1
  end.

(** ** The discovery-backed resolver *)

(** schemaResponse: [Components.Schemas], in iteration order. *)
Record schemaResponse : Type := mkResponse {
  Schemas : list (string * Schema) }.

Definition resourcePathFromGV (group version : string) : string :=
  if Nat.eqb (String.length group) 0 then String.append "api/" version
  else String.append "apis/" (String.append group (String.append "/" version)).

(** The value returned by [Paths()] maps a path to a handle whose
    [Schema(contentType)] method fetches the document. *)
Record GroupVersion : Type := mkHandle {
  Schema_bytes : string -> res string }.

Record ClientDiscoveryResolver : Type := mkDiscovery {
  Paths : res (list (string * GroupVersion)) }.

Definition ContentTypeJSON : string := "application/json".

Section Discovery.

(** [Extensions.GetObject(key, &gvks)] of kube-openapi is a
    collaborator. *)
Variable GetObject : Extensions_t -> string -> res (list GroupVersionKind).

Definition cannotResolveGVK (gvk : GroupVersionKind) : error :=
  Errorf "cannot resolve group version kind %q: %w" [gvk_arg gvk]
    (Some ErrSchemaNotFound).

Definition cannotResolveGV (gvk : GroupVersionKind) : error :=
  Errorf "cannot resolve group version %q: %w"
    [ArgGV (Group gvk) (Version gvk)] (Some ErrSchemaNotFound).

Fixpoint resolveTypeLoop (schemas : list (string * Schema))
    (gvk : GroupVersionKind) : res Schema :=
  match schemas with
  | [] => Err (cannotResolveGVK gvk)
  | (_, s) :: rest =>
      let* gvks := GetObject (Extensions s) extGVK in
      if existsb (fun g => gvk_eqb g gvk) gvks then Ok s
      else resolveTypeLoop rest gvk
  end.

Definition resolveType (resp : schemaResponse) (gvk : GroupVersionKind)
    : res Schema :=
  resolveTypeLoop (Schemas resp) gvk.

(** The closure handed to [populateRefs] by [ResolveSchema], on the
    schemas of the document read as values.  ([ResolveSchema] itself is
    modelled on the heap, module [Discovery]: the closure hands out the
    document's own schemas, which the run then shares and writes to.) *)
Definition discoverySchemaOf (resp : schemaResponse) (ref : string)
    : option Schema :=
  assoc (TrimPrefix ref refPrefix) (Schemas resp).

End Discovery.

(** ** Measures and predicates on schema trees *)

(** Number of nested [populateRefs] calls a tree without references needs:
    [AllOf] is read by [refOf] only and does not count. *)
Fixpoint depth (s : Schema) : nat :=
  S (Nat.max
       ((fix go (l : list (string * Schema)) : nat :=
           match l with
           | [] => 0
           | (_, p) :: rest => Nat.max (depth p) (go rest)
           end) (Properties s))
       (Nat.max
          match AdditionalProperties s with Some (Some a) => depth a | _ => 0 end
          match Items s with Some (Some i) => depth i | _ => 0 end)).

(** Number of nodes below the nested positions that [populateRefs] visits. *)
Fixpoint size (s : Schema) : nat :=
  S ((fix go (l : list (string * Schema)) : nat :=
        match l with
        | [] => 0
        | (_, p) :: rest => size p + go rest
        end) (Properties s)
     + match AdditionalProperties s with Some (Some a) => size a | _ => 0 end
     + match Items s with Some (Some i) => size i | _ => 0 end).

(** No reference indicator anywhere in the tree, [AllOf] included. *)
Fixpoint ref_free (s : Schema) : bool :=
  match Ref s with
  | Some _ => false
  | None =>
      (fix go (l : list (string * Schema)) : bool :=
         match l with
         | [] => true
         | (_, p) :: rest => ref_free p && go rest
         end) (Properties s)
      && match AdditionalProperties s with Some (Some a) => ref_free a | _ => true end
      && match Items s with Some (Some i) => ref_free i | _ => true end
      && (fix go (l : list Schema) : bool :=
            match l with
            | [] => true
            | a :: rest => ref_free a && go rest
            end) (AllOf s)
  end.

(** Every reference string written anywhere in the tree. *)
Fixpoint mentions (s : Schema) : list string :=
  match Ref s with Some u => [u] | None => [] end
  ++ (fix go (l : list (string * Schema)) : list string :=
        match l with
        | [] => []
        | (_, p) :: rest => mentions p ++ go rest
        end) (Properties s)
  ++ match AdditionalProperties s with Some (Some a) => mentions a | _ => [] end
  ++ match Items s with Some (Some i) => mentions i | _ => [] end
  ++ (fix go (l : list Schema) : list string :=
        match l with
        | [] => []
        | a :: rest => mentions a ++ go rest
        end) (AllOf s).

(** The nested schemas that [populateRefs] calls itself on. *)
Definition children (s : Schema) : list Schema :=
  map snd (Properties s)
  ++ match AdditionalProperties s with Some (Some a) => [a] | _ => [] end
  ++ match Items s with Some (Some i) => [i] | _ => [] end.

(** The reference graph of a lookup function: [ref] points to every
    reference string written in its target. *)
Definition points_to (schemaOf : string -> option Schema) (r' r : string) : Prop :=
  exists t, schemaOf r = Some t /\ In r' (mentions t).

(** [r'] is met by the run below a node: at a nested position whose
    ancestors up to that node are not references themselves. *)
Inductive occurs_below (r' : string) : Schema -> Prop :=
| occurs_here t c ref :
    In c (children t) -> refOf c = (ref, true) -> ref = r' ->
    occurs_below r' t
| occurs_deeper t c :
    In c (children t) -> snd (refOf c) = false -> occurs_below r' c ->
    occurs_below r' t.

Definition unfolds_to (schemaOf : string -> option Schema) (r r' : string) : Prop :=
  exists t, schemaOf r = Some t /\ occurs_below r' t.


(** [meets s r]: the run on [s] calls the lookup function on [r] before
    any other, at [s] itself or below it. *)
Definition meets (s : Schema) (r : string) : Prop :=
  refOf s = (r, true) \/ (snd (refOf s) = false /\ occurs_below r s).

(** ** Runs that return *)

(** [returns_from schemaOf s]: from some number of allowed nested calls
    on, the run on [s] returns. *)
Definition returns_from (schemaOf : string -> option Schema) (s : Schema) : Prop :=
  exists F, forall f, F <= f -> settled (populateRefs f schemaOf s).

Definition children_return (schemaOf : string -> option Schema) (s : Schema) : Prop :=
  exists F, forall f, F <= f ->
    settled (populateChildren (populateRefs f schemaOf) s).

Definition target_returns (schemaOf : string -> option Schema) (r : string) : Prop :=
  forall t, schemaOf r = Some t -> children_return schemaOf t.

(** [result_of schemaOf r T]: some run on some node that refers to [r]
    returned [T]. *)
Definition result_of (schemaOf : string -> option Schema) (r : string)
    (T : Schema) : Prop :=
  exists f n, refOf n = (r, true) /\ populateRefs f schemaOf n = Ok T.

End Value.

(* ================================================================== *)
(** * The store layer *)

Module Store.

(** Addresses of heap objects.  The heap is the list of the objects
    allocated so far; an allocation appends one. *)
Abbreviation loc := nat.

(** spec.Schema as a struct value.  Fields of map, slice or pointer type
    hold the address of the object they refer to, or [None] for nil. *)
Record Schema : Type := mkSchema {
  Ref : option string;
  Description : string;
  Properties : option loc;
  AdditionalProperties : option loc;
  Items : option loc;
  AllOf : option loc;
  Extensions : option loc }.

Definition zeroSchema : Schema :=
  mkSchema None EmptyString None None None None None.

Inductive cell : Type :=
| CSchema (s : Schema)
    (** a variable of type spec.Schema whose address is taken *)
| CProperties (m : list (string * Schema))
    (** a map[string]spec.Schema *)
| CSchemaOr (schema : option loc)
    (** a SchemaOrBool or SchemaOrArray: its [Schema] pointer *)
| CAllOf (elems : list Schema)
    (** the backing array of a []spec.Schema *)
| CExtensions (m : Extensions_t)
    (** a spec.Extensions map *)
| CDefinitions (m : list (string * Schema))
    (** a map[string]common.OpenAPIDefinition: name to [def.Schema] *)
| CIndex (m : list (GroupVersionKind * loc)).
    (** a map[schema.GroupVersionKind]*spec.Schema *)

Abbreviation heap := (list cell).

Definition invalidAccess : error :=
  Panic "invalid memory address or nil pointer dereference".

(** The schema held by the object at [p]. *)
Definition schemaAt (h : heap) (p : loc) : res Schema :=
  match h !! p with
  | Some (CSchema s) => Ok s
  | _ => Err invalidAccess
  end.

(** [m[key] = v] on a map kept as an association list. *)
Fixpoint assocSet {K V : Type} (eqb : K -> K -> bool) (key : K) (v : V)
    (m : list (K * V)) : list (K * V) :=
  match m with
  | [] => [(key, v)]
  | (k, w) :: rest =>
      if eqb k key then (k, v) :: rest else (k, w) :: assocSet eqb key v rest
  end.

Fixpoint lookupGVK (gvk : GroupVersionKind) (m : list (GroupVersionKind * loc))
    : option loc :=
  match m with
  | [] => None
  | (g, p) :: rest => if gvk_eqb g gvk then Some p else lookupGVK gvk rest
  end.

(** ** deepCopy: json.Marshal, then json.Unmarshal into a new Schema *)

(** Values that encoding/json can encode. *)
Fixpoint marshalable (a : any) : bool :=
  match a with
  | AOther _ => false
  | ASlice elems => forallb marshalable elems
  | AMap fields => forallb (fun kv => let '(_, v) := kv in marshalable v) fields
  | _ => true
  end.

Definition unsupportedType : error := External "json: unsupported type".

(** [VendorExtensible.MarshalJSON]: only the entries whose key, in lower
    case, starts with ["x-"] are written; one value among them that
    cannot be encoded fails the call. *)
Definition isExtension (key : string) : bool := HasPrefix (ToLower key) "x-".

Definition encodeExtensions (m : Extensions_t) : res Extensions_t :=
  let toser := List.filter (fun kv : string * any => isExtension (fst kv)) m in
  if forallb (fun kv : string * any => let '(_, v) := kv in marshalable v) toser
  then Ok toser else Err unsupportedType.

Fixpoint marshalEntries (f : Schema -> res Value.Schema)
    (m : list (string * Schema)) : res (list (string * Value.Schema)) :=
  match m with
  | [] => Ok []
  | (k, v) :: rest =>
      let* t := f v in
      let* ts := marshalEntries f rest in
      Ok ((k, t) :: ts)
  end.

Fixpoint marshalElems (f : Schema -> res Value.Schema)
    (l : list Schema) : res (list Value.Schema) :=
  match l with
  | [] => Ok []
  | v :: rest =>
      let* t := f v in
      let* ts := marshalElems f rest in
      Ok (t :: ts)
  end.

Definition marshalNested (f : Schema -> res Value.Schema) (h : heap)
    (p : option loc) : res (option (option Value.Schema)) :=
  match p with
  | None => Ok None
  | Some a =>
      match h !! a with
      | Some (CSchemaOr None) => Ok (Some None)
      | Some (CSchemaOr (Some q)) =>
          let* s := schemaAt h q in
          let* t := f s in
          Ok (Some (Some t))
      | _ => Err invalidAccess
      end
  end.

Definition marshalProperties (f : Schema -> res Value.Schema) (h : heap)
    (p : option loc) : res (list (string * Value.Schema)) :=
  match p with
  | None => Ok []
  | Some m =>
      match h !! m with
      | Some (CProperties entries) => marshalEntries f entries
      | _ => Err invalidAccess
      end
  end.

Definition marshalAllOf (f : Schema -> res Value.Schema) (h : heap)
    (p : option loc) : res (list Value.Schema) :=
  match p with
  | None => Ok []
  | Some a =>
      match h !! a with
      | Some (CAllOf elems) => marshalElems f elems
      | _ => Err invalidAccess
      end
  end.

Definition marshalExtensions (h : heap) (p : option loc) : res Extensions_t :=
  match p with
  | None => Ok []
  | Some e =>
      match h !! e with
      | Some (CExtensions m) => encodeExtensions m
      | _ => Err invalidAccess
      end
  end.

(** The encoder walks the struct and everything it points to; [fuel]
    bounds the nesting.  Empty maps and slices are left out of the
    document (omitempty), like nil ones. *)
Fixpoint marshal (fuel : nat) (h : heap) (s : Schema) : res Value.Schema :=
  match fuel with
  | 0 => OutOfFuel
  | S fuel' =>
      let* props := marshalProperties (marshal fuel' h) h (Properties s) in
      let* ap := marshalNested (marshal fuel' h) h (AdditionalProperties s) in
      let* items := marshalNested (marshal fuel' h) h (Items s) in
      let* allOf := marshalAllOf (marshal fuel' h) h (AllOf s) in
      let* ext := marshalExtensions h (Extensions s) in
      Ok (Value.mkSchema (Ref s) (Description s) props ap items allOf ext)
  end.

(** [json.Marshal(s)].  The encoder of spec.Schema follows pointers
    without looking for cycles.  A walk that returns, with a document or
    with an error, has gone at most one level deeper than there are
    objects in the heap (lemma [Encoder.marshal_settled_within]); at that
    allowance [OutOfFuel] means that the walk goes on for ever, and that
    [json.Marshal] does not return. *)
Definition json_Marshal (h : heap) (s : Schema) : res Value.Schema :=
  marshal (S (length h)) h s.

(** ** Computations on the heap *)

(** A computation takes the heap and gives the heap it leaves with the
    outcome: a value, an error (the heap stays as the failing step left
    it), or no return. *)
Definition M (A : Type) : Type := heap -> heap * res A.

Definition ret {A : Type} (a : A) : M A := fun h => (h, Ok a).
Definition fail {A : Type} (e : error) : M A := fun h => (h, Err e).
Definition diverge {A : Type} : M A := fun h => (h, OutOfFuel).

(** [x, err := m(); if err != nil { return err }; k(x)]. *)
Definition bindM {A B : Type} (m : M A) (k : A -> M B) : M B :=
  fun h =>
    match m h with
    | (h1, Ok a) => k a h1
    | (h1, Err e) => (h1, Err e)
    | (h1, OutOfFuel) => (h1, OutOfFuel)
    end.

Notation "'let!' x ':=' m 'in' k" := (bindM m (fun x => k))
  (at level 10, x name, m at level 100, k at level 200).

(** [x, err := m()] with the error handed to the caller's own test. *)
Definition try_ {A : Type} (m : M A) : M (error + A) :=
  fun h =>
    match m h with
    | (h1, Ok a) => (h1, Ok (inr a))
    | (h1, Err e) => (h1, Ok (inl e))
    | (h1, OutOfFuel) => (h1, OutOfFuel)
    end.

(** A step that only reads the heap. *)
Definition read {A : Type} (f : heap -> res A) : M A := fun h => (h, f h).

Definition alloc (c : cell) : M loc := fun h => (h ++ [c], Ok (length h)).
Definition store (l : loc) (c : cell) : M unit := fun h => (<[l := c]> h, Ok tt).

Definition loadSchema (p : loc) : M Schema := read (fun h => schemaAt h p).

Definition loadProperties (m : loc) : M (list (string * Schema)) :=
  read (fun h => match h !! m with
                 | Some (CProperties entries) => Ok entries
                 | _ => Err invalidAccess
                 end).

Definition loadSchemaOr (a : loc) : M (option loc) :=
  read (fun h => match h !! a with
                 | Some (CSchemaOr q) => Ok q
                 | _ => Err invalidAccess
                 end).

Definition loadDefinitions (d : loc) : M (list (string * Schema)) :=
  read (fun h => match h !! d with
                 | Some (CDefinitions entries) => Ok entries
                 | _ => Err invalidAccess
                 end).

Definition loadIndex (g : loc) : M (list (GroupVersionKind * loc)) :=
  read (fun h => match h !! g with
                 | Some (CIndex idx) => Ok idx
                 | _ => Err invalidAccess
                 end).

(** ** The decoder *)

(** The decoder builds the struct for a document, allocating every map,
    slice and pointee anew.  [dec] is the decoder for nested schemas. *)
Section Decoder.
Variable dec : Value.Schema -> M Schema.

Fixpoint decodeList (l : list Value.Schema) : M (list Schema) :=
  match l with
  | [] => ret []
  | v :: rest =>
      let! s := dec v in
      let! m := decodeList rest in
      ret (s :: m)
  end.

Fixpoint decodeEntries (l : list (string * Value.Schema))
    : M (list (string * Schema)) :=
  match l with
  | [] => ret []
  | kv :: rest =>
      let! s := dec (snd kv) in
      let! m := decodeEntries rest in
      ret ((fst kv, s) :: m)
  end.

Definition decodeProperties (props : list (string * Value.Schema))
    : M (option loc) :=
  match props with
  | [] => ret None
  | _ =>
      let! m := decodeEntries props in
      let! p := alloc (CProperties m) in
      ret (Some p)
  end.

(** [additionalProperties]: a schema, or [true] or [false], for which the
    holder is allocated with a nil schema. *)
Definition decodeNested (p : option (option Value.Schema)) : M (option loc) :=
  match p with
  | None => ret None
  | Some None =>
      let! a := alloc (CSchemaOr None) in
      ret (Some a)
  | Some (Some t) =>
      let! s := dec t in
      let! q := alloc (CSchema s) in
      let! a := alloc (CSchemaOr (Some q)) in
      ret (Some a)
  end.

(** The same for [items]: a JSON null leaves the pointer nil. *)
Definition decodeItems (p : option (option Value.Schema)) : M (option loc) :=
  match p with
  | Some (Some t) =>
      let! s := dec t in
      let! q := alloc (CSchema s) in
      let! a := alloc (CSchemaOr (Some q)) in
      ret (Some a)
  | _ => ret None
  end.

Definition decodeAllOf (allOf : list Value.Schema) : M (option loc) :=
  match allOf with
  | [] => ret None
  | _ =>
      let! l := decodeList allOf in
      let! p := alloc (CAllOf l) in
      ret (Some p)
  end.
End Decoder.

(** The keys that start with ["x-"] go to the extensions map, which
    stays nil when there is none. *)
Definition decodeExtensions (ext : Extensions_t) : M (option loc) :=
  match List.filter (fun kv : string * any => isExtension (fst kv)) ext with
  | [] => ret None
  | kept =>
      let! p := alloc (CExtensions kept) in
      ret (Some p)
  end.

Fixpoint unmarshal (t : Value.Schema) : M Schema :=
  match t with
  | Value.mkSchema ref descr props ap items allOf ext =>
      let! pf := decodeProperties unmarshal props in
      let! af := decodeNested unmarshal ap in
      let! itf := decodeItems unmarshal items in
      let! alf := decodeAllOf unmarshal allOf in
      let! ef := decodeExtensions ext in
      ret (mkSchema ref descr pf af itf alf ef)
  end.

(** [deepCopy(s)].  The function only reads through its pointer, so it
    is given the struct value [sv] that the pointer refers to at the
    call. *)
Definition deepCopy (sv : Schema) : M loc :=
  let! b := read (fun h => json_Marshal h sv) in
  let! result := alloc (CSchema zeroSchema) in
  let! rv := unmarshal b in
  let! _ := store result (CSchema rv) in
  ret result.

(** ** refOf and populateRefs on the heap *)

Fixpoint scanAllOf (f : Schema -> res (string * bool)) (l : list Schema)
    : res (string * bool) :=
  match l with
  | [] => Ok (EmptyString, false)
  | allOf :: rest =>
      let* r := f allOf in
      if snd r then Ok r else scanAllOf f rest
  end.

Fixpoint refOf (fuel : nat) (h : heap) (schema : Schema) : res (string * bool) :=
  match fuel with
  | 0 => OutOfFuel
  | S fuel' =>
      match Ref schema with
      | Some u => Ok (u, true)
      | None =>
          match AllOf schema with
          | None => Ok (EmptyString, false)
          | Some a =>
              match h !! a with
              | Some (CAllOf elems) => scanAllOf (refOf fuel' h) elems
              | _ => Err invalidAccess
              end
          end
      end
  end.

(** The loop [for name, prop := range schema.Properties]: [m] is the map
    the range statement iterates over, [prop] the address of the loop
    variable (one variable for the whole loop), [names] the keys still
    to visit.  The value of a key is read when the key is visited, and
    [schema.Properties[name] = prop] reads the map out of [*schema]
    again; were that map nil, the write would panic. *)
Fixpoint rangeProperties (f : loc -> M unit) (schema m prop : loc)
    (names : list string) : M unit :=
  match names with
  | [] => ret tt
  | name :: rest =>
      let! entries := loadProperties m in
      match assoc name entries with
      | None => rangeProperties f schema m prop rest
      | Some v =>
          let! _ := store prop (CSchema v) in
          let! _ := f prop in
          let! v' := loadSchema prop in
          let! s1 := loadSchema schema in
          match Properties s1 with
          | None => fail invalidAccess
          | Some m1 =>
              let! entries1 := loadProperties m1 in
              let! _ := store m1 (CProperties (assocSet String.eqb name v' entries1)) in
              rangeProperties f schema m prop rest
          end
      end
  end.

(** [p != nil && p.Schema != nil], then the call on [p.Schema]. *)
Definition populateNested (f : loc -> M unit) (p : option loc) : M unit :=
  match p with
  | None => ret tt
  | Some a =>
      let! q := loadSchemaOr a in
      match q with
      | None => ret tt
      | Some q => f q
      end
  end.

(** A lookup function returns [(nil, false)] or [(s, true)], and may
    allocate. *)
Definition lookup_fn : Type := string -> M (option loc).

(** The first block of [populateRefs]. *)
Definition replaceIfRef (fuel : nat) (schemaOf : lookup_fn) (schema : loc)
    : M unit :=
  let! s := loadSchema schema in
  let! r := read (fun h => refOf fuel h s) in
  if snd r then
    let! found := schemaOf (fst r) in
    match found with
    | None => fail (cannotResolveRef (fst r))
    | Some resolved =>
        let! rv := loadSchema resolved in
        store schema (CSchema rv)
    end
  else ret tt.

Definition populateProperties (f : loc -> M unit) (schema : loc) : M unit :=
  let! s := loadSchema schema in
  match Properties s with
  | None => ret tt
  | Some m =>
      let! entries := loadProperties m in
      let! prop := alloc (CSchema zeroSchema) in
      rangeProperties f schema m prop (map fst entries)
  end.

Fixpoint populateRefs (fuel : nat) (schemaOf : lookup_fn) (schema : loc)
    : M unit :=
  match fuel with
  | 0 => diverge
  | S fuel' =>
      let! _ := replaceIfRef fuel' schemaOf schema in
      let! _ := populateProperties (populateRefs fuel' schemaOf) schema in
      let! s2 := loadSchema schema in
      let! _ := populateNested (populateRefs fuel' schemaOf) (AdditionalProperties s2) in
      let! s3 := loadSchema schema in
      populateNested (populateRefs fuel' schemaOf) (Items s3)
  end.

(** ** DefinitionsSchemaResolver *)

Record DefinitionsSchemaResolver : Type := mkResolver {
  defs : loc;
  gvkToSchema : loc }.

(** [gvkToSchema[gvk] = &def.Schema] for every [gvk] of [gvks]. *)
Fixpoint recordGVKs (gvkToSchema def : loc) (gvks : list GroupVersionKind)
    : M unit :=
  match gvks with
  | [] => ret tt
  | gvk :: rest =>
      let! idx := loadIndex gvkToSchema in
      let! _ := store gvkToSchema (CIndex (assocSet gvk_eqb gvk def idx)) in
      recordGVKs gvkToSchema def rest
  end.

(** The loop [for name, def := range defs]: [def] is the address of the
    loop variable.  The language version of this package gives a range
    statement one variable per loop, assigned anew in every iteration, so
    [&def.Schema] is the same address each time round. *)
Fixpoint rangeDefs (namer : string -> Extensions_t) (gvkToSchema def : loc)
    (entries : list (string * Schema)) : M unit :=
  match entries with
  | [] => ret tt
  | (name, schema) :: rest =>
      let! _ := store def (CSchema schema) in
      let e := namer name in
      let gvks := extensionsToGVKs e in
      let! _ := recordGVKs gvkToSchema def gvks in
      rangeDefs namer gvkToSchema def rest
  end.

(** [namer] is [GetDefinitionName] of the namer built from the scheme,
    reduced to the extensions it returns; [defs] is the map returned by
    [getDefinitions]. *)
Definition NewDefinitionsSchemaResolver (namer : string -> Extensions_t)
    (defs : loc) : M DefinitionsSchemaResolver :=
  let! gvkToSchema := alloc (CIndex []) in
  let! entries := loadDefinitions defs in
  let! def := alloc (CSchema zeroSchema) in
  let! _ := rangeDefs namer gvkToSchema def entries in
  ret (mkResolver defs gvkToSchema).

(** The closure that [ResolveSchema] hands to [populateRefs]. *)
Definition schemaOf (d : DefinitionsSchemaResolver) : lookup_fn :=
  fun ref =>
    let! entries := loadDefinitions (defs d) in
    match assoc ref entries with
    | None => ret None
    | Some def =>
        let! copied := try_ (deepCopy def) in
        match copied with
        | inl _ => ret None
        | inr s => ret (Some s)
        end
    end.

Definition cannotResolve (gvk : GroupVersionKind) : error :=
  Errorf "cannot resolve %v: %w" [gvk_arg gvk] (Some ErrSchemaNotFound).

Definition cannotDeepCopy (gvk : GroupVersionKind) (err : error) : error :=
  Errorf "cannot deep copy schema for %v: %v" [gvk_arg gvk; ArgError err] None.

Definition ResolveSchema (d : DefinitionsSchemaResolver) (fuel : nat)
    (gvk : GroupVersionKind) : M loc :=
  let! idx := loadIndex (gvkToSchema d) in
  match lookupGVK gvk idx with
  | None => fail (cannotResolve gvk)
  | Some s =>
      let! sv := loadSchema s in
      let! copied := try_ (deepCopy sv) in
      match copied with
      | inl err => fail (cannotDeepCopy gvk err)
      | inr result =>
          let! _ := populateRefs fuel (schemaOf d) result in
          ret result
      end
  end.

(** The index as the specification words it: every GVK extracted for an
    entry is mapped to that entry's schema, a later entry replacing an
    earlier one for the same GVK. *)
Fixpoint specIndex (namer : string -> Extensions_t)
    (entries : list (string * Schema)) (idx : list (GroupVersionKind * Schema))
    : list (GroupVersionKind * Schema) :=
  match entries with
  | [] => idx
  | (name, schema) :: rest =>
      specIndex namer rest
        (fold_left (fun i gvk => assocSet gvk_eqb gvk schema i)
           (extensionsToGVKs (namer name)) idx)
  end.

Fixpoint specLookup (gvk : GroupVersionKind)
    (idx : list (GroupVersionKind * Schema)) : option Schema :=
  match idx with
  | [] => None
  | (g, s) :: rest => if gvk_eqb g gvk then Some s else specLookup gvk rest
  end.

(** The document that a call returned: the encoding of what its result
    points to, in the heap the call left. *)
Definition document (fuel : nat) (o : heap * res loc) : res Value.Schema :=
  let* p := snd o in
  let* s := schemaAt (fst o) p in
  marshal fuel (fst o) s.

(** ** Addresses held by heap objects *)

Definition schema_locs (s : Schema) : list loc :=
  option_list (Properties s) ++ option_list (AdditionalProperties s)
  ++ option_list (Items s) ++ option_list (AllOf s)
  ++ option_list (Extensions s).

Definition cell_locs (c : cell) : list loc :=
  match c with
  | CSchema s => schema_locs s
  | CProperties m => flat_map (fun kv => schema_locs (snd kv)) m
  | CSchemaOr p => option_list p
  | CAllOf l => flat_map schema_locs l
  | CExtensions _ => []
  | CDefinitions m => flat_map (fun kv => schema_locs (snd kv)) m
  | CIndex m => map snd m
  end.

(** [reachable h l l']: following addresses stored in objects leads from
    the object at [l] to the object at [l']. *)
Inductive reachable (h : heap) : loc -> loc -> Prop :=
| reachable_here l : reachable h l l
| reachable_step l c l' l'' :
    h !! l = Some c -> In l' (cell_locs c) -> reachable h l' l'' ->
    reachable h l l''.

(** [reaches h s l]: the object at [l] is reached from the struct value
    [s] by following addresses. *)
Definition reaches (h : heap) (s : Schema) (l : loc) : Prop :=
  exists l0, In l0 (schema_locs s) /\ reachable h l0 l.

(** [on_cycle h l]: following addresses from the object at [l] leads
    back to it. *)
Definition on_cycle (h : heap) (l : loc) : Prop :=
  exists c l', h !! l = Some c /\ In l' (cell_locs c) /\ reachable h l' l.

(** No object holds an address outside the heap. *)
Definition closed (h : heap) : Prop :=
  forall l c, h !! l = Some c -> Forall (fun p => p < length h) (cell_locs c).

(** The objects at or above [n] hold no address below [n]. *)
Definition separate_from (n : nat) (h : heap) : Prop :=
  forall l c, n <= l -> h !! l = Some c -> Forall (le n) (cell_locs c).

Definition above (n : nat) (s : Schema) : Prop := Forall (le n) (schema_locs s).
Definition cell_above (n : nat) (c : cell) : Prop := Forall (le n) (cell_locs c).

(** [kept n h h']: from [h] to [h'] nothing below [n] has changed, no
    object has gone, and the objects from [n] on hold no address below
    [n]. *)
Definition kept (n : nat) (h h' : heap) : Prop :=
  take n h' = take n h /\ length h <= length h' /\ separate_from n h'.

(** [keeps n m Q]: run on a heap whose objects from [n] on hold no
    address below [n], the computation [m] leaves such a heap, with
    nothing below [n] changed, whatever its outcome; a value it returns
    satisfies [Q]. *)
Definition keeps {A : Type} (n : nat) (m : M A) (Q : A -> Prop) : Prop :=
  forall h, n <= length h -> separate_from n h ->
    kept n h (fst (m h)) /\ forall a, snd (m h) = Ok a -> Q a.

Definition field_above (n : nat) (f : option loc) : Prop :=
  Forall (le n) (option_list f).

Definition call_keeps (n : nat) (f : loc -> M unit) : Prop :=
  forall p, n <= p -> keeps n (f p) (fun _ => True).

(** A lookup function that leaves the objects below [n] alone and hands
    out addresses from [n] on only. *)
Definition apart_lookup (n : nat) (schemaOf : lookup_fn) : Prop :=
  forall ref, keeps n (schemaOf ref) (field_above n).

(** ** Renaming of addresses *)

(** [shift n k] moves every address from [n] on up by [k]: the address an
    object gets when [k] more objects were allocated before it. *)
Definition shift (n k : nat) (l : loc) : loc := if Nat.ltb l n then l else l + k.

Definition shift_schema (n k : nat) (s : Schema) : Schema :=
  mkSchema (Ref s) (Description s)
    (option_map (shift n k) (Properties s))
    (option_map (shift n k) (AdditionalProperties s))
    (option_map (shift n k) (Items s))
    (option_map (shift n k) (AllOf s))
    (option_map (shift n k) (Extensions s)).

Definition shift_entry {K : Type} (n k : nat) (kv : K * Schema) : K * Schema :=
  (fst kv, shift_schema n k (snd kv)).

Definition shift_cell (n k : nat) (c : cell) : cell :=
  match c with
  | CSchema s => CSchema (shift_schema n k s)
  | CProperties m => CProperties (map (shift_entry n k) m)
  | CSchemaOr p => CSchemaOr (option_map (shift n k) p)
  | CAllOf l => CAllOf (map (shift_schema n k) l)
  | CExtensions m => CExtensions m
  | CDefinitions m => CDefinitions (map (shift_entry n k) m)
  | CIndex m => CIndex (map (fun kv => (fst kv, shift n k (snd kv))) m)
  end.

(** [moved n k h h2]: [h2] holds the objects of [h], those from [n] on
    moved up by [k]; what [h2] holds in between is not constrained. *)
Definition moved (n k : nat) (h h2 : heap) : Prop :=
  n <= length h /\ length h2 = length h + k
  /\ forall l, h2 !! shift n k l = option_map (shift_cell n k) (h !! l).

(** [moves n k R m m2]: when [m] returns a value on [h], [m2] returns
    a value related by [R] on a heap that holds the objects of [h] moved,
    and the heaps they leave are related in the same way. *)
Definition moves {A : Type} (n k : nat) (R : A -> A -> Prop) (m m2 : M A) : Prop :=
  forall h h2 a, moved n k h h2 -> snd (m h) = Ok a ->
    exists a2, snd (m2 h2) = Ok a2 /\ R a a2
               /\ moved n k (fst (m h)) (fst (m2 h2)).

(** The same for a lookup function, for the calls that find a schema. *)
Definition lookup_moves (n k : nat) (schemaOf schemaOf2 : lookup_fn) : Prop :=
  forall ref h h2 q, moved n k h h2 -> snd (schemaOf ref h) = Ok (Some q) ->
    snd (schemaOf2 ref h2) = Ok (Some (shift n k q))
    /\ moved n k (fst (schemaOf ref h)) (fst (schemaOf2 ref h2)).

End Store.
(* ================================================================== *)
(** * The discovery-backed resolver on the heap *)

Module Discovery.
Import Store.

(** The document fetched from the server, as far as the resolver reads
    it: the entries of [components.schemas], a schema or a JSON null
    under each name. *)
Abbreviation document := (list (string * option Value.Schema)).

(** [resp.Components.Schemas], a map[string]*spec.Schema: a nil pointer
    for a null. *)
Abbreviation schemas := (list (string * option loc)).

(** A call of a collaborator, which does not touch the heap. *)
Definition lift {A : Type} (r : res A) : M A := fun h => (h, r).

Definition loadExtensions (e : option loc) : M Extensions_t :=
  match e with
  | None => ret []
  | Some a =>
      read (fun h => match h !! a with
                     | Some (CExtensions m) => Ok m
                     | _ => Err invalidAccess
                     end)
  end.

(** [json.Unmarshal(b, resp)], after the parser: every schema of the
    document is decoded into a new object of its own. *)
Fixpoint decodeSchemas (doc : document) : M schemas :=
  match doc with
  | [] => ret []
  | (name, None) :: rest =>
      let! m := decodeSchemas rest in
      ret ((name, None) :: m)
  | (name, Some t) :: rest =>
      let! s := unmarshal t in
      let! q := alloc (CSchema s) in
      let! m := decodeSchemas rest in
      ret ((name, Some q) :: m)
  end.

(** The closure handed to [populateRefs]: it hands out the pointer kept
    in the map, not a copy.  For a null component it answers
    [(nil, true)], and [*schema = *resolved] in [populateRefs] panics at
    once: the panic is raised here. *)
Definition schemaOf (resp : schemas) : lookup_fn :=
  fun ref =>
    match assoc (TrimPrefix ref refPrefix) resp with
    | None => ret None
    | Some None => fail invalidAccess
    | Some (Some q) => ret (Some q)
    end.

Section Discovery.

(** [Extensions.GetObject(key, &gvks)] of kube-openapi and the parser
    of [json.Unmarshal(b, resp)] are collaborators. *)
Variable GetObject : Extensions_t -> string -> res (list GroupVersionKind).
Variable json_Unmarshal : string -> res document.

(** [resolveType]: the loop over [resp.Components.Schemas];
    [s.Extensions] on a nil [s] panics. *)
Fixpoint resolveType (resp : schemas) (gvk : GroupVersionKind) : M loc :=
  match resp with
  | [] => fail (Value.cannotResolveGVK gvk)
  | (_, None) :: _ => fail invalidAccess
  | (_, Some s) :: rest =>
      let! sv := loadSchema s in
      let! ext := loadExtensions (Extensions sv) in
      let! gvks := lift (GetObject ext extGVK) in
      if existsb (fun g => gvk_eqb g gvk) gvks then ret s
      else resolveType rest gvk
  end.

Definition ResolveSchema (r : Value.ClientDiscoveryResolver) (fuel : nat)
    (gvk : GroupVersionKind) : M loc :=
  let! p := lift (Value.Paths r) in
  let resourcePath := Value.resourcePathFromGV (Group gvk) (Version gvk) in
  match assoc resourcePath p with
  | None => fail (Value.cannotResolveGV gvk)
  | Some c =>
      let! b := lift (Value.Schema_bytes c Value.ContentTypeJSON) in
      let! doc := lift (json_Unmarshal b) in
      let! resp := decodeSchemas doc in
      let! s := resolveType resp gvk in
      let! _ := populateRefs fuel (schemaOf resp) s in
      ret s
  end.

End Discovery.

(** The error comes from a collaborator of the discovery resolver: the
    discovery client, the parser of the document, or the decoder of a
    GVK extension. *)
Definition from_collaborator
    (GetObject : Extensions_t -> string -> res (list GroupVersionKind))
    (json_Unmarshal : string -> res document)
    (r : Value.ClientDiscoveryResolver) (e : error) : Prop :=
  Value.Paths r = Err e
  \/ (exists p path c, Value.Paths r = Ok p /\ assoc path p = Some c
                       /\ Value.Schema_bytes c Value.ContentTypeJSON = Err e)
  \/ (exists b, json_Unmarshal b = Err e)
  \/ (exists ext, GetObject ext extGVK = Err e).

End Discovery.

(* ================================================================== *)
(** * Example inputs *)

Import Value.

Definition leaf (descr : string) : Schema :=
  mkSchema None descr [] None None [] [].

Definition refTo (ref : string) : Schema :=
  mkSchema (Some ref) EmptyString [] None None [] [].

(** A table in which the target of ["A"] is itself a reference, to ["B"]. *)
Definition chainLookup (ref : string) : option Schema :=
  if String.eqb ref "A" then Some (refTo "B")
  else if String.eqb ref "B" then Some (leaf "final")
  else None.

(** A node that is no reference but carries one inside an allOf member. *)
Definition combined : Schema :=
  mkSchema None EmptyString [] None None
    [mkSchema None EmptyString [("a", refTo "B")] None None [] []] [].

(** A stand-in for [Extensions.GetObject(key, &gvks)] of kube-openapi,
    which encodes the stored value as JSON and decodes it into a slice of
    GroupVersionKind: a missing key leaves the slice nil, null decodes to
    nil, a sequence decodes element by element (a mapping sets the fields
    it names with strings and leaves the others empty), and any other
    shape is a decoding error. *)
Definition decodeField (fields : list (string * any)) (name : string) : res string :=
  match assoc name fields with
  | None => Ok EmptyString
  | Some ANil => Ok EmptyString
  | Some (AString s) => Ok s
  | Some _ => Err (External "json: cannot unmarshal into Go struct field of type string")
  end.

Definition decodeGVK (a : any) : res GroupVersionKind :=
  match a with
  | ANil => Ok (mkGVK EmptyString EmptyString EmptyString)
  | AMap fields =>
      let* g := decodeField fields "group" in
      let* v := decodeField fields "version" in
      let* k := decodeField fields "kind" in
      Ok (mkGVK g v k)
  | _ => Err (External "json: cannot unmarshal into Go value of type schema.GroupVersionKind")
  end.

Fixpoint decodeGVKs (elems : list any) : res (list GroupVersionKind) :=
  match elems with
  | [] => Ok []
  | a :: rest =>
      let* g := decodeGVK a in
      let* l := decodeGVKs rest in
      Ok (g :: l)
  end.

Definition GetObject_json (e : Extensions_t) (key : string)
    : res (list GroupVersionKind) :=
  match assoc key e with
  | None => Ok []
  | Some ANil => Ok []
  | Some (ASlice elems) => decodeGVKs elems
  | Some _ =>
      Err (External "json: cannot unmarshal into Go value of type []schema.GroupVersionKind")
  end.

Definition gvkExt (group version kind : string) : Extensions_t :=
  [(extGVK, ASlice [AMap [("group", AString group); ("version", AString version);
                          ("kind", AString kind)]])].

Definition podGVK : GroupVersionKind := mkGVK EmptyString "v1" "Pod".
Definition nodeGVK : GroupVersionKind := mkGVK EmptyString "v1" "Node".

(** A document whose Pod schema has a property that refers to a component
    the document does not have. *)
Definition danglingDoc : schemaResponse :=
  mkResponse
    [("io.k8s.api.core.v1.Pod",
      mkSchema None "Pod" [("spec", refTo "#/components/schemas/io.k8s.api.core.v1.PodSpec")]
        None None [] (gvkExt EmptyString "v1" "Pod"))].

(** A document whose first schema has a malformed extension (a string
    where the sequence should be) and whose second schema is the Pod. *)
Definition malformedDoc : schemaResponse :=
  mkResponse
    [("io.k8s.api.core.v1.Broken",
      mkSchema None "Broken" [] None None [] [(extGVK, AString "Pod")]);
     ("io.k8s.api.core.v1.Pod",
      mkSchema None "Pod" [] None None [] (gvkExt EmptyString "v1" "Pod"))].

(** A discovery client that serves one document under ["api/v1"]. *)
Definition coreV1 : ClientDiscoveryResolver :=
  mkDiscovery (Ok [("api/v1", mkHandle (fun _ => Ok "components"))]).

(** A lookup function under which every reference has a target with a
    property that refers to ["A"]. *)
Definition selfProperty (ref : string) : option Schema :=
  Some (mkSchema None EmptyString [("self", refTo "A")] None None [] []).

(** A lookup function under which ["A"] is a reference to itself. *)
Definition selfLookup (ref : string) : option Schema :=
  if String.eqb ref "A" then Some (refTo "A") else None.

(** ** A definition table on the heap *)

Definition leafS (descr : string) : Store.Schema :=
  Store.mkSchema None descr None None None None None.

Definition refS (ref : string) : Store.Schema :=
  Store.mkSchema (Some ref) EmptyString None None None None None.

Definition podS : Store.Schema :=
  Store.mkSchema None "Pod" (Some 0) None None None None.

Definition podSpecS : Store.Schema :=
  Store.mkSchema None "PodSpec" (Some 1) None None None None.

Definition nodeS : Store.Schema := leafS "Node".

(** Three generated definitions: Pod, whose [spec] refers to PodSpec,
    PodSpec and Node. *)
Definition tableEntries : list (string * Store.Schema) :=
  [("pkg.v1.Pod", podS); ("pkg.v1.PodSpec", podSpecS); ("pkg.v1.Node", nodeS)].

Definition tableHeap : list Store.cell :=
  [Store.CProperties [("spec", refS "pkg.v1.PodSpec")];
   Store.CProperties [("nodeName", leafS "string")];
   Store.CDefinitions tableEntries].

(** The namer gives Pod and Node their GVK, and PodSpec none. *)
Definition tableNamer (name : string) : Extensions_t :=
  if String.eqb name "pkg.v1.Pod" then gvkExt EmptyString "v1" "Pod"
  else if String.eqb name "pkg.v1.Node" then gvkExt EmptyString "v1" "Node"
  else [].

(** The same table iterated with Pod last. *)
Definition tableHeapPodLast : list Store.cell :=
  [Store.CProperties [("spec", refS "pkg.v1.PodSpec")];
   Store.CProperties [("nodeName", leafS "string")];
   Store.CDefinitions
     [("pkg.v1.Node", nodeS); ("pkg.v1.PodSpec", podSpecS); ("pkg.v1.Pod", podS)]].

(** A table in which PodSpec carries an extension value that
    encoding/json cannot encode. *)
Definition tableHeapUnencodable : list Store.cell :=
  [Store.CProperties [("spec", refS "pkg.v1.PodSpec")];
   Store.CExtensions [("x-internal", AOther "chan int")];
   Store.CDefinitions
     [("pkg.v1.PodSpec", Store.mkSchema None "PodSpec" None None None None (Some 1));
      ("pkg.v1.Pod", podS)]].

(** Construction on a heap, then one call of [ResolveSchema]. *)
Definition buildAndResolve (h : list Store.cell) (defs : nat) (fuel : nat)
    (gvk : GroupVersionKind) : list Store.cell * res nat :=
  Store.bindM (Store.NewDefinitionsSchemaResolver tableNamer defs)
    (fun d => Store.ResolveSchema d fuel gvk) h.

(** The resolver and the heap after construction over [tableHeapPodLast]. *)
Definition podLastResolver : Store.DefinitionsSchemaResolver := Store.mkResolver 2 3.

Definition podLastHeap : list Store.cell :=
  tableHeapPodLast
  ++ [Store.CIndex [(nodeGVK, 4); (podGVK, 4)]; Store.CSchema podS].

(** A lookup function whose only target is a plain schema. *)
Definition leafLookup (ref : string) : option Schema :=
  if String.eqb ref "B" then Some (leaf "final") else None.

Definition holder : Schema :=
  mkSchema None "holder" [("a", refTo "B")] None None [] [].

Definition holderInlined : Schema :=
  mkSchema None "holder" [("a", leaf "final")] None None [] [].

Definition described : Schema :=
  mkSchema None "a described reference" [] None None [refTo "B"] [].

(** A node whose reference is wrapped twice: it is the second member of
    the allOf list, inside that member's own allOf list. *)
Definition describedDeep : Schema :=
  mkSchema None "a described reference" [] None None
    [leaf "a note"; mkSchema None "inner" [] None None [refTo "B"] []] [].

Definition podDocSchema : Schema :=
  mkSchema None "Pod" [("spec", refTo "#/components/schemas/io.k8s.api.core.v1.PodSpec")]
    None None [] (gvkExt EmptyString "v1" "Pod").

(** A heap in which the schema indexed for Pod, which is also the table's
    PodSpec, cannot be encoded. *)
Definition brokenSchema : Store.Schema :=
  Store.mkSchema None "PodSpec" None None None None (Some 0).

Definition brokenHeap : list Store.cell :=
  [Store.CExtensions [("x-internal", AOther "chan int")];
   Store.CSchema brokenSchema;
   Store.CDefinitions [("pkg.v1.PodSpec", brokenSchema)];
   Store.CIndex [(podGVK, 1)]].

Definition podLastResult : list Store.cell * res nat :=
  Store.ResolveSchema podLastResolver 5 podGVK podLastHeap.

(** A schema that is the only value of its own properties map. *)
Definition selfSchema : Store.Schema :=
  Store.mkSchema None "self" (Some 0) None None None None.

Definition selfHeap : list Store.cell :=
  [Store.CProperties [("self", selfSchema)]].

(** The documents as the discovery resolver on the heap reads them. *)
Definition danglingDocument : list (string * option Schema) :=
  map (fun kv => (fst kv, Some (snd kv))) (Schemas danglingDoc).

Definition malformedDocument : list (string * option Schema) :=
  map (fun kv => (fst kv, Some (snd kv))) (Schemas malformedDoc).

(** Two components of a decoded response on the heap: Pod, whose [spec]
    refers to PodSpec, and PodSpec. *)
Definition componentsHeap : list Store.cell :=
  [Store.CProperties [("spec", refS "#/components/schemas/PodSpec")];
   Store.CProperties [("nodeName", leafS "string")];
   Store.CSchema (Store.mkSchema None "Pod" (Some 0) None None None None);
   Store.CSchema (Store.mkSchema None "PodSpec" (Some 1) None None None None)].

Definition componentsResp : list (string * option nat) :=
  [("Pod", Some 2); ("PodSpec", Some 3)].

(** A table, with its index, whose Pod refers to a definition that the
    table does not have. *)
Definition danglingTable : list Store.cell :=
  [Store.CProperties [("spec", refS "pkg.v1.PodSpec")];
   Store.CSchema podS;
   Store.CDefinitions [("pkg.v1.Pod", podS)];
   Store.CIndex [(podGVK, 1)]].

Definition danglingResolver : Store.DefinitionsSchemaResolver := Store.mkResolver 2 3.

(** Components of a decoded response in which ["A"] is a reference to
    ["B"], and a node that refers to ["A"]. *)
Definition chainHeap : list Store.cell :=
  [Store.CSchema (refS "#/components/schemas/B");
   Store.CSchema (leafS "final");
   Store.CSchema (refS "#/components/schemas/A")].

Definition chainResp : list (string * option nat) := [("A", Some 0); ("B", Some 1)].

(* ================================================================== *)
(** * Notions used to state further properties *)

(** [passes_over GetObject gvk kv]: the extension of the schema of the
    entry [kv] decodes, and the GVKs it lists do not include [gvk]. *)
Definition passes_over
    (GetObject : Extensions_t -> string -> res (list GroupVersionKind))
    (gvk : GroupVersionKind) (kv : string * Schema) : Prop :=
  exists l, GetObject (Extensions (snd kv)) extGVK = Ok l /\ ~ In gvk l.

(** [written_from schemaOf s ref]: [ref] is written in [s], or in the
    target of a reference written in [s], and so on along targets. *)
Definition written_from (schemaOf : string -> option Schema) (s : Schema)
    (ref : string) : Prop :=
  exists r0, In r0 (mentions s)
             /\ Relation_Operators.clos_refl_trans string
                  (fun a b => points_to schemaOf b a) r0 ref.

(** Whether a nested position is nil, holds a nil schema, or holds a
    schema. *)
Definition outline (p : option (option Schema)) : option (option unit) :=
  option_map (option_map (fun _ => tt)) p.

(** [fails_in P m]: every error that the computation [m] returns
    satisfies [P]. *)
Definition fails_in {A : Type} (P : error -> Prop) (m : Store.M A) : Prop :=
  forall h e, snd (m h) = Err e -> P e.

(** The errors that the static resolver's run of [populateRefs] can
    return: the one for a reference without a definition, or an access
    through a nil or ill-typed address. *)
Definition inliner_error (e : error) : Prop :=
  e = Store.invalidAccess \/ exists ref, e = cannotResolveRef ref.

(** The errors of a run of [populateRefs] whose lookup function does not
    fail but with a nil-pointer panic: that panic, or the error for a
    reference on which the lookup function answered that it has
    none. *)
Definition unresolved (schemaOf : Store.lookup_fn) (e : error) : Prop :=
  e = Store.invalidAccess
  \/ exists ref h0, e = cannotResolveRef ref /\ snd (schemaOf ref h0) = Ok None.

(** [passes GetObject gvk h kv]: on the heap [h], the loop of
    [resolveType] goes past the component [kv]: its extension decodes,
    and the GVKs it lists do not include [gvk]. *)
Definition passes
    (GetObject : Extensions_t -> string -> res (list GroupVersionKind))
    (gvk : GroupVersionKind) (h : list Store.cell) (kv : string * option nat) : Prop :=
  exists q sv ext l,
    snd kv = Some q /\ h !! q = Some (Store.CSchema sv)
    /\ snd (Discovery.loadExtensions (Store.Extensions sv) h) = Ok ext
    /\ GetObject ext extGVK = Ok l /\ ~ In gvk l.

(** [declared namer entries gvk]: the name of some entry of the table
    carries [gvk] in its extension. *)
Definition declared (namer : string -> Extensions_t)
    (entries : list (string * Store.Schema)) (gvk : GroupVersionKind) : Prop :=
  exists name schema,
    In (name, schema) entries /\ In gvk (extensionsToGVKs (namer name)).
(* ================================================================== *)
(** * The encoder's walk, object by object *)

Module Walk.
Import Store.

(** The struct values held by an object. *)
Definition structs_in (c : cell) : list Schema :=
  match c with
  | CSchema s => [s]
  | CProperties m => map snd m
  | CAllOf l => l
  | _ => []
  end.

(** The encoder's walk over the struct values of one object, in order,
    up to the first that does not give a document. *)
Definition walk (f : Schema -> res Value.Schema) (c : cell) : res unit :=
  let* _ := marshalElems f (structs_in c) in Ok tt.

(** [ranked h r c]: the walk over the object at [c] returns when it is
    allowed [S r] levels of nesting, and not when it is allowed [r]. *)
Definition ranked (h : heap) (r : nat) (c : loc) : Prop :=
  exists cl, h !! c = Some cl
             /\ walk (marshal (S r) h) cl <> OutOfFuel
             /\ walk (marshal r h) cl = OutOfFuel.

(** [descends h j s]: one level below [s] the walk meets an object of
    rank [j], and in it a struct value whose walk returns with [S j]
    levels and not with [j]. *)
Definition descends (h : heap) (j : nat) : Prop :=
  exists c cl k, h !! c = Some cl /\ In k (structs_in cl) /\ ranked h j c
                 /\ marshal (S j) h k <> OutOfFuel /\ marshal j h k = OutOfFuel.

(** [under h s c]: the object at [c] holds struct values, and is reached
    from [s]. *)
Definition under (h : heap) (s : Schema) (c : loc) : Prop :=
  c < length h /\ reaches h s c.

End Walk.
(* ================================================================== *)
(** * What a run of populateRefs leaves in the heap *)

Module Inline.
Import Store.

(** [notRef h s]: [refOf] answers that [s] is no reference: its own
    indicator is empty and it finds none in the allOf list. *)
Definition notRef (h : heap) (s : Schema) : Prop :=
  exists f, refOf f h s = Ok (EmptyString, false).

(** [child h s c]: [c] is one of the nested schemas of [s] that
    [populateRefs] calls itself on: a value of its properties map, or the
    schema under additionalProperties or items. *)
Inductive child (h : heap) (s : Schema) : Schema -> Prop :=
| child_property m entries name v :
    Properties s = Some m -> h !! m = Some (CProperties entries) ->
    In (name, v) entries -> child h s v
| child_additional a q v :
    AdditionalProperties s = Some a -> h !! a = Some (CSchemaOr (Some q)) ->
    h !! q = Some (CSchema v) -> child h s v
| child_items a q v :
    Items s = Some a -> h !! a = Some (CSchemaOr (Some q)) ->
    h !! q = Some (CSchema v) -> child h s v.

(** [visited h s n]: a traversal of [s] through properties,
    additionalProperties and items meets [n]. *)
Inductive visited (h : heap) (s : Schema) : Schema -> Prop :=
| visited_root : visited h s s
| visited_child c n : child h s c -> visited h c n -> visited h s n.

(** No node that the traversal meets is a reference. *)
Definition inlined (h : heap) (s : Schema) : Prop :=
  forall n, visited h s n -> notRef h n.

(** Every properties map of the heap has each key once. *)
Definition maps_wf (h : heap) : Prop :=
  forall l entries, h !! l = Some (CProperties entries) -> NoDup (map fst entries).

(** A heap as Go has it: no address dangles, and maps have each key
    once. *)
Definition wf (h : heap) : Prop := closed h /\ maps_wf h.

(** The struct value holds addresses of the heap only. *)
Definition within (h : heap) (s : Schema) : Prop :=
  Forall (fun p => p < length h) (schema_locs s).

(** The object at [q] is what some [Schema] pointer of a
    SchemaOrBool or SchemaOrArray points to. *)
Definition pointee (h : heap) (q : loc) : Prop :=
  exists a, h !! a = Some (CSchemaOr (Some q)).

(** Objects of the same kind; those that are neither a schema variable
    nor a properties map are equal. *)
Definition same_kind (c c' : cell) : Prop :=
  match c, c' with
  | CSchema _, CSchema _ => True
  | CProperties _, CProperties _ => True
  | _, _ => c = c'
  end.

(** [ev X h h']: what a run may have done to the heap [h], the schema
    variables at the addresses [X] apart.  No object has gone or changed
    its kind; only schema variables and properties maps have changed; a
    schema variable that has changed held a reference and holds none
    now; a map has its keys, and each value is the old one or has no
    reference left in it; new pointers point to new objects. *)
Record ev (X : loc -> Prop) (h h' : heap) : Prop := mk_ev {
  ev_len : length h <= length h';
  ev_kind : forall l c, h !! l = Some c ->
      exists c', h' !! l = Some c' /\ same_kind c c';
  ev_schema : forall l s s', h !! l = Some (CSchema s) -> ~ X l ->
      h' !! l = Some (CSchema s') ->
      s' = s \/ (~ notRef h s /\ notRef h' s');
  ev_props : forall m entries entries',
      h !! m = Some (CProperties entries) -> h' !! m = Some (CProperties entries') ->
      map fst entries' = map fst entries
      /\ forall name v', In (name, v') entries' ->
           In (name, v') entries \/ inlined h' v';
  ev_new : forall a q, length h <= a -> h' !! a = Some (CSchemaOr (Some q)) ->
      length h <= q }.

(** What the run relies on in a lookup function, given a property [J]
    of the heap that holds when it is called: it only allocates, what
    it allocates is well formed and pointed to by nothing older, and the
    schema it hands out is no reference. *)
Definition lookup_ok (J : heap -> Prop) (schemaOf : lookup_fn) : Prop :=
  forall ref (h : heap), J h -> wf h ->
    exists ext, fst (schemaOf ref h) = h ++ ext
      /\ wf (h ++ ext)
      /\ (forall a q, length h <= a -> (h ++ ext) !! a = Some (CSchemaOr (Some q)) ->
            length h <= q)
      /\ forall q, snd (schemaOf ref h) = Ok (Some q) ->
           exists rv, (h ++ ext) !! q = Some (CSchema rv) /\ notRef (h ++ ext) rv.

(** [J] looks at objects below [n0] only, and is not disturbed by what a
    run does to the heap. *)
Definition stable (n0 : nat) (J : heap -> Prop) : Prop :=
  forall (X : loc -> Prop) (h h' : heap),
    J h -> wf h -> wf h' -> ev X h h' -> (forall x, X x -> n0 <= x) -> J h'.

(** What a call on [p] that returned leaves: a well-formed heap, which
    the call has only changed as [ev] allows, and at [p] a schema in
    which a traversal meets no reference. *)
Definition run_ok (p : loc) (h h' : heap) : Prop :=
  wf h' /\ ev (fun _ => False) h h'
  /\ exists s', h' !! p = Some (CSchema s') /\ inlined h' s'.

Definition call_ok (J : heap -> Prop) (n0 : nat) (f : loc -> M unit) : Prop :=
  forall q (h h' : heap), wf h -> J h -> n0 <= length h ->
    f q h = (h', Ok tt) -> run_ok q h h'.

(** The components of the decoded response, which were allocated before
    the object at [n0], are no references. *)
Definition components_plain (resp : Discovery.schemas) (n0 : nat) (h : heap) : Prop :=
  forall name q, In (name, Some q) resp ->
    q < n0 /\ exists s, h !! q = Some (CSchema s) /\ notRef h s.

(** The definitions of the table are no references. *)
Definition definitions_plain (d : DefinitionsSchemaResolver)
    (entries : list (string * Schema)) (h : heap) : Prop :=
  h !! defs d = Some (CDefinitions entries)
  /\ forall name def, In (name, def) entries -> notRef h def.

(** A document in which every properties mapping has each key once. *)
Inductive ukeys : Value.Schema -> Prop :=
| ukeys_node ref descr props ap items allOf ext :
    NoDup (map fst props) ->
    Forall (fun kv => ukeys (snd kv)) props ->
    (forall t, ap = Some (Some t) -> ukeys t) ->
    (forall t, items = Some (Some t) -> ukeys t) ->
    Forall ukeys allOf ->
    ukeys (Value.mkSchema ref descr props ap items allOf ext).

(** What the decoder leaves for the document [t]: a well-formed heap that
    begins with the old one, and a struct on which [refOf] answers as it
    does on [t]. *)
Definition decoded (t : Value.Schema) (m : M Schema) : Prop :=
  forall h : heap, wf h ->
    exists ext s, m h = (h ++ ext, Ok s)
      /\ wf (h ++ ext) /\ within (h ++ ext) s
      /\ exists f, refOf f (h ++ ext) s = Ok (Value.refOf t).

End Inline.
(** ** Induction on schema trees *)

Section SchemaInduction.
Variable P : Schema -> Prop.
Hypothesis step : forall r d props ap items allOf ext,
  Forall (fun kv => P (snd kv)) props ->
  (forall a, ap = Some (Some a) -> P a) ->
  (forall i, items = Some (Some i) -> P i) ->
  Forall P allOf ->
  P (mkSchema r d props ap items allOf ext).

Fixpoint Schema_tree_ind (s : Schema) : P s :=
  match s with
  | mkSchema r d props ap items allOf ext =>
      step r d props ap items allOf ext
        ((fix go (l : list (string * Schema)) : Forall (fun kv => P (snd kv)) l :=
            match l with
            | [] => Forall_nil _
            | kv :: rest => Forall_cons _ kv rest (Schema_tree_ind (snd kv)) (go rest)
            end) props)
        (match ap as o return forall a, o = Some (Some a) -> P a with
         | Some (Some a0) => fun a E =>
             match E in _ = y return match y with Some (Some b) => P b | _ => True end with
             | eq_refl => Schema_tree_ind a0
             end
         | _ => fun a E => ltac:(discriminate)
         end)
        (match items as o return forall a, o = Some (Some a) -> P a with
         | Some (Some a0) => fun a E =>
             match E in _ = y return match y with Some (Some b) => P b | _ => True end with
             | eq_refl => Schema_tree_ind a0
             end
         | _ => fun a E => ltac:(discriminate)
         end)
        ((fix go (l : list Schema) : Forall P l :=
            match l with
            | [] => Forall_nil _
            | a :: rest => Forall_cons _ a rest (Schema_tree_ind a) (go rest)
            end) allOf)
  end.
End SchemaInduction.

(* ================================================================== *)
(** * Properties of the value layer *)

(** ** Unfolding and fuel *)

Lemma bind_Ok {A B} (r : res A) (k : A -> res B) b :
  bind r k = Ok b -> exists a, r = Ok a /\ k a = Ok b.
Proof. destruct r; simpl; intros H; try discriminate. eauto. Qed.

Lemma bind_Err {A B} (r : res A) (k : A -> res B) e :
  bind r k = Err e -> r = Err e \/ exists a, r = Ok a /\ k a = Err e.
Proof. destruct r; simpl; intros H; try discriminate; eauto. left. congruence. Qed.

Lemma replaceIfRef_ref schemaOf n ref :
  refOf n = (ref, true) ->
  replaceIfRef schemaOf n =
    match schemaOf ref with
    | None => Err (cannotResolveRef ref)
    | Some resolved => Ok resolved
    end.
Proof. unfold replaceIfRef. intros ->. reflexivity. Qed.

Lemma replaceIfRef_plain schemaOf n :
  snd (refOf n) = false -> replaceIfRef schemaOf n = Ok n.
Proof. unfold replaceIfRef. destruct (refOf n) as [r b]. simpl. intros ->. reflexivity. Qed.

Lemma replaceIfRef_not_OutOfFuel schemaOf n : replaceIfRef schemaOf n <> OutOfFuel.
Proof.
  unfold replaceIfRef. destruct (refOf n) as [r [|]]; [destruct (schemaOf r)|]; discriminate.
Qed.

Lemma rangeProperties_ext_settled (f g : Schema -> res Schema) props :
  (forall s, settled (f s) -> g s = f s) ->
  settled (rangeProperties f props) ->
  rangeProperties g props = rangeProperties f props.
Proof.
  intros Hfg. induction props as [|[k v] rest IH]; simpl; [reflexivity|].
  intros Hs. destruct (f v) as [v'| |] eqn:Ev.
  - rewrite (Hfg v) by (rewrite Ev; discriminate). rewrite Ev. simpl in *.
    destruct (rangeProperties f rest) eqn:Er.
    + rewrite IH by discriminate. reflexivity.
    + rewrite IH by discriminate. reflexivity.
    + exfalso. apply Hs. reflexivity.
  - rewrite (Hfg v) by (rewrite Ev; discriminate). rewrite Ev. reflexivity.
  - exfalso. apply Hs. reflexivity.
Qed.

Lemma populateNested_ext_settled (f g : Schema -> res Schema) p :
  (forall s, settled (f s) -> g s = f s) ->
  settled (populateNested f p) ->
  populateNested g p = populateNested f p.
Proof.
  intros Hfg. destruct p as [[s|]|]; simpl; try reflexivity.
  intros Hs. rewrite Hfg; [reflexivity|].
  intros E. apply Hs. rewrite E. reflexivity.
Qed.

Lemma populateChildren_ext_settled (f g : Schema -> res Schema) s :
  (forall s, settled (f s) -> g s = f s) ->
  settled (populateChildren f s) ->
  populateChildren g s = populateChildren f s.
Proof.
  intros Hfg. unfold populateChildren. intros Hs.
  destruct (rangeProperties f (Properties s)) as [props| |] eqn:Ep;
    [| rewrite (rangeProperties_ext_settled f g) by (auto; rewrite Ep; discriminate);
       rewrite Ep; reflexivity
     | exfalso; apply Hs; reflexivity].
  rewrite (rangeProperties_ext_settled f g) by (auto; rewrite Ep; discriminate).
  rewrite Ep. simpl in *.
  destruct (populateNested f (AdditionalProperties s)) as [ap| |] eqn:Ea;
    [| rewrite (populateNested_ext_settled f g) by (auto; rewrite Ea; discriminate);
       rewrite Ea; reflexivity
     | exfalso; apply Hs; reflexivity].
  rewrite (populateNested_ext_settled f g) by (auto; rewrite Ea; discriminate).
  rewrite Ea. simpl in *.
  destruct (populateNested f (Items s)) as [it| |] eqn:Ei;
    [| rewrite (populateNested_ext_settled f g) by (auto; rewrite Ei; discriminate);
       rewrite Ei; reflexivity
     | exfalso; apply Hs; reflexivity].
  rewrite (populateNested_ext_settled f g) by (auto; rewrite Ei; discriminate).
  rewrite Ei. reflexivity.
Qed.

Lemma populateRefs_fuel_S fuel schemaOf : forall s,
  settled (populateRefs fuel schemaOf s) ->
  populateRefs (S fuel) schemaOf s = populateRefs fuel schemaOf s.
Proof.
  induction fuel as [|fuel IH]; intros s Hs.
  - exfalso. apply Hs. reflexivity.
  - change (populateRefs (S (S fuel)) schemaOf s)
      with (let* s1 := replaceIfRef schemaOf s in
            populateChildren (populateRefs (S fuel) schemaOf) s1).
    change (populateRefs (S fuel) schemaOf s)
      with (let* s1 := replaceIfRef schemaOf s in
            populateChildren (populateRefs fuel schemaOf) s1) in Hs |- *.
    destruct (replaceIfRef schemaOf s) as [s1| |]; simpl in *; try reflexivity.
    apply populateChildren_ext_settled; auto.
Qed.

Lemma populateRefs_fuel_mono fuel k schemaOf s :
  settled (populateRefs fuel schemaOf s) ->
  populateRefs (fuel + k) schemaOf s = populateRefs fuel schemaOf s.
Proof.
  intros Hs. induction k as [|k IH].
  - rewrite Nat.add_0_r. reflexivity.
  - rewrite Nat.add_succ_r, populateRefs_fuel_S; [exact IH|].
    rewrite IH. exact Hs.
Qed.

Lemma populateRefs_fuel_le fuel fuel' schemaOf s :
  fuel <= fuel' -> settled (populateRefs fuel schemaOf s) ->
  populateRefs fuel' schemaOf s = populateRefs fuel schemaOf s.
Proof.
  intros Hle Hs. replace fuel' with (fuel + (fuel' - fuel)) by lia.
  apply populateRefs_fuel_mono, Hs.
Qed.

(** Two runs that both return agree on what they return. *)
Lemma populateRefs_deterministic f1 f2 schemaOf s t1 t2 :
  populateRefs f1 schemaOf s = Ok t1 -> populateRefs f2 schemaOf s = Ok t2 ->
  t1 = t2.
Proof.
  intros H1 H2. destruct (Nat.le_ge_cases f1 f2) as [Hle|Hle].
  - rewrite (populateRefs_fuel_le f1 f2) in H2 by (auto; rewrite H1; discriminate).
    congruence.
  - rewrite (populateRefs_fuel_le f2 f1) in H1 by (auto; rewrite H2; discriminate).
    congruence.
Qed.

(** ** The reference unwrapper *)

Lemma refOf_own_ref n ref : Ref n = Some ref -> refOf n = (ref, true).
Proof. destruct n; simpl. intros ->. reflexivity. Qed.

(** The reference of a member of the allOf list, every member before it
    being no reference, is the reference of the node. *)
Lemma refOf_allOf_member n pre a post ref :
  Ref n = None -> AllOf n = pre ++ a :: post ->
  Forall (fun x => snd (refOf x) = false) pre -> refOf a = (ref, true) ->
  refOf n = (ref, true).
Proof.
  destruct n as [r d p ap it al e]; simpl. intros -> -> Hpre Ha.
  induction Hpre as [|x pre Hx _ IH]; simpl.
  - rewrite Ha. reflexivity.
  - destruct (refOf x) as [rx bx]. simpl in Hx. subst bx. exact IH.
Qed.

Lemma populateRefs_of_ref fuel schemaOf n ref :
  refOf n = (ref, true) ->
  populateRefs (S fuel) schemaOf n =
    match schemaOf ref with
    | None => Err (cannotResolveRef ref)
    | Some resolved => populateChildren (populateRefs fuel schemaOf) resolved
    end.
Proof.
  intros H. simpl. rewrite (replaceIfRef_ref _ _ _ H).
  destruct (schemaOf ref); reflexivity.
Qed.

Lemma populateRefs_same_ref fuel schemaOf n1 n2 ref :
  refOf n1 = (ref, true) -> refOf n2 = (ref, true) ->
  populateRefs fuel schemaOf n1 = populateRefs fuel schemaOf n2.
Proof.
  intros H1 H2. destruct fuel; [reflexivity|].
  rewrite (populateRefs_of_ref _ _ _ _ H1), (populateRefs_of_ref _ _ _ _ H2).
  reflexivity.
Qed.

(** C5. A node that is a reference is replaced by the looked-up target,
    whether the indicator sits on the node ([bare]) or is found by
    [refOf] in its allOf list ([wrapped]): on any member [a], itself a
    reference by its own indicator or through its own allOf list, the
    members before it being no references.  Both runs are equal, and
    both equal the run on the target's content alone, so no other field
    of either node (a description next to the wrapped reference, for
    one) is left in the result. *)
Theorem populateRefs_replaces_whole_node :
  forall (fuel : nat) (schemaOf : string -> option Schema)
         (bare wrapped a : Schema) (pre post : list Schema) (ref : string),
    Ref bare = Some ref ->
    Ref wrapped = None -> AllOf wrapped = pre ++ a :: post ->
    Forall (fun x => snd (refOf x) = false) pre -> refOf a = (ref, true) ->
    populateRefs (S fuel) schemaOf wrapped = populateRefs (S fuel) schemaOf bare
    /\ populateRefs (S fuel) schemaOf bare =
         match schemaOf ref with
         | None => Err (cannotResolveRef ref)
         | Some resolved => populateChildren (populateRefs fuel schemaOf) resolved
         end.
Proof.
  intros fuel schemaOf bare wrapped a pre post ref Hb Hw Ha Hpre Hr.
  pose proof (refOf_own_ref _ _ Hb) as Rb.
  pose proof (refOf_allOf_member _ _ _ _ _ Hw Ha Hpre Hr) as Rw.
  split.
  - apply (populateRefs_same_ref _ _ _ _ ref); assumption.
  - apply populateRefs_of_ref, Rb.
Qed.

(** ** Trees without references *)

Lemma ref_free_not_ref : forall s, ref_free s = true -> snd (refOf s) = false.
Proof.
  induction s as [r d props ap items allOf ext _ _ _ IHall] using Schema_tree_ind.
  simpl. destruct r as [u|]; [discriminate|].
  intros H. apply andb_prop in H as [_ H].
  induction IHall as [|a l Ha _ IHl]; [reflexivity|].
  apply andb_prop in H as [H1 H2].
  specialize (Ha H1). destruct (refOf a) as [ra [|]]; simpl in Ha; [discriminate|].
  apply IHl, H2.
Qed.

Lemma rangeProperties_id (f : Schema -> res Schema) props :
  Forall (fun kv => f (snd kv) = Ok (snd kv)) props ->
  rangeProperties f props = Ok props.
Proof.
  induction 1 as [|[k v] l Hv _ IH]; simpl in *; [reflexivity|].
  rewrite Hv. simpl. rewrite IH. reflexivity.
Qed.

Lemma populateRefs_ref_free : forall s schemaOf fuel,
  ref_free s = true -> depth s <= fuel -> populateRefs fuel schemaOf s = Ok s.
Proof.
  induction s as [r d props ap items allOf ext IHp IHa IHi _] using Schema_tree_ind.
  intros schemaOf fuel Hfree Hdepth.
  destruct fuel as [|fuel]; [simpl in Hdepth; lia|].
  pose proof (ref_free_not_ref _ Hfree) as Hnr.
  change (populateRefs (S fuel) schemaOf (mkSchema r d props ap items allOf ext))
    with (let* s1 := replaceIfRef schemaOf (mkSchema r d props ap items allOf ext) in
          populateChildren (populateRefs fuel schemaOf) s1).
  rewrite (replaceIfRef_plain _ _ Hnr). simpl bind.
  simpl in Hfree. destruct r; [discriminate|].
  apply andb_prop in Hfree as [Hfree _].
  apply andb_prop in Hfree as [Hfree Hfi].
  apply andb_prop in Hfree as [Hfp Hfa].
  cbn [depth Properties AdditionalProperties Items] in Hdepth.
  apply le_S_n in Hdepth.
  unfold populateChildren. cbn [Properties AdditionalProperties Items Ref Description AllOf Extensions].
  rewrite rangeProperties_id.
  2:{ clear - IHp Hfp Hdepth.
      induction IHp as [|[k v] l Hv _ IHl]; constructor.
      - simpl in *. apply andb_prop in Hfp as [H1 _]. apply Hv; [exact H1|lia].
      - apply IHl.
        + simpl in Hfp. apply andb_prop in Hfp as [_ H2]. exact H2.
        + simpl in Hdepth |- *. lia. }
  simpl bind.
  assert (Ea : populateNested (populateRefs fuel schemaOf) ap = Ok ap).
  { destruct ap as [[a|]|]; simpl; try reflexivity.
    rewrite (IHa a eq_refl); [reflexivity|exact Hfa|lia]. }
  assert (Ei : populateNested (populateRefs fuel schemaOf) items = Ok items).
  { destruct items as [[i|]|]; simpl; try reflexivity.
    rewrite (IHi i eq_refl); [reflexivity|exact Hfi|lia]. }
  rewrite Ea. simpl bind. rewrite Ei. reflexivity.
Qed.

(** C8. On a tree with no reference indicator anywhere, and for any
    lookup function, [populateRefs] returns and hands back the same tree
    (once the run is allowed [depth s] nested calls); hence a second run
    on the result of the first gives what the first gave. *)
Theorem populateRefs_idempotent_on_inlined :
  forall (s : Schema) (schemaOf : string -> option Schema) (fuel : nat),
    ref_free s = true -> depth s <= fuel ->
    populateRefs fuel schemaOf s = Ok s
    /\ (let* s' := populateRefs fuel schemaOf s in populateRefs fuel schemaOf s')
       = populateRefs fuel schemaOf s.
Proof.
  intros s schemaOf fuel Hfree Hd.
  pose proof (populateRefs_ref_free s schemaOf fuel Hfree Hd) as E.
  split; [exact E|]. rewrite E. simpl. exact E.
Qed.

(** ** The reference prefix *)

Lemma HasPrefix_append prefix : forall rest, HasPrefix (String.append prefix rest) prefix = true.
Proof.
  induction prefix as [|c p IH]; intros rest; simpl; [reflexivity|].
  rewrite Ascii.eqb_refl. apply IH.
Qed.

Lemma HasPrefix_split prefix : forall s,
  HasPrefix s prefix = true ->
  s = String.append prefix (drop_bytes (String.length prefix) s).
Proof.
  induction prefix as [|c p IH]; intros s; simpl; [reflexivity|].
  destruct s as [|d s']; [discriminate|].
  intros H. apply andb_prop in H as [Hc Hp].
  apply Ascii.eqb_eq in Hc. subst d. f_equal. apply IH, Hp.
Qed.

Lemma drop_bytes_append prefix : forall rest,
  drop_bytes (String.length prefix) (String.append prefix rest) = rest.
Proof. induction prefix as [|c p IH]; intros rest; simpl; auto. Qed.

Lemma TrimPrefix_append prefix rest : TrimPrefix (String.append prefix rest) prefix = rest.
Proof. unfold TrimPrefix. rewrite HasPrefix_append. apply drop_bytes_append. Qed.

Lemma TrimPrefix_without s prefix : HasPrefix s prefix = false -> TrimPrefix s prefix = s.
Proof. unfold TrimPrefix. intros ->. reflexivity. Qed.

(** C10. The lookup of the discovery resolver removes
    ["#/components/schemas/"] from a reference string exactly when the
    string starts with it, and reads what is left as a key of the
    document's components; a reference string that does not start with
    the prefix is the key as it stands, so it resolves exactly when a
    component of that very name exists. *)
Theorem discoverySchemaOf_prefix :
  forall (resp : schemaResponse) (ref : string),
    (HasPrefix ref refPrefix = true <-> exists name, ref = String.append refPrefix name)
    /\ (forall name, ref = String.append refPrefix name ->
          discoverySchemaOf resp ref = assoc name (Schemas resp))
    /\ ((forall name, ref <> String.append refPrefix name) ->
          TrimPrefix ref refPrefix = ref
          /\ discoverySchemaOf resp ref = assoc ref (Schemas resp)).
Proof.
  intros resp ref. split; [|split].
  - split.
    + intros H. eexists. apply HasPrefix_split, H.
    + intros [name ->]. apply HasPrefix_append.
  - intros name ->. unfold discoverySchemaOf. rewrite TrimPrefix_append. reflexivity.
  - intros Hno. assert (Hp : HasPrefix ref refPrefix = false).
    { destruct (HasPrefix ref refPrefix) eqn:E; [|reflexivity].
      exfalso. apply (Hno _ (HasPrefix_split _ _ E)). }
    unfold discoverySchemaOf. rewrite (TrimPrefix_without _ _ Hp). auto.
Qed.

(** ** What a successful run leaves behind *)

Lemma refOf_fields r d d' p p' a a' i i' allOf e e' :
  refOf (mkSchema r d p a i allOf e) = refOf (mkSchema r d' p' a' i' allOf e').
Proof. reflexivity. Qed.

Lemma populateChildren_keeps f s s' :
  populateChildren f s = Ok s' ->
  Ref s' = Ref s /\ AllOf s' = AllOf s /\ Description s' = Description s
  /\ Extensions s' = Extensions s /\ refOf s' = refOf s
  /\ rangeProperties f (Properties s) = Ok (Properties s')
  /\ populateNested f (AdditionalProperties s) = Ok (AdditionalProperties s')
  /\ populateNested f (Items s) = Ok (Items s').
Proof.
  unfold populateChildren. intros H.
  apply bind_Ok in H as [props [Hp H]].
  apply bind_Ok in H as [ap [Ha H]].
  apply bind_Ok in H as [items [Hi H]].
  injection H as <-. destruct s; simpl in *. repeat split; assumption.
Qed.

Lemma rangeProperties_In_fwd f props props' c :
  rangeProperties f props = Ok props' -> In c (map snd props) ->
  exists c', In c' (map snd props') /\ f c = Ok c'.
Proof.
  revert props'. induction props as [|[k v] rest IH]; simpl; intros props' H Hin.
  - destruct Hin.
  - apply bind_Ok in H as [v' [Hv H]]. apply bind_Ok in H as [rest' [Hr H]].
    injection H as <-. simpl. destruct Hin as [<-|Hin].
    + exists v'. auto.
    + destruct (IH _ Hr Hin) as [c' [Hc Hf]]. exists c'. auto.
Qed.

Lemma populateNested_Ok f p p' :
  populateNested f p = Ok p' ->
  match p, p' with
  | Some (Some s), Some (Some s') => f s = Ok s'
  | Some (Some _), _ => False
  | _, _ => p' = p
  end.
Proof.
  destruct p as [[s|]|]; simpl; intros H.
  - apply bind_Ok in H as [s' [Hs H]]. injection H as <-. exact Hs.
  - congruence.
  - congruence.
Qed.

(** Every nested schema of the input is handed to a nested call. *)
Lemma populateChildren_child_fwd f s s' c :
  populateChildren f s = Ok s' -> In c (children s) ->
  exists c', In c' (children s') /\ f c = Ok c'.
Proof.
  intros H Hin. apply populateChildren_keeps in H
    as (_ & _ & _ & _ & _ & Hp & Ha & Hi).
  unfold children in *. apply in_app_or in Hin as [Hin|Hin].
  - destruct (rangeProperties_In_fwd _ _ _ _ Hp Hin) as [c' [Hc Hf]].
    exists c'. split; [apply in_or_app; auto|exact Hf].
  - apply in_app_or in Hin as [Hin|Hin].
    + apply populateNested_Ok in Ha.
      destruct (AdditionalProperties s) as [[a|]|]; try destruct Hin as [<-|[]];
        try destruct Hin.
      destruct (AdditionalProperties s') as [[a'|]|]; try contradiction.
      exists a'. split; [|exact Ha].
      apply in_or_app. right. apply in_or_app. left. left. reflexivity.
    + apply populateNested_Ok in Hi.
      destruct (Items s) as [[i|]|]; try destruct Hin as [<-|[]];
        try destruct Hin.
      destruct (Items s') as [[i'|]|]; try contradiction.
      exists i'. split; [|exact Hi].
      apply in_or_app. right. apply in_or_app. right. left. reflexivity.
Qed.

Lemma populateRefs_Ok_inv fuel schemaOf s s' :
  populateRefs (S fuel) schemaOf s = Ok s' ->
  exists s1, replaceIfRef schemaOf s = Ok s1
             /\ populateChildren (populateRefs fuel schemaOf) s1 = Ok s'.
Proof. simpl. apply bind_Ok. Qed.

Lemma replaceIfRef_Ok schemaOf s s1 :
  replaceIfRef schemaOf s = Ok s1 ->
  (snd (refOf s) = false /\ s1 = s)
  \/ (exists ref, refOf s = (ref, true) /\ schemaOf ref = Some s1).
Proof.
  unfold replaceIfRef. destruct (refOf s) as [ref [|]]; simpl.
  - destruct (schemaOf ref) eqn:E; [|discriminate].
    intros H. injection H as <-. right. eauto.
  - intros H. injection H as <-. auto.
Qed.

Lemma chainLookup_acyclic : forall r, Acc (points_to chainLookup) r.
Proof.
  assert (HB : Acc (points_to chainLookup) "B").
  { constructor. intros r' [t [Ht Hin]]. injection Ht as <-. destruct Hin. }
  intros r. constructor. intros r' [t [Ht Hin]].
  unfold chainLookup in Ht.
  destruct (String.eqb r "A").
  - injection Ht as <-. simpl in Hin. destruct Hin as [<-|[]]. exact HB.
  - destruct (String.eqb r "B"); [|discriminate].
    injection Ht as <-. destruct Hin.
Qed.

(** ** Termination on well-founded reference graphs *)

Lemma mentions_unfold s :
  mentions s =
    match Ref s with Some u => [u] | None => [] end
    ++ flat_map mentions (map snd (Properties s))
    ++ match AdditionalProperties s with Some (Some a) => mentions a | _ => [] end
    ++ match Items s with Some (Some i) => mentions i | _ => [] end
    ++ flat_map mentions (AllOf s).
Proof.
  destruct s as [r d props ap items allOf ext].
  cbn [Ref Properties AdditionalProperties Items AllOf].
  assert (Ep : flat_map mentions (map snd props) =
    (fix go (l : list (string * Schema)) : list string :=
       match l with [] => [] | (_, p) :: rest => mentions p ++ go rest end) props).
  { induction props as [|[k v] rest IH]; simpl; [reflexivity|]. rewrite IH. reflexivity. }
  assert (Ea : flat_map mentions allOf =
    (fix go (l : list Schema) : list string :=
       match l with [] => [] | a :: rest => mentions a ++ go rest end) allOf).
  { induction allOf as [|a rest IH]; simpl; [reflexivity|]. rewrite IH. reflexivity. }
  rewrite Ep, Ea. reflexivity.
Qed.

Lemma mentions_child s c r :
  In c (children s) -> In r (mentions c) -> In r (mentions s).
Proof.
  intros Hc Hr. rewrite mentions_unfold. unfold children in Hc.
  apply in_or_app. right.
  apply in_app_or in Hc as [Hc|Hc].
  - apply in_or_app. left. apply in_flat_map. exists c. auto.
  - apply in_or_app. right. apply in_app_or in Hc as [Hc|Hc].
    + apply in_or_app. left.
      destruct (AdditionalProperties s) as [[a|]|]; try destruct Hc as [<-|[]];
        try destruct Hc. exact Hr.
    + apply in_or_app. right. apply in_or_app. left.
      destruct (Items s) as [[a|]|]; try destruct Hc as [<-|[]];
        try destruct Hc. exact Hr.
Qed.

Lemma refOf_mentions : forall s r, refOf s = (r, true) -> In r (mentions s).
Proof.
  induction s as [ro d props ap items allOf ext _ _ _ IHall] using Schema_tree_ind.
  intros r H. rewrite mentions_unfold. cbn [Ref AllOf Properties AdditionalProperties Items].
  simpl in H. destruct ro as [u|].
  - injection H as <-. left. reflexivity.
  - simpl. apply in_or_app. right. apply in_or_app. right. apply in_or_app. right.
    induction IHall as [|a l Ha _ IHl]; [discriminate|].
    simpl. apply in_or_app.
    destruct (refOf a) as [ra [|]] eqn:Ea.
    + injection H as <-. left. apply Ha. reflexivity.
    + right. apply IHl, H.
Qed.

Section Termination.
Variable schemaOf : string -> option Schema.

Lemma rangeProperties_settled (f : Schema -> res Schema) props :
  (forall c, In c (map snd props) -> settled (f c)) ->
  settled (rangeProperties f props).
Proof.
  induction props as [|[k v] rest IH]; simpl; intros H; [discriminate|].
  pose proof (H v (or_introl eq_refl)) as Hv.
  destruct (f v); simpl; [|discriminate|exfalso; apply Hv; reflexivity].
  assert (Hr : settled (rangeProperties f rest)) by (apply IH; auto).
  destruct (rangeProperties f rest); simpl;
    [discriminate|discriminate|exfalso; apply Hr; reflexivity].
Qed.

Lemma populateChildren_settled (f : Schema -> res Schema) s :
  (forall c, In c (children s) -> settled (f c)) ->
  settled (populateChildren f s).
Proof.
  intros H. unfold populateChildren, children in *.
  assert (Hp : settled (rangeProperties f (Properties s))).
  { apply rangeProperties_settled. intros c Hc. apply H, in_or_app. auto. }
  destruct (rangeProperties f (Properties s)); simpl;
    [|discriminate|exfalso; apply Hp; reflexivity].
  assert (Ha : settled (populateNested f (AdditionalProperties s))).
  { destruct (AdditionalProperties s) as [[x|]|]; simpl; try discriminate.
    assert (Hx : settled (f x)).
    { apply H, in_or_app. right. apply in_or_app. left. left. reflexivity. }
    destruct (f x); simpl; [discriminate|discriminate|exfalso; apply Hx; reflexivity]. }
  destruct (populateNested f (AdditionalProperties s)); simpl;
    [|discriminate|exfalso; apply Ha; reflexivity].
  assert (Hi : settled (populateNested f (Items s))).
  { destruct (Items s) as [[x|]|]; simpl; try discriminate.
    assert (Hx : settled (f x)).
    { apply H, in_or_app. right. apply in_or_app. right. left. reflexivity. }
    destruct (f x); simpl; [discriminate|discriminate|exfalso; apply Hx; reflexivity]. }
  destruct (populateNested f (Items s)); simpl;
    [discriminate|discriminate|exfalso; apply Hi; reflexivity].
Qed.

Lemma common_fuel (l : list Schema) :
  (forall c, In c l -> returns_from schemaOf c) ->
  exists F, forall f, F <= f -> forall c, In c l -> settled (populateRefs f schemaOf c).
Proof.
  induction l as [|c l IH]; intros H.
  - exists 0. intros f _ c [].
  - destruct (H c (or_introl eq_refl)) as [Fc Hc].
    destruct IH as [Fl Hl]; [intros; apply H; right; assumption|].
    exists (Nat.max Fc Fl). intros f Hf c' [<-|Hin].
    + apply Hc. lia.
    + apply Hl; [lia|exact Hin].
Qed.

Lemma children_return_intro s :
  (forall c, In c (children s) -> returns_from schemaOf c) -> children_return schemaOf s.
Proof.
  intros H. destruct (common_fuel _ H) as [F HF].
  exists F. intros f Hf. apply populateChildren_settled. intros c Hc.
  apply (HF f Hf c Hc).
Qed.

Lemma returns_from_intro s :
  (forall r, refOf s = (r, true) -> target_returns schemaOf r) ->
  (snd (refOf s) = false -> children_return schemaOf s) ->
  returns_from schemaOf s.
Proof.
  intros Href Hplain. destruct (refOf s) as [r [|]] eqn:E.
  - destruct (schemaOf r) as [t|] eqn:Et.
    + destruct (Href r eq_refl t Et) as [F HF].
      exists (S F). intros f Hf. destruct f as [|f]; [lia|].
      rewrite (populateRefs_of_ref _ _ _ _ E), Et. apply HF. lia.
    + exists 1. intros f Hf. destruct f as [|f]; [lia|].
      rewrite (populateRefs_of_ref _ _ _ _ E), Et. discriminate.
  - destruct (Hplain eq_refl) as [F HF].
    exists (S F). intros f Hf. destruct f as [|f]; [lia|].
    simpl. rewrite replaceIfRef_plain by (rewrite E; reflexivity).
    simpl. apply HF. lia.
Qed.

Lemma returns_from_mentions : forall s,
  (forall r, In r (mentions s) -> target_returns schemaOf r) -> returns_from schemaOf s.
Proof.
  induction s as [ro d props ap items allOf ext IHp IHa IHi _] using Schema_tree_ind.
  intros H. apply returns_from_intro.
  - intros r Hr. apply H, refOf_mentions, Hr.
  - intros _. apply children_return_intro. intros c Hc.
    assert (Hm : forall r, In r (mentions c) -> target_returns schemaOf r).
    { intros r Hr. apply H. eapply mentions_child; eauto. }
    unfold children in Hc. cbn [Properties AdditionalProperties Items] in Hc.
    apply in_app_or in Hc as [Hc|Hc].
    + apply in_map_iff in Hc as [[k v] [<- Hin]].
      rewrite Forall_forall in IHp. apply (IHp _ Hin). exact Hm.
    + apply in_app_or in Hc as [Hc|Hc].
      * destruct ap as [[a|]|]; try destruct Hc as [<-|[]]; try destruct Hc.
        apply (IHa _ eq_refl). exact Hm.
      * destruct items as [[a|]|]; try destruct Hc as [<-|[]]; try destruct Hc.
        apply (IHi _ eq_refl). exact Hm.
Qed.

Lemma target_returns_Acc r : Acc (points_to schemaOf) r -> target_returns schemaOf r.
Proof.
  induction 1 as [r _ IH]. intros t Ht.
  apply children_return_intro. intros c Hc.
  apply returns_from_mentions. intros r' Hr'.
  apply IH. exists t. split; [exact Ht|]. eapply mentions_child; eauto.
Qed.

Lemma populateRefs_returns s :
  (forall r, In r (mentions s) -> Acc (points_to schemaOf) r) ->
  exists F, forall f, F <= f -> populateRefs f schemaOf s <> OutOfFuel.
Proof.
  intros H. apply returns_from_mentions. intros r Hr.
  apply target_returns_Acc, H, Hr.
Qed.
End Termination.

(** ** Failures come from lookups *)

Lemma rangeProperties_Err f props e :
  rangeProperties f props = Err e -> exists c, In c (map snd props) /\ f c = Err e.
Proof.
  induction props as [|[k v] rest IH]; simpl; intros H; [discriminate|].
  apply bind_Err in H as [H|[v' [Hv H]]].
  - exists v. auto.
  - apply bind_Err in H as [H|[r' [_ H]]]; [|discriminate].
    destruct (IH H) as [c [Hc Hf]]. exists c. auto.
Qed.

Lemma populateNested_Err f p e :
  populateNested f p = Err e -> exists c, p = Some (Some c) /\ f c = Err e.
Proof.
  destruct p as [[c|]|]; simpl; intros H; try discriminate.
  apply bind_Err in H as [H|[c' [_ H]]]; [|discriminate]. eauto.
Qed.

Lemma populateChildren_Err f s e :
  populateChildren f s = Err e -> exists c, In c (children s) /\ f c = Err e.
Proof.
  unfold populateChildren, children. intros H.
  apply bind_Err in H as [H|[props [_ H]]].
  { apply rangeProperties_Err in H as [c [Hc Hf]]. exists c.
    split; [apply in_or_app; auto|exact Hf]. }
  apply bind_Err in H as [H|[ap [_ H]]].
  { apply populateNested_Err in H as [c [-> Hf]]. exists c.
    split; [|exact Hf]. apply in_or_app. right. left. reflexivity. }
  apply bind_Err in H as [H|[it [_ H]]]; [|discriminate].
  apply populateNested_Err in H as [c [-> Hf]]. exists c.
  split; [|exact Hf]. apply in_or_app. right. apply in_or_app. right. left. reflexivity.
Qed.

(** The only error of [populateRefs] is the one of a failed lookup. *)
Lemma populateRefs_Err schemaOf : forall fuel s e,
  populateRefs fuel schemaOf s = Err e ->
  exists ref, e = cannotResolveRef ref /\ schemaOf ref = None.
Proof.
  induction fuel as [|fuel IH]; intros s e H; [discriminate|].
  simpl in H. apply bind_Err in H as [H|[s1 [_ H]]].
  - unfold replaceIfRef in H. destruct (refOf s) as [ref [|]]; [|discriminate].
    destruct (schemaOf ref) eqn:E; [discriminate|].
    injection H as <-. eauto.
  - apply populateChildren_Err in H as [c [_ Hc]]. eapply IH, Hc.
Qed.

(** ** Cycles through nested positions *)

Lemma size_unfold s :
  size s = S (list_sum (map size (map snd (Properties s)))
              + match AdditionalProperties s with Some (Some a) => size a | _ => 0 end
              + match Items s with Some (Some i) => size i | _ => 0 end).
Proof.
  destruct s as [r d props ap items allOf ext].
  cbn [Properties AdditionalProperties Items].
  assert (E : list_sum (map size (map snd props)) =
    (fix go (l : list (string * Schema)) : nat :=
       match l with [] => 0 | (_, p) :: rest => size p + go rest end) props).
  { induction props as [|[k v] rest IH]; simpl; [reflexivity|]. rewrite IH. reflexivity. }
  rewrite E. reflexivity.
Qed.

Lemma list_sum_In (l : list nat) n : In n l -> n <= list_sum l.
Proof.
  induction l as [|m l IH]; simpl; intros [].
  - subst. lia.
  - specialize (IH H). lia.
Qed.

Lemma size_child s c : In c (children s) -> size c < size s.
Proof.
  intros H. rewrite (size_unfold s). unfold children in H.
  apply in_app_or in H as [H|H].
  - pose proof (list_sum_In _ _ (in_map size _ _ H)). lia.
  - apply in_app_or in H as [H|H].
    + destruct (AdditionalProperties s) as [[a|]|]; try destruct H as [<-|[]];
        try destruct H. lia.
    + destruct (Items s) as [[a|]|]; try destruct H as [<-|[]];
        try destruct H. lia.
Qed.

Section Cycles.
Variable schemaOf : string -> option Schema.

Lemma result_of_unique r T1 T2 : result_of schemaOf r T1 -> result_of schemaOf r T2 -> T1 = T2.
Proof.
  intros (f1 & n1 & R1 & H1) (f2 & n2 & R2 & H2).
  rewrite (populateRefs_same_ref f2 schemaOf n2 n1 r R2 R1) in H2.
  eapply populateRefs_deterministic; eauto.
Qed.

Lemma occurs_below_result r' t :
  occurs_below r' t ->
  forall f T, populateChildren (populateRefs f schemaOf) t = Ok T ->
  exists T', result_of schemaOf r' T' /\ size T' < size T.
Proof.
  induction 1 as [t c ref Hc Hr ->|t c Hc Hplain _ IH]; intros f T HT.
  - destruct (populateChildren_child_fwd _ _ _ _ HT Hc) as [c' [Hc' Hf]].
    exists c'. split; [exists f, c; auto|]. apply size_child, Hc'.
  - destruct (populateChildren_child_fwd _ _ _ _ HT Hc) as [c' [Hc' Hf]].
    destruct f as [|f]; [discriminate|].
    simpl in Hf. rewrite (replaceIfRef_plain _ _ Hplain) in Hf. simpl in Hf.
    destruct (IH _ _ Hf) as [T' [HT' Hlt]].
    exists T'. split; [exact HT'|].
    pose proof (size_child _ _ Hc'). lia.
Qed.

Lemma result_of_unfolds r r' T :
  unfolds_to schemaOf r r' -> result_of schemaOf r T ->
  exists T', result_of schemaOf r' T' /\ size T' < size T.
Proof.
  intros [t [Ht Ho]] (f & n & Rn & Hn).
  destruct f as [|f]; [discriminate|].
  rewrite (populateRefs_of_ref _ _ _ _ Rn), Ht in Hn.
  eapply occurs_below_result; eauto.
Qed.

Lemma result_of_path r r' :
  Relation_Operators.clos_trans _ (unfolds_to schemaOf) r r' ->
  forall T, result_of schemaOf r T -> exists T', result_of schemaOf r' T' /\ size T' < size T.
Proof.
  induction 1 as [r r' Hstep|r r1 r2 _ IH1 _ IH2]; intros T HT.
  - eapply result_of_unfolds; eauto.
  - destruct (IH1 _ HT) as [T1 [H1 L1]]. destruct (IH2 _ H1) as [T2 [H2 L2]].
    exists T2. split; [exact H2|lia].
Qed.

Lemma result_of_path_refl r r' :
  Relation_Operators.clos_refl_trans _ (unfolds_to schemaOf) r r' ->
  forall T, result_of schemaOf r T -> exists T', result_of schemaOf r' T'.
Proof.
  induction 1 as [r r' Hstep|r|r r1 r2 _ IH1 _ IH2]; intros T HT.
  - destruct (result_of_unfolds _ _ _ Hstep HT) as [T' [H' _]]. eauto.
  - eauto.
  - destruct (IH1 _ HT) as [T1 H1]. eauto.
Qed.

Lemma no_result_on_cycle r T :
  Relation_Operators.clos_trans _ (unfolds_to schemaOf) r r -> ~ result_of schemaOf r T.
Proof.
  intros Hc HT. destruct (result_of_path _ _ Hc _ HT) as [T' [HT' Hlt]].
  rewrite (result_of_unique _ _ _ HT' HT) in Hlt. lia.
Qed.

Lemma meets_result s r f T :
  meets s r -> populateRefs f schemaOf s = Ok T -> exists T', result_of schemaOf r T'.
Proof.
  intros [Hr|[Hplain Ho]] H.
  - exists T, f, s. auto.
  - destruct f as [|f]; [discriminate|].
    simpl in H. rewrite (replaceIfRef_plain _ _ Hplain) in H. simpl in H.
    destruct (occurs_below_result _ _ Ho _ _ H) as [T' [HT' _]]. eauto.
Qed.

Lemma populateRefs_cycle_never_Ok s r0 r :
  meets s r0 ->
  Relation_Operators.clos_refl_trans _ (unfolds_to schemaOf) r0 r ->
  Relation_Operators.clos_trans _ (unfolds_to schemaOf) r r ->
  forall f T, populateRefs f schemaOf s <> Ok T.
Proof.
  intros Hm Hpath Hcycle f T H.
  destruct (meets_result _ _ _ _ Hm H) as [T0 H0].
  destruct (result_of_path_refl _ _ Hpath _ H0) as [T1 H1].
  exact (no_result_on_cycle _ _ Hcycle H1).
Qed.

Lemma populateRefs_cycle_diverges s r0 r :
  meets s r0 ->
  Relation_Operators.clos_refl_trans _ (unfolds_to schemaOf) r0 r ->
  Relation_Operators.clos_trans _ (unfolds_to schemaOf) r r ->
  (forall ref, schemaOf ref <> None) ->
  forall f, populateRefs f schemaOf s = OutOfFuel.
Proof.
  intros Hm Hpath Hcycle Htotal f.
  destruct (populateRefs f schemaOf s) as [T|e|] eqn:E; [| |reflexivity].
  - exfalso. exact (populateRefs_cycle_never_Ok _ _ _ Hm Hpath Hcycle _ _ E).
  - exfalso. apply populateRefs_Err in E as [ref [_ Hn]]. exact (Htotal _ Hn).
Qed.
End Cycles.

(** ** Reading the GVK extension *)

Lemma gvksLoop_spec : forall elems result,
  gvksLoop elems result =
    match allGVKs elems with
    | Some l => result ++ l
    | None => []
    end.
Proof.
  induction elems as [|a rest IH]; intros result; simpl.
  - rewrite app_nil_r. reflexivity.
  - unfold gvkOfAny. destruct a as [| | | |?|gvkMap|?]; try reflexivity.
    destruct (assoc "group" gvkMap) as [[| | |g| | |]|]; try reflexivity.
    destruct (assoc "version" gvkMap) as [[| | |v| | |]|]; try reflexivity.
    destruct (assoc "kind" gvkMap) as [[| | |k| | |]|]; try reflexivity.
    rewrite IH. destruct (allGVKs rest); [|reflexivity].
    rewrite <- app_assoc. reflexivity.
Qed.

Lemma allGVKs_None elems a : In a elems -> gvkOfAny a = None -> allGVKs elems = None.
Proof.
  induction elems as [|b rest IH]; simpl; intros [] Hn.
  - subst. rewrite Hn. reflexivity.
  - rewrite (IH H Hn). destruct (gvkOfAny b); reflexivity.
Qed.

(* ================================================================== *)
(** * Properties of the store layer *)

Module StoreFacts.
Import Store.

(** ** Allocation and update *)

Lemma take_alloc (n : nat) (h ext : heap) : n <= length h -> take n (h ++ ext) = take n h.
Proof. intros H. apply take_app_le, H. Qed.

Lemma separate_app n (h ext : heap) :
  n <= length h -> separate_from n h -> Forall (cell_above n) ext ->
  separate_from n (h ++ ext).
Proof.
  intros Hn Hs He l c Hl Hc.
  apply lookup_app_Some in Hc as [Hc|[_ Hc]].
  - eapply Hs; eauto.
  - eapply (Forall_lookup_1 _ _ _ _ He Hc).
Qed.

Lemma separate_store n (h : heap) l c :
  separate_from n h -> cell_above n c -> separate_from n (<[l := c]> h).
Proof.
  intros Hs Hc l' c' Hl Hc'.
  apply list_lookup_insert_Some in Hc' as [(-> & -> & _)|[_ Hc']].
  - exact Hc.
  - eapply Hs; eauto.
Qed.

Lemma kept_refl n h : separate_from n h -> kept n h h.
Proof. intros H. repeat split; auto. Qed.

Lemma kept_trans n h1 h2 h3 : kept n h1 h2 -> kept n h2 h3 -> kept n h1 h3.
Proof.
  intros (T1 & L1 & S1) (T2 & L2 & S2). repeat split; [congruence|lia|exact S2].
Qed.

Lemma kept_alloc n h ext :
  n <= length h -> separate_from n h -> Forall (cell_above n) ext ->
  kept n h (h ++ ext).
Proof.
  intros Hn Hs He. repeat split.
  - apply take_alloc, Hn.
  - rewrite length_app. lia.
  - apply separate_app; assumption.
Qed.

Lemma kept_store n h l c :
  n <= l -> separate_from n h -> cell_above n c -> kept n h (<[l := c]> h).
Proof.
  intros Hn Hs Hc. repeat split.
  - apply take_insert_ge, Hn.
  - rewrite length_insert. lia.
  - apply separate_store; assumption.
Qed.

Lemma schemaAt_Ok (h : heap) p s : schemaAt h p = Ok s -> h !! p = Some (CSchema s).
Proof.
  unfold schemaAt. destruct (h !! p) as [[]|]; try discriminate.
  intros H. injection H as <-. reflexivity.
Qed.

Lemma schemaAt_above n (h : heap) p s :
  separate_from n h -> n <= p -> schemaAt h p = Ok s -> above n s.
Proof. intros Hs Hp H. apply schemaAt_Ok in H. exact (Hs _ _ Hp H). Qed.

Lemma above_mono n n' s : n' <= n -> above n s -> above n' s.
Proof. intros H. apply Forall_impl. intros; lia. Qed.

Lemma cell_above_mono n n' c : n' <= n -> cell_above n c -> cell_above n' c.
Proof. intros H. apply Forall_impl. intros; lia. Qed.

Lemma above_fields n r d p a i al e :
  above n (mkSchema r d p a i al e) <->
  Forall (le n) (option_list p) /\ Forall (le n) (option_list a)
  /\ Forall (le n) (option_list i) /\ Forall (le n) (option_list al)
  /\ Forall (le n) (option_list e).
Proof.
  unfold above, schema_locs. simpl. rewrite !Forall_app. tauto.
Qed.

Lemma above_field n (f : option loc) l : Forall (le n) (option_list f) -> f = Some l -> n <= l.
Proof. intros H ->. simpl in H. inversion H. assumption. Qed.

Lemma above_Properties n s m : above n s -> Properties s = Some m -> n <= m.
Proof.
  destruct s. intros H. apply above_fields in H as (H1 & H2 & H3 & H4 & H5).
  simpl. intros E. eapply above_field; [exact H1|exact E].
Qed.

Lemma above_AdditionalProperties n s m : above n s -> AdditionalProperties s = Some m -> n <= m.
Proof.
  destruct s. intros H. apply above_fields in H as (H1 & H2 & H3 & H4 & H5).
  simpl. intros E. eapply above_field; [exact H2|exact E].
Qed.

Lemma above_Items n s m : above n s -> Items s = Some m -> n <= m.
Proof.
  destruct s. intros H. apply above_fields in H as (H1 & H2 & H3 & H4 & H5).
  simpl. intros E. eapply above_field; [exact H3|exact E].
Qed.

Lemma above_zero n : above n zeroSchema.
Proof. constructor. Qed.

(** ** Rules for computations that keep the old objects *)

Lemma keeps_ret {A} n (a : A) (Q : A -> Prop) : Q a -> keeps n (ret a) Q.
Proof.
  intros HQ h Hn Hs. simpl. split; [apply kept_refl, Hs|].
  intros a' E. injection E as <-. exact HQ.
Qed.

Lemma keeps_fail {A} n e (Q : A -> Prop) : keeps n (fail e) Q.
Proof. intros h Hn Hs. simpl. split; [apply kept_refl, Hs|discriminate]. Qed.

Lemma keeps_diverge {A} n (Q : A -> Prop) : keeps n diverge Q.
Proof. intros h Hn Hs. simpl. split; [apply kept_refl, Hs|discriminate]. Qed.

Lemma keeps_bind {A B} n (m : M A) (k : A -> M B) (Q1 : A -> Prop) (Q2 : B -> Prop) :
  keeps n m Q1 -> (forall a, Q1 a -> keeps n (k a) Q2) -> keeps n (bindM m k) Q2.
Proof.
  intros Hm Hk h Hn Hs. unfold bindM.
  destruct (Hm h Hn Hs) as [K1 HQ1].
  destruct (m h) as [h1 [a|e|]]; simpl in *.
  - destruct (Hk a (HQ1 a eq_refl) h1) as [K2 HQ2].
    + destruct K1 as (_ & L & _). lia.
    + apply K1.
    + split; [eapply kept_trans; eauto|exact HQ2].
  - split; [exact K1|discriminate].
  - split; [exact K1|discriminate].
Qed.

Lemma keeps_weaken {A} n (m : M A) (Q Q' : A -> Prop) :
  keeps n m Q -> (forall a, Q a -> Q' a) -> keeps n m Q'.
Proof.
  intros Hm HQ h Hn Hs. destruct (Hm h Hn Hs) as [K H]. split; [exact K|].
  intros a E. apply HQ, H, E.
Qed.

Lemma keeps_try {A} n (m : M A) (Q : A -> Prop) :
  keeps n m Q -> keeps n (try_ m) (fun r => forall a, r = inr a -> Q a).
Proof.
  intros Hm h Hn Hs. unfold try_. destruct (Hm h Hn Hs) as [K H].
  destruct (m h) as [h1 [a|e|]]; simpl in *; (split; [exact K|]).
  - intros r E a' Ea. injection E as <-. injection Ea as <-. auto.
  - intros r E a' Ea. injection E as <-. discriminate.
  - discriminate.
Qed.

Lemma keeps_read {A} n (f : heap -> res A) (Q : A -> Prop) :
  (forall h a, separate_from n h -> f h = Ok a -> Q a) -> keeps n (read f) Q.
Proof.
  intros HQ h Hn Hs. unfold read. simpl. split; [apply kept_refl, Hs|].
  intros a E. eapply HQ; eauto.
Qed.

Lemma keeps_alloc n c : cell_above n c -> keeps n (alloc c) (le n).
Proof.
  intros Hc h Hn Hs. unfold alloc. simpl. split.
  - apply kept_alloc; auto.
  - intros a E. injection E as <-. exact Hn.
Qed.

Lemma keeps_store n l c :
  n <= l -> cell_above n c -> keeps n (store l c) (fun _ => True).
Proof.
  intros Hl Hc h Hn Hs. unfold store. simpl. split; [|auto].
  apply kept_store; auto.
Qed.

Lemma keeps_loadSchema n p : n <= p -> keeps n (loadSchema p) (above n).
Proof.
  intros Hp. apply keeps_read. intros h a Hs H. eapply schemaAt_above; eauto.
Qed.

Lemma keeps_loadProperties n m :
  n <= m -> keeps n (loadProperties m) (Forall (fun kv => above n (snd kv))).
Proof.
  intros Hm. apply keeps_read. intros h a Hs H.
  destruct (h !! m) as [[| entries | | | | |]|] eqn:E; try discriminate.
  injection H as <-. specialize (Hs _ _ Hm E). unfold cell_locs in Hs.
  apply Forall_flat_map in Hs. exact Hs.
Qed.

Lemma keeps_loadSchemaOr n a :
  n <= a -> keeps n (loadSchemaOr a) (fun q => Forall (le n) (option_list q)).
Proof.
  intros Ha. apply keeps_read. intros h q Hs H.
  destruct (h !! a) as [[| | q0 | | | |]|] eqn:E; try discriminate.
  injection H as <-. exact (Hs _ _ Ha E).
Qed.

Lemma keeps_any_read {A} n (f : heap -> res A) : keeps n (read f) (fun _ => True).
Proof. apply keeps_read. auto. Qed.

(** ** The decoder and deepCopy keep the old objects *)

Lemma decodeList_keeps n dec l :
  Forall (fun t => keeps n (dec t) (above n)) l ->
  keeps n (decodeList dec l) (Forall (above n)).
Proof.
  induction 1 as [|t l Ht _ IH]; simpl.
  - apply keeps_ret. constructor.
  - eapply keeps_bind; [exact Ht|]. intros s Hs.
    eapply keeps_bind; [exact IH|]. intros m Hm.
    apply keeps_ret. constructor; assumption.
Qed.

Lemma decodeEntries_keeps n dec l :
  Forall (fun kv => keeps n (dec (snd kv)) (above n)) l ->
  keeps n (decodeEntries dec l) (Forall (fun kv => above n (snd kv))).
Proof.
  induction 1 as [|t l Ht _ IH]; simpl.
  - apply keeps_ret. constructor.
  - eapply keeps_bind; [exact Ht|]. intros s Hs.
    eapply keeps_bind; [exact IH|]. intros m Hm.
    apply keeps_ret. constructor; assumption.
Qed.

Lemma field_above_Some n l : n <= l -> field_above n (Some l).
Proof. intros H. constructor; [exact H|constructor]. Qed.

Lemma field_above_None n : field_above n None.
Proof. constructor. Qed.

Lemma decodeProperties_keeps n dec props :
  Forall (fun kv => keeps n (dec (snd kv)) (above n)) props ->
  keeps n (decodeProperties dec props) (field_above n).
Proof.
  intros Hd. unfold decodeProperties. destruct props as [|kv rest].
  - apply keeps_ret, field_above_None.
  - eapply keeps_bind; [apply decodeEntries_keeps, Hd|]. intros m Hm.
    eapply keeps_bind; [apply keeps_alloc|].
    + unfold cell_above. simpl. apply Forall_flat_map. exact Hm.
    + intros p Hp. apply keeps_ret, field_above_Some, Hp.
Qed.

Lemma decodeAllOf_keeps n dec allOf :
  Forall (fun t => keeps n (dec t) (above n)) allOf ->
  keeps n (decodeAllOf dec allOf) (field_above n).
Proof.
  intros Hd. unfold decodeAllOf. destruct allOf as [|t rest].
  - apply keeps_ret, field_above_None.
  - eapply keeps_bind; [apply decodeList_keeps, Hd|]. intros m Hm.
    eapply keeps_bind; [apply keeps_alloc|].
    + unfold cell_above. simpl. apply Forall_flat_map. exact Hm.
    + intros p Hp. apply keeps_ret, field_above_Some, Hp.
Qed.

Lemma decodeNested_keeps n dec p :
  (forall t, p = Some (Some t) -> keeps n (dec t) (above n)) ->
  keeps n (decodeNested dec p) (field_above n).
Proof.
  intros Hd. unfold decodeNested. destruct p as [[t|]|].
  - eapply keeps_bind; [apply (Hd t eq_refl)|]. intros s Hs.
    eapply keeps_bind; [apply keeps_alloc, Hs|]. intros q Hq.
    eapply keeps_bind; [apply keeps_alloc, field_above_Some, Hq|]. intros a Ha.
    apply keeps_ret, field_above_Some, Ha.
  - eapply keeps_bind; [apply keeps_alloc, field_above_None|]. intros a Ha.
    apply keeps_ret, field_above_Some, Ha.
  - apply keeps_ret, field_above_None.
Qed.

Lemma decodeItems_keeps n dec p :
  (forall t, p = Some (Some t) -> keeps n (dec t) (above n)) ->
  keeps n (decodeItems dec p) (field_above n).
Proof.
  intros Hd. unfold decodeItems. destruct p as [[t|]|].
  - eapply keeps_bind; [apply (Hd t eq_refl)|]. intros s Hs.
    eapply keeps_bind; [apply keeps_alloc, Hs|]. intros q Hq.
    eapply keeps_bind; [apply keeps_alloc, field_above_Some, Hq|]. intros a Ha.
    apply keeps_ret, field_above_Some, Ha.
  - apply keeps_ret, field_above_None.
  - apply keeps_ret, field_above_None.
Qed.

Lemma decodeExtensions_keeps n ext : keeps n (decodeExtensions ext) (field_above n).
Proof.
  unfold decodeExtensions.
  destruct (List.filter (fun kv : string * any => isExtension (fst kv)) ext)
    as [|kv rest].
  - apply keeps_ret, field_above_None.
  - eapply keeps_bind; [apply keeps_alloc; constructor|]. intros a Ha.
    apply keeps_ret, field_above_Some, Ha.
Qed.

Lemma unmarshal_keeps n : forall t, keeps n (unmarshal t) (above n).
Proof.
  induction t as [r d props ap items allOf ext IHp IHa IHi IHall] using Schema_tree_ind.
  simpl.
  eapply keeps_bind; [apply decodeProperties_keeps, IHp|]. intros pf Hpf.
  eapply keeps_bind; [apply decodeNested_keeps, IHa|]. intros af Haf.
  eapply keeps_bind; [apply decodeItems_keeps, IHi|]. intros itf Hitf.
  eapply keeps_bind; [apply decodeAllOf_keeps, IHall|]. intros alf Half.
  eapply keeps_bind; [apply decodeExtensions_keeps|]. intros ef Hef.
  apply keeps_ret, above_fields. auto.
Qed.

Lemma deepCopy_keeps n sv : keeps n (deepCopy sv) (le n).
Proof.
  unfold deepCopy.
  eapply keeps_bind; [apply keeps_any_read|]. intros b _.
  eapply keeps_bind; [apply keeps_alloc, above_zero|]. intros result Hr.
  eapply keeps_bind; [apply unmarshal_keeps|]. intros rv Hrv.
  eapply keeps_bind; [apply keeps_store; [exact Hr|exact Hrv]|]. intros _ _.
  apply keeps_ret, Hr.
Qed.

(** ** populateRefs writes to what its argument reaches *)

Lemma assocSet_above {K} (eqb : K -> K -> bool) n key v (m : list (K * Schema)) :
  above n v -> Forall (fun kv => above n (snd kv)) m ->
  Forall (fun kv => above n (snd kv)) (assocSet eqb key v m).
Proof.
  intros Hv. induction 1 as [|[k w] rest Hw Hrest IH]; simpl.
  - constructor; [exact Hv|constructor].
  - destruct (eqb k key); constructor; auto.
Qed.

Lemma assoc_above n key (m : list (string * Schema)) v :
  Forall (fun kv => above n (snd kv)) m -> assoc key m = Some v -> above n v.
Proof.
  induction 1 as [|[k w] rest Hw _ IH]; simpl; [discriminate|].
  destruct (String.eqb k key); [|exact IH].
  intros E. injection E as <-. exact Hw.
Qed.

Lemma rangeProperties_keeps n f schema m prop :
  call_keeps n f -> n <= schema -> n <= m -> n <= prop ->
  forall names, keeps n (rangeProperties f schema m prop names) (fun _ => True).
Proof.
  intros Hf Hsc Hm Hp. induction names as [|name rest IH]; simpl.
  - apply keeps_ret. exact I.
  - eapply keeps_bind; [apply keeps_loadProperties, Hm|]. intros entries He.
    destruct (assoc name entries) as [v|] eqn:Ev; [|exact IH].
    pose proof (assoc_above _ _ _ _ He Ev) as Av.
    eapply keeps_bind; [apply keeps_store; [exact Hp|exact Av]|]. intros _ _.
    eapply keeps_bind; [apply Hf, Hp|]. intros _ _.
    eapply keeps_bind; [apply keeps_loadSchema, Hp|]. intros v' Hv'.
    eapply keeps_bind; [apply keeps_loadSchema, Hsc|]. intros s1 Hs1.
    destruct (Properties s1) as [m1|] eqn:Em1; [|apply keeps_fail].
    pose proof (above_Properties _ _ _ Hs1 Em1) as Hm1.
    eapply keeps_bind; [apply keeps_loadProperties, Hm1|]. intros entries1 He1.
    eapply keeps_bind; [apply keeps_store; [exact Hm1|]|].
    + unfold cell_above. simpl. apply Forall_flat_map.
      apply assocSet_above; assumption.
    + intros _ _. exact IH.
Qed.

Lemma populateNested_keeps n f p :
  call_keeps n f -> field_above n p -> keeps n (populateNested f p) (fun _ => True).
Proof.
  intros Hf Hp. unfold populateNested. destruct p as [a|]; [|apply keeps_ret; exact I].
  assert (Ha : n <= a) by (inversion Hp; assumption).
  eapply keeps_bind; [apply keeps_loadSchemaOr, Ha|]. intros q Hq.
  destruct q as [q|]; [|apply keeps_ret; exact I].
  apply Hf. inversion Hq. assumption.
Qed.

Lemma replaceIfRef_keeps n fuel schemaOf p :
  apart_lookup n schemaOf -> n <= p ->
  keeps n (replaceIfRef fuel schemaOf p) (fun _ => True).
Proof.
  intros Hl Hp. unfold replaceIfRef.
  eapply keeps_bind; [apply keeps_loadSchema, Hp|]. intros s Hs.
  eapply keeps_bind; [apply keeps_any_read|]. intros r _.
  destruct (snd r); [|apply keeps_ret; exact I].
  eapply keeps_bind; [apply Hl|]. intros found Hfound.
  destruct found as [q|]; [|apply keeps_fail].
  assert (Hq : n <= q) by (inversion Hfound; assumption).
  eapply keeps_bind; [apply keeps_loadSchema, Hq|]. intros rv Hrv.
  apply keeps_store; assumption.
Qed.

Lemma populateProperties_keeps n f p :
  call_keeps n f -> n <= p -> keeps n (populateProperties f p) (fun _ => True).
Proof.
  intros Hf Hp. unfold populateProperties.
  eapply keeps_bind; [apply keeps_loadSchema, Hp|]. intros s Hs.
  destruct (Properties s) as [m|] eqn:Em; [|apply keeps_ret; exact I].
  pose proof (above_Properties _ _ _ Hs Em) as Hm.
  eapply keeps_bind; [apply keeps_loadProperties, Hm|]. intros entries _.
  eapply keeps_bind; [apply keeps_alloc, above_zero|]. intros prop Hprop.
  apply rangeProperties_keeps; assumption.
Qed.

Lemma populateRefs_keeps n schemaOf :
  apart_lookup n schemaOf -> forall fuel, call_keeps n (populateRefs fuel schemaOf).
Proof.
  intros Hl. induction fuel as [|fuel IH]; intros p Hp; simpl.
  - apply keeps_diverge.
  - eapply keeps_bind; [apply replaceIfRef_keeps; assumption|]. intros _ _.
    eapply keeps_bind; [apply populateProperties_keeps; assumption|]. intros _ _.
    eapply keeps_bind; [apply keeps_loadSchema, Hp|]. intros s2 Hs2.
    eapply keeps_bind; [apply populateNested_keeps; [exact IH|]|].
    { destruct s2. apply above_fields in Hs2. apply Hs2. }
    intros _ _.
    eapply keeps_bind; [apply keeps_loadSchema, Hp|]. intros s3 Hs3.
    apply populateNested_keeps; [exact IH|].
    destruct s3. apply above_fields in Hs3. apply Hs3.
Qed.

Lemma schemaOf_apart n d : apart_lookup n (schemaOf d).
Proof.
  intros ref. unfold schemaOf.
  eapply keeps_bind; [apply keeps_any_read|]. intros entries _.
  destruct (assoc ref entries) as [def|]; [|apply keeps_ret, field_above_None].
  eapply keeps_bind; [apply keeps_try, deepCopy_keeps|]. intros copied Hc.
  destruct copied as [e|s].
  - apply keeps_ret, field_above_None.
  - apply keeps_ret, field_above_Some, Hc. reflexivity.
Qed.

Lemma ResolveSchema_keeps n d fuel gvk : keeps n (ResolveSchema d fuel gvk) (le n).
Proof.
  unfold ResolveSchema.
  eapply keeps_bind; [apply keeps_any_read|]. intros idx _.
  destruct (lookupGVK gvk idx) as [s|]; [|apply keeps_fail].
  eapply keeps_bind; [apply keeps_any_read|]. intros sv _.
  eapply keeps_bind; [apply keeps_try, deepCopy_keeps|]. intros copied Hc.
  destruct copied as [e|result]; [apply keeps_fail|].
  specialize (Hc result eq_refl).
  eapply keeps_bind; [apply populateRefs_keeps; [apply schemaOf_apart|exact Hc]|].
  intros _ _. apply keeps_ret, Hc.
Qed.

Lemma separate_from_length (h : heap) : separate_from (length h) h.
Proof.
  intros l c Hl Hc. apply lookup_lt_Some in Hc. lia.
Qed.

Lemma kept_length_appends (h h' : heap) : kept (length h) h h' -> exists ext, h' = h ++ ext.
Proof.
  intros (T & _ & _). exists (drop (length h) h'). rewrite firstn_all in T.
  rewrite <- T at 1. symmetry. apply take_drop.
Qed.

(** Whatever its outcome, a call of [ResolveSchema] leaves every object
    of the heap it was given as it was; a schema it returns sits in
    objects that the call has allocated, which hold no address of an
    older object. *)
Lemma ResolveSchema_appends d fuel gvk (h : heap) :
  (exists ext, fst (ResolveSchema d fuel gvk h) = h ++ ext)
  /\ separate_from (length h) (fst (ResolveSchema d fuel gvk h))
  /\ forall r, snd (ResolveSchema d fuel gvk h) = Ok r -> length h <= r.
Proof.
  destruct (ResolveSchema_keeps (length h) d fuel gvk h (le_n _)
              (separate_from_length h)) as [K Hr].
  split; [apply kept_length_appends, K|]. split; [apply K|exact Hr].
Qed.

Lemma reachable_above n (h : heap) l l' :
  separate_from n h -> n <= l -> reachable h l l' -> n <= l'.
Proof.
  intros Hs Hl Hr. induction Hr as [l|l c l1 l2 Hc Hin _ IH]; [exact Hl|].
  apply IH. specialize (Hs _ _ Hl Hc).
  rewrite Forall_forall in Hs. apply Hs, Hin.
Qed.

(** ** Runs on a heap and on the same heap with objects in between *)

Lemma shift_old n k l : l < n -> shift n k l = l.
Proof. unfold shift. intros H. apply Nat.ltb_lt in H. rewrite H. reflexivity. Qed.

Lemma shift_new n k l : n <= l -> shift n k l = l + k.
Proof. unfold shift. intros H. apply Nat.ltb_ge in H. rewrite H. reflexivity. Qed.

Lemma shift_inj n k l l' : shift n k l = shift n k l' -> l = l'.
Proof.
  unfold shift. destruct (Nat.ltb_spec l n), (Nat.ltb_spec l' n); lia.
Qed.

Lemma shift_opt_old n k (o : option loc) :
  Forall (fun p => p < n) (option_list o) -> option_map (shift n k) o = o.
Proof.
  destruct o as [l|]; [|reflexivity]. intros H. inversion H; subst.
  simpl. rewrite shift_old by assumption. reflexivity.
Qed.

Lemma shift_schema_old n k s :
  Forall (fun p => p < n) (schema_locs s) -> shift_schema n k s = s.
Proof.
  destruct s as [r d p a i al e]. unfold schema_locs, shift_schema. simpl.
  rewrite !Forall_app. intros (H1 & H2 & H3 & H4 & H5).
  rewrite !shift_opt_old by assumption. reflexivity.
Qed.

Lemma shift_entries_old {K} n k (m : list (K * Schema)) :
  Forall (fun p => p < n) (flat_map (fun kv => schema_locs (snd kv)) m) ->
  map (shift_entry n k) m = m.
Proof.
  intros H. apply Forall_flat_map in H.
  induction H as [|[key v] rest Hv _ IH]; [reflexivity|].
  simpl. unfold shift_entry at 1. simpl in *.
  rewrite shift_schema_old by assumption. rewrite IH. reflexivity.
Qed.

Lemma shift_cell_old n k c :
  Forall (fun p => p < n) (cell_locs c) -> shift_cell n k c = c.
Proof.
  destruct c as [s|m|p|l|m|m|m]; simpl; intros H.
  - rewrite shift_schema_old by assumption. reflexivity.
  - rewrite shift_entries_old by assumption. reflexivity.
  - rewrite shift_opt_old by assumption. reflexivity.
  - f_equal. apply Forall_flat_map in H.
    induction H as [|v rest Hv _ IH]; [reflexivity|].
    simpl. rewrite shift_schema_old by assumption. rewrite IH. reflexivity.
  - reflexivity.
  - rewrite shift_entries_old by assumption. reflexivity.
  - f_equal. induction m as [|[g p] rest IH]; [reflexivity|].
    simpl in *. inversion H; subst.
    rewrite shift_old by assumption. rewrite IH by assumption. reflexivity.
Qed.

Lemma moved_start (h extra : heap) :
  closed h -> moved (length h) (length extra) h (h ++ extra).
Proof.
  intros Hc. split; [lia|]. split; [apply length_app|].
  intros l. destruct (Nat.lt_ge_cases l (length h)) as [Hl|Hl].
  - rewrite shift_old by assumption. rewrite lookup_app_l by assumption.
    destruct (h !! l) as [c|] eqn:E; [|reflexivity].
    simpl. rewrite shift_cell_old; [reflexivity|]. exact (Hc _ _ E).
  - rewrite shift_new by assumption.
    rewrite (lookup_ge_None_2 h l) by assumption.
    apply lookup_ge_None_2. rewrite length_app. lia.
Qed.

Section Moved.
Variables n k : nat.

Local Abbreviation sh := (shift n k).
Local Abbreviation shs := (shift_schema n k).
Local Abbreviation shc := (shift_cell n k).

Lemma moved_lookup (h h2 : heap) l :
  moved n k h h2 -> h2 !! sh l = option_map shc (h !! l).
Proof. intros (_ & _ & H). apply H. Qed.

Lemma moved_next (h h2 : heap) : moved n k h h2 -> sh (length h) = length h2.
Proof. intros (Hn & Hl & _). rewrite shift_new by assumption. lia. Qed.

Lemma moved_alloc (h h2 : heap) c :
  moved n k h h2 -> moved n k (h ++ [c]) (h2 ++ [shc c]).
Proof.
  intros (Hn & Hl & H). split; [rewrite length_app; lia|].
  split; [rewrite !length_app; simpl; lia|].
  intros l. destruct (Nat.lt_ge_cases l (length h)) as [Hlt|Hge].
  - rewrite (lookup_app_l h) by assumption. rewrite <- H.
    apply lookup_app_l. unfold shift. destruct (Nat.ltb_spec l n); lia.
  - rewrite (lookup_app_r h) by assumption.
    rewrite shift_new by lia. rewrite lookup_app_r by lia.
    replace (l + k - length h2) with (l - length h) by lia.
    destruct (l - length h) as [|i]; [reflexivity|].
    simpl. reflexivity.
Qed.

Lemma moved_store (h h2 : heap) l c :
  moved n k h h2 -> moved n k (<[l := c]> h) (<[sh l := shc c]> h2).
Proof.
  intros (Hn & Hl & H). split; [rewrite length_insert; exact Hn|].
  split; [rewrite !length_insert; exact Hl|].
  intros l'. destruct (decide (l' = l)) as [->|Hne].
  - destruct (Nat.lt_ge_cases l (length h)) as [Hlt|Hge].
    + rewrite (list_lookup_insert_eq h) by assumption.
      rewrite (list_lookup_insert_eq h2); [reflexivity|].
      unfold shift. destruct (Nat.ltb_spec l n); lia.
    + rewrite (list_insert_ge h) by assumption.
      rewrite (list_insert_ge h2); [apply H|].
      unfold shift. destruct (Nat.ltb_spec l n); lia.
  - rewrite (list_lookup_insert_ne h) by congruence.
    rewrite (list_lookup_insert_ne h2); [apply H|].
    intros E. apply shift_inj in E. congruence.
Qed.

Lemma moved_schemaAt (h h2 : heap) p :
  moved n k h h2 ->
  schemaAt h2 (sh p) =
    match schemaAt h p with Ok s => Ok (shs s) | Err e => Err e | OutOfFuel => OutOfFuel end.
Proof.
  intros M. unfold schemaAt. rewrite (moved_lookup _ _ _ M).
  destruct (h !! p) as [[]|]; reflexivity.
Qed.

Lemma moved_schemaAt_Ok (h h2 : heap) p s :
  moved n k h h2 -> schemaAt h p = Ok s -> schemaAt h2 (sh p) = Ok (shs s).
Proof. intros M H. rewrite (moved_schemaAt _ _ _ M), H. reflexivity. Qed.

(** *** Rules for computations on moved heaps *)

Lemma moves_ret {A} (R : A -> A -> Prop) a a2 : R a a2 -> moves n k R (ret a) (ret a2).
Proof.
  intros HR h h2 a' M E. simpl in *. injection E as <-. eauto.
Qed.

Lemma moves_bind {A B} (R1 : A -> A -> Prop) (R2 : B -> B -> Prop)
    (m m2 : M A) (f f2 : A -> M B) :
  moves n k R1 m m2 -> (forall a a2, R1 a a2 -> moves n k R2 (f a) (f2 a2)) ->
  moves n k R2 (bindM m f) (bindM m2 f2).
Proof.
  intros Hm Hf h h2 b M E. unfold bindM in *.
  specialize (Hm h h2).
  destruct (m h) as [h1 [a|e|]]; simpl in *; try discriminate.
  destruct (Hm a M eq_refl) as (a2 & E2 & HR & M1).
  destruct (m2 h2) as [g1 r2]. simpl in *. subst r2.
  apply (Hf a a2 HR h1 g1 b M1 E).
Qed.

Lemma moves_read {A} (R : A -> A -> Prop) (f f2 : heap -> res A) :
  (forall h h2 a, moved n k h h2 -> f h = Ok a -> exists a2, f2 h2 = Ok a2 /\ R a a2) ->
  moves n k R (read f) (read f2).
Proof.
  intros H h h2 a M E. unfold read in *. simpl in *.
  destruct (H h h2 a M E) as (a2 & E2 & HR). eauto.
Qed.

Lemma moves_alloc c : moves n k (fun l l2 => l2 = sh l) (alloc c) (alloc (shc c)).
Proof.
  intros h h2 a M E. unfold alloc in *. simpl in *. injection E as <-.
  exists (length h2). split; [reflexivity|]. split.
  - symmetry. apply moved_next, M.
  - apply moved_alloc, M.
Qed.

Lemma moves_store l c : moves n k (fun _ _ => True) (store l c) (store (sh l) (shc c)).
Proof.
  intros h h2 a M E. unfold store in *. simpl in *.
  exists tt. split; [reflexivity|]. split; [exact I|]. apply moved_store, M.
Qed.

Lemma moves_loadSchema p :
  moves n k (fun s s2 => s2 = shs s) (loadSchema p) (loadSchema (sh p)).
Proof.
  apply moves_read. intros h h2 s M E. exists (shs s).
  split; [eapply moved_schemaAt_Ok; eauto|reflexivity].
Qed.

Lemma moves_loadProperties m :
  moves n k (fun e e2 => e2 = map (shift_entry n k) e)
    (loadProperties m) (loadProperties (sh m)).
Proof.
  apply moves_read. intros h h2 e M E. rewrite (moved_lookup _ _ _ M).
  destruct (h !! m) as [[| entries | | | | |]|]; try discriminate.
  injection E as <-. simpl. eauto.
Qed.

Lemma moves_loadSchemaOr a :
  moves n k (fun q q2 => q2 = option_map sh q) (loadSchemaOr a) (loadSchemaOr (sh a)).
Proof.
  apply moves_read. intros h h2 e M E. rewrite (moved_lookup _ _ _ M).
  destruct (h !! a) as [[| | q | | | |]|]; try discriminate.
  injection E as <-. simpl. eauto.
Qed.

Lemma moves_loadDefinitions d :
  d < n ->
  moves n k (fun e e2 => e2 = map (shift_entry n k) e)
    (loadDefinitions d) (loadDefinitions d).
Proof.
  intros Hd. apply moves_read. intros h h2 e M E.
  replace (h2 !! d) with (h2 !! sh d) by (rewrite shift_old by assumption; reflexivity).
  rewrite (moved_lookup _ _ _ M).
  destruct (h !! d) as [[| | | | | entries |]|]; try discriminate.
  injection E as <-. simpl. eauto.
Qed.

Lemma moves_loadIndex g :
  g < n ->
  moves n k (fun e e2 => e2 = map (fun kv => (fst kv, sh (snd kv))) e)
    (loadIndex g) (loadIndex g).
Proof.
  intros Hg. apply moves_read. intros h h2 e M E.
  replace (h2 !! g) with (h2 !! sh g) by (rewrite shift_old by assumption; reflexivity).
  rewrite (moved_lookup _ _ _ M).
  destruct (h !! g) as [[| | | | | | idx]|]; try discriminate.
  injection E as <-. simpl. eauto.
Qed.

(** *** The encoder reads the same document *)

Lemma marshalEntries_moved (f f2 : Schema -> res Value.Schema) m :
  (forall s, f2 (shs s) = f s) ->
  marshalEntries f2 (map (shift_entry n k) m) = marshalEntries f m.
Proof.
  intros Hf. induction m as [|[key v] rest IH]; [reflexivity|].
  simpl. rewrite Hf, IH. reflexivity.
Qed.

Lemma marshalElems_moved (f f2 : Schema -> res Value.Schema) l :
  (forall s, f2 (shs s) = f s) ->
  marshalElems f2 (map shs l) = marshalElems f l.
Proof.
  intros Hf. induction l as [|v rest IH]; [reflexivity|].
  simpl. rewrite Hf, IH. reflexivity.
Qed.

Lemma marshalNested_moved (f f2 : Schema -> res Value.Schema) (h h2 : heap) p :
  moved n k h h2 -> (forall s, f2 (shs s) = f s) ->
  marshalNested f2 h2 (option_map sh p) = marshalNested f h p.
Proof.
  intros M Hf. destruct p as [a|]; [|reflexivity]. simpl.
  rewrite (moved_lookup _ _ _ M).
  destruct (h !! a) as [[| |[q|]| | | |]|]; try reflexivity.
  simpl. rewrite (moved_schemaAt _ _ _ M).
  destruct (schemaAt h q); simpl; try reflexivity.
  rewrite Hf. reflexivity.
Qed.

Lemma marshal_moved (h h2 : heap) :
  moved n k h h2 -> forall fuel s, marshal fuel h2 (shs s) = marshal fuel h s.
Proof.
  intros M. induction fuel as [|fuel IH]; intros s; [reflexivity|].
  destruct s as [r d p a i al e]. cbn [marshal shift_schema Properties
    AdditionalProperties Items AllOf Extensions Ref Description].
  assert (Ep : marshalProperties (marshal fuel h2) h2 (option_map sh p)
               = marshalProperties (marshal fuel h) h p).
  { unfold marshalProperties. destruct p as [m|]; [|reflexivity]. simpl.
    rewrite (moved_lookup _ _ _ M).
    destruct (h !! m) as [[]|]; try reflexivity.
    simpl. apply marshalEntries_moved, IH. }
  assert (Eal : marshalAllOf (marshal fuel h2) h2 (option_map sh al)
                = marshalAllOf (marshal fuel h) h al).
  { unfold marshalAllOf. destruct al as [m|]; [|reflexivity]. simpl.
    rewrite (moved_lookup _ _ _ M).
    destruct (h !! m) as [[]|]; try reflexivity.
    simpl. apply marshalElems_moved, IH. }
  assert (Ee : marshalExtensions h2 (option_map sh e) = marshalExtensions h e).
  { unfold marshalExtensions. destruct e as [m|]; [|reflexivity]. simpl.
    rewrite (moved_lookup _ _ _ M).
    destruct (h !! m) as [[]|]; reflexivity. }
  rewrite Ep, Eal, Ee.
  rewrite (marshalNested_moved (marshal fuel h) (marshal fuel h2) h h2 a M IH).
  rewrite (marshalNested_moved (marshal fuel h) (marshal fuel h2) h h2 i M IH).
  reflexivity.
Qed.

(** *** More fuel does not change what the encoder returned *)

Lemma marshalEntries_Ok_ext (f g : Schema -> res Value.Schema) m ts :
  (forall s t, f s = Ok t -> g s = Ok t) ->
  marshalEntries f m = Ok ts -> marshalEntries g m = Ok ts.
Proof.
  intros Hfg. revert ts. induction m as [|[key v] rest IH]; simpl; intros ts H;
    [exact H|].
  apply bind_Ok in H as [t [Ht H]]. apply bind_Ok in H as [ts' [Hts H]].
  rewrite (Hfg _ _ Ht). simpl. rewrite (IH _ Hts). exact H.
Qed.

Lemma marshalElems_Ok_ext (f g : Schema -> res Value.Schema) m ts :
  (forall s t, f s = Ok t -> g s = Ok t) ->
  marshalElems f m = Ok ts -> marshalElems g m = Ok ts.
Proof.
  intros Hfg. revert ts. induction m as [|v rest IH]; simpl; intros ts H;
    [exact H|].
  apply bind_Ok in H as [t [Ht H]]. apply bind_Ok in H as [ts' [Hts H]].
  rewrite (Hfg _ _ Ht). simpl. rewrite (IH _ Hts). exact H.
Qed.

Lemma marshalNested_Ok_ext (f g : Schema -> res Value.Schema) (h : heap) p r :
  (forall s t, f s = Ok t -> g s = Ok t) ->
  marshalNested f h p = Ok r -> marshalNested g h p = Ok r.
Proof.
  intros Hfg. unfold marshalNested. destruct p as [a|]; [|auto].
  destruct (h !! a) as [[| |[q|]| | | |]|]; auto.
  intros H. apply bind_Ok in H as [s [Hs H]]. apply bind_Ok in H as [t [Ht H]].
  rewrite Hs. simpl. rewrite (Hfg _ _ Ht). exact H.
Qed.

Lemma marshalProperties_Ok_ext (f g : Schema -> res Value.Schema) (h : heap) p r :
  (forall s t, f s = Ok t -> g s = Ok t) ->
  marshalProperties f h p = Ok r -> marshalProperties g h p = Ok r.
Proof.
  intros Hfg. unfold marshalProperties. destruct p as [m|]; [|auto].
  destruct (h !! m) as [[]|]; auto. apply marshalEntries_Ok_ext, Hfg.
Qed.

Lemma marshalAllOf_Ok_ext (f g : Schema -> res Value.Schema) (h : heap) p r :
  (forall s t, f s = Ok t -> g s = Ok t) ->
  marshalAllOf f h p = Ok r -> marshalAllOf g h p = Ok r.
Proof.
  intros Hfg. unfold marshalAllOf. destruct p as [m|]; [|auto].
  destruct (h !! m) as [[]|]; auto. apply marshalElems_Ok_ext, Hfg.
Qed.

Lemma marshal_fuel_S (h : heap) : forall fuel s t,
  marshal fuel h s = Ok t -> marshal (S fuel) h s = Ok t.
Proof.
  induction fuel as [|fuel IH]; intros s t H; [discriminate|].
  remember (S fuel) as f1. rewrite Heqf1 in H. simpl in H. simpl.
  apply bind_Ok in H as [props [Hp H]].
  apply bind_Ok in H as [ap [Ha H]].
  apply bind_Ok in H as [items [Hi H]].
  apply bind_Ok in H as [allOf [Hal H]].
  apply bind_Ok in H as [ext [He H]].
  assert (IH' : forall s t, marshal fuel h s = Ok t -> marshal f1 h s = Ok t)
    by (subst f1; exact IH).
  rewrite (marshalProperties_Ok_ext _ _ _ _ _ IH' Hp). simpl.
  rewrite (marshalNested_Ok_ext _ _ _ _ _ IH' Ha). simpl.
  rewrite (marshalNested_Ok_ext _ _ _ _ _ IH' Hi). simpl.
  rewrite (marshalAllOf_Ok_ext _ _ _ _ _ IH' Hal). simpl.
  rewrite He. simpl. exact H.
Qed.

Lemma marshal_fuel_le (h : heap) fuel fuel' s t :
  fuel <= fuel' -> marshal fuel h s = Ok t -> marshal fuel' h s = Ok t.
Proof.
  induction 1 as [|f' _ IH]; intros H; [exact H|].
  apply marshal_fuel_S, IH, H.
Qed.

Lemma json_Marshal_Ok (h : heap) s t :
  json_Marshal h s = Ok t <-> marshal (S (length h)) h s = Ok t.
Proof. reflexivity. Qed.

Lemma json_Marshal_moved (h h2 : heap) s t :
  moved n k h h2 -> json_Marshal h s = Ok t -> json_Marshal h2 (shs s) = Ok t.
Proof.
  intros M H. apply json_Marshal_Ok in H. apply json_Marshal_Ok.
  rewrite (marshal_moved _ _ M).
  eapply marshal_fuel_le; [|exact H]. destruct M as (_ & -> & _). lia.
Qed.

(** *** The decoder builds the same objects at the moved addresses *)

Lemma decodeList_moves dec l :
  Forall (fun t => moves n k (fun s s2 => s2 = shs s) (dec t) (dec t)) l ->
  moves n k (fun m m2 => m2 = map shs m) (decodeList dec l) (decodeList dec l).
Proof.
  induction 1 as [|t l Ht _ IH]; simpl.
  - apply moves_ret. reflexivity.
  - eapply moves_bind; [exact Ht|]. intros s s2 ->.
    eapply moves_bind; [exact IH|]. intros m m2 ->.
    apply moves_ret. reflexivity.
Qed.

Lemma decodeEntries_moves dec l :
  Forall (fun kv => moves n k (fun s s2 => s2 = shs s) (dec (snd kv)) (dec (snd kv))) l ->
  moves n k (fun m m2 => m2 = map (shift_entry n k) m)
    (decodeEntries dec l) (decodeEntries dec l).
Proof.
  induction 1 as [|t l Ht _ IH]; simpl.
  - apply moves_ret. reflexivity.
  - eapply moves_bind; [exact Ht|]. intros s s2 ->.
    eapply moves_bind; [exact IH|]. intros m m2 ->.
    apply moves_ret. reflexivity.
Qed.

Lemma decodeProperties_moves dec props :
  Forall (fun kv => moves n k (fun s s2 => s2 = shs s) (dec (snd kv)) (dec (snd kv))) props ->
  moves n k (fun f f2 => f2 = option_map sh f)
    (decodeProperties dec props) (decodeProperties dec props).
Proof.
  intros Hd. unfold decodeProperties. destruct props as [|kv rest].
  - apply moves_ret. reflexivity.
  - eapply moves_bind; [apply decodeEntries_moves, Hd|]. intros m m2 ->.
    eapply moves_bind; [apply (moves_alloc (CProperties m))|]. intros p p2 ->.
    apply moves_ret. reflexivity.
Qed.

Lemma decodeAllOf_moves dec allOf :
  Forall (fun t => moves n k (fun s s2 => s2 = shs s) (dec t) (dec t)) allOf ->
  moves n k (fun f f2 => f2 = option_map sh f)
    (decodeAllOf dec allOf) (decodeAllOf dec allOf).
Proof.
  intros Hd. unfold decodeAllOf. destruct allOf as [|t rest].
  - apply moves_ret. reflexivity.
  - eapply moves_bind; [apply decodeList_moves, Hd|]. intros m m2 ->.
    eapply moves_bind; [apply (moves_alloc (CAllOf m))|]. intros p p2 ->.
    apply moves_ret. reflexivity.
Qed.

Lemma decodeNested_moves dec p :
  (forall t, p = Some (Some t) -> moves n k (fun s s2 => s2 = shs s) (dec t) (dec t)) ->
  moves n k (fun f f2 => f2 = option_map sh f)
    (decodeNested dec p) (decodeNested dec p).
Proof.
  intros Hd. unfold decodeNested. destruct p as [[t|]|].
  - eapply moves_bind; [apply (Hd t eq_refl)|]. intros s s2 ->.
    eapply moves_bind; [apply (moves_alloc (CSchema s))|]. intros q q2 ->.
    eapply moves_bind; [apply (moves_alloc (CSchemaOr (Some q)))|]. intros a a2 ->.
    apply moves_ret. reflexivity.
  - eapply moves_bind; [apply (moves_alloc (CSchemaOr None))|]. intros a a2 ->.
    apply moves_ret. reflexivity.
  - apply moves_ret. reflexivity.
Qed.

Lemma decodeItems_moves dec p :
  (forall t, p = Some (Some t) -> moves n k (fun s s2 => s2 = shs s) (dec t) (dec t)) ->
  moves n k (fun f f2 => f2 = option_map sh f)
    (decodeItems dec p) (decodeItems dec p).
Proof.
  intros Hd. unfold decodeItems. destruct p as [[t|]|].
  - eapply moves_bind; [apply (Hd t eq_refl)|]. intros s s2 ->.
    eapply moves_bind; [apply (moves_alloc (CSchema s))|]. intros q q2 ->.
    eapply moves_bind; [apply (moves_alloc (CSchemaOr (Some q)))|]. intros a a2 ->.
    apply moves_ret. reflexivity.
  - apply moves_ret. reflexivity.
  - apply moves_ret. reflexivity.
Qed.

Lemma decodeExtensions_moves ext :
  moves n k (fun f f2 => f2 = option_map sh f)
    (decodeExtensions ext) (decodeExtensions ext).
Proof.
  unfold decodeExtensions.
  destruct (List.filter (fun kv : string * any => isExtension (fst kv)) ext)
    as [|kv rest].
  - apply moves_ret. reflexivity.
  - eapply moves_bind; [apply (moves_alloc (CExtensions (kv :: rest)))|].
    intros a a2 ->. apply moves_ret. reflexivity.
Qed.

Lemma unmarshal_moves :
  forall t, moves n k (fun s s2 => s2 = shs s) (unmarshal t) (unmarshal t).
Proof.
  induction t as [r d props ap items allOf ext IHp IHa IHi IHall] using Schema_tree_ind.
  simpl.
  eapply moves_bind; [apply decodeProperties_moves, IHp|]. intros pf pf2 ->.
  eapply moves_bind; [apply decodeNested_moves, IHa|]. intros af af2 ->.
  eapply moves_bind; [apply decodeItems_moves, IHi|]. intros itf itf2 ->.
  eapply moves_bind; [apply decodeAllOf_moves, IHall|]. intros alf alf2 ->.
  eapply moves_bind; [apply decodeExtensions_moves|]. intros ef ef2 ->.
  apply moves_ret. reflexivity.
Qed.

Lemma deepCopy_moves sv :
  moves n k (fun r r2 => r2 = sh r) (deepCopy sv) (deepCopy (shs sv)).
Proof.
  unfold deepCopy.
  eapply (moves_bind eq).
  { apply moves_read. intros h h2 b M E. exists b.
    split; [eapply json_Marshal_moved; eauto|reflexivity]. }
  intros b b2 <-.
  eapply moves_bind; [apply (moves_alloc (CSchema zeroSchema))|]. intros r r2 ->.
  eapply moves_bind; [apply unmarshal_moves|]. intros rv rv2 ->.
  eapply moves_bind; [apply (moves_store r (CSchema rv))|]. intros _ _ _.
  apply moves_ret. reflexivity.
Qed.

(** *** The inliner takes the same steps *)

Lemma scanAllOf_moved (f f2 : Schema -> res (string * bool)) l :
  (forall s, f2 (shs s) = f s) ->
  scanAllOf f2 (map shs l) = scanAllOf f l.
Proof.
  intros Hf. induction l as [|v rest IH]; [reflexivity|].
  simpl. rewrite Hf, IH. reflexivity.
Qed.

Lemma refOf_moved (h h2 : heap) :
  moved n k h h2 -> forall fuel s, refOf fuel h2 (shs s) = refOf fuel h s.
Proof.
  intros M. induction fuel as [|fuel IH]; intros s; [reflexivity|].
  destruct s as [r d p a i al e]. simpl.
  destruct r; [reflexivity|]. destruct al as [m|]; [|reflexivity].
  simpl. rewrite (moved_lookup _ _ _ M).
  destruct (h !! m) as [[]|]; try reflexivity.
  simpl. apply scanAllOf_moved, IH.
Qed.

Lemma assoc_moved key (m : list (string * Schema)) :
  assoc key (map (shift_entry n k) m) = option_map shs (assoc key m).
Proof.
  induction m as [|[k0 v] rest IH]; [reflexivity|].
  simpl. destruct (String.eqb k0 key); [reflexivity|exact IH].
Qed.

Lemma assocSet_moved {K} (eqb : K -> K -> bool) key v (m : list (K * Schema)) :
  assocSet eqb key (shs v) (map (shift_entry n k) m)
  = map (shift_entry n k) (assocSet eqb key v m).
Proof.
  induction m as [|[k0 w] rest IH]; [reflexivity|].
  simpl. destruct (eqb k0 key); [reflexivity|].
  simpl. rewrite IH. reflexivity.
Qed.

Lemma map_fst_moved (m : list (string * Schema)) :
  map fst (map (shift_entry n k) m) = map fst m.
Proof. rewrite map_map. reflexivity. Qed.

Lemma rangeProperties_moves f f2 schema m prop :
  (forall p, moves n k (fun _ _ => True) (f p) (f2 (sh p))) ->
  forall names,
    moves n k (fun _ _ => True) (rangeProperties f schema m prop names)
      (rangeProperties f2 (sh schema) (sh m) (sh prop) names).
Proof.
  intros Hf. induction names as [|name rest IH]; simpl.
  - apply moves_ret. exact I.
  - eapply moves_bind; [apply moves_loadProperties|]. intros entries e2 ->.
    rewrite assoc_moved. destruct (assoc name entries) as [v|]; simpl; [|exact IH].
    eapply moves_bind; [apply (moves_store prop (CSchema v))|]. intros _ _ _.
    eapply moves_bind; [apply Hf|]. intros _ _ _.
    eapply moves_bind; [apply moves_loadSchema|]. intros v' v2 ->.
    eapply moves_bind; [apply moves_loadSchema|]. intros s1 s12 ->.
    destruct s1 as [r1 d1 p1 a1 i1 al1 e1]. simpl.
    destruct p1 as [m1|]; simpl; [|intros h h2 b M E; discriminate].
    eapply moves_bind; [apply moves_loadProperties|]. intros entries1 e2 ->.
    rewrite assocSet_moved.
    eapply moves_bind;
      [apply (moves_store m1 (CProperties (assocSet String.eqb name v' entries1)))|].
    intros _ _ _. exact IH.
Qed.

Lemma populateNested_moves f f2 p :
  (forall q, moves n k (fun _ _ => True) (f q) (f2 (sh q))) ->
  moves n k (fun _ _ => True) (populateNested f p) (populateNested f2 (option_map sh p)).
Proof.
  intros Hf. unfold populateNested. destruct p as [a|]; simpl; [|apply moves_ret; exact I].
  eapply moves_bind; [apply moves_loadSchemaOr|]. intros q q2 ->.
  destruct q as [q|]; simpl; [apply Hf|apply moves_ret; exact I].
Qed.

(** A lookup followed by the test of what it found. *)
Lemma moves_lookup {B} (R : B -> B -> Prop) schemaOf schemaOf2 ref e
    (f f2 : loc -> M B) :
  lookup_moves n k schemaOf schemaOf2 ->
  (forall q, moves n k R (f q) (f2 (sh q))) ->
  moves n k R
    (let! found := schemaOf ref in
     match found with None => fail e | Some q => f q end)
    (let! found := schemaOf2 ref in
     match found with None => fail e | Some q => f2 q end).
Proof.
  intros Hl Hf h h2 b M E. unfold bindM in *.
  specialize (Hl ref h h2).
  destruct (schemaOf ref h) as [h1 [[q|]|e1|]]; simpl in *; try discriminate.
  destruct (Hl q M eq_refl) as [E2 M1].
  destruct (schemaOf2 ref h2) as [g1 r2]. simpl in *. subst r2.
  apply (Hf q h1 g1 b M1 E).
Qed.

(** A call whose error the caller turns into an error of its own. *)
Lemma moves_try {A B} (R1 : A -> A -> Prop) (R : B -> B -> Prop) (m m2 : M A)
    (onErr onErr2 : error -> error) (f f2 : A -> M B) :
  moves n k R1 m m2 ->
  (forall a a2, R1 a a2 -> moves n k R (f a) (f2 a2)) ->
  moves n k R
    (let! c := try_ m in match c with inl e => fail (onErr e) | inr a => f a end)
    (let! c := try_ m2 in match c with inl e => fail (onErr2 e) | inr a => f2 a end).
Proof.
  intros Hm Hf h h2 b M E. unfold bindM, try_ in *.
  specialize (Hm h h2).
  destruct (m h) as [h1 [a|e1|]]; simpl in *; try discriminate.
  destruct (Hm a M eq_refl) as (a2 & E2 & HR & M1).
  destruct (m2 h2) as [g1 r2]. simpl in *. subst r2.
  apply (Hf a a2 HR h1 g1 b M1 E).
Qed.

Lemma replaceIfRef_moves fuel schemaOf schemaOf2 p :
  lookup_moves n k schemaOf schemaOf2 ->
  moves n k (fun _ _ => True)
    (replaceIfRef fuel schemaOf p) (replaceIfRef fuel schemaOf2 (sh p)).
Proof.
  intros Hl. unfold replaceIfRef.
  eapply moves_bind; [apply moves_loadSchema|]. intros s s2 ->.
  eapply (moves_bind eq).
  { apply moves_read. intros h h2 r M E. exists r.
    rewrite (refOf_moved _ _ M). auto. }
  intros r r2 <-. destruct (snd r); [|apply moves_ret; exact I].
  apply (moves_lookup _ _ _ _ _ _ _ Hl). intros q.
  eapply moves_bind; [apply moves_loadSchema|]. intros rv rv2 ->.
  apply (moves_store p (CSchema rv)).
Qed.

Lemma populateProperties_moves f f2 p :
  (forall q, moves n k (fun _ _ => True) (f q) (f2 (sh q))) ->
  moves n k (fun _ _ => True) (populateProperties f p) (populateProperties f2 (sh p)).
Proof.
  intros Hf. unfold populateProperties.
  eapply moves_bind; [apply moves_loadSchema|]. intros s s2 ->.
  destruct s as [r d pr a i al e]. simpl.
  destruct pr as [m|]; simpl; [|apply moves_ret; exact I].
  eapply moves_bind; [apply moves_loadProperties|]. intros entries e2 ->.
  eapply moves_bind; [apply (moves_alloc (CSchema zeroSchema))|]. intros prop p2 ->.
  rewrite map_fst_moved. apply rangeProperties_moves, Hf.
Qed.

Lemma populateRefs_moves schemaOf schemaOf2 :
  lookup_moves n k schemaOf schemaOf2 ->
  forall fuel p,
    moves n k (fun _ _ => True)
      (populateRefs fuel schemaOf p) (populateRefs fuel schemaOf2 (sh p)).
Proof.
  intros Hl. induction fuel as [|fuel IH]; intros p; simpl.
  - intros h h2 a M E. discriminate.
  - eapply moves_bind; [apply replaceIfRef_moves, Hl|]. intros _ _ _.
    eapply moves_bind; [apply populateProperties_moves, IH|]. intros _ _ _.
    eapply moves_bind; [apply moves_loadSchema|]. intros s2 s2' ->.
    eapply moves_bind.
    { replace (AdditionalProperties (shs s2))
        with (option_map sh (AdditionalProperties s2)) by (destruct s2; reflexivity).
      apply populateNested_moves, IH. }
    intros _ _ _.
    eapply moves_bind; [apply moves_loadSchema|]. intros s3 s3' ->.
    replace (Items (shs s3))
      with (option_map sh (Items s3)) by (destruct s3; reflexivity).
    apply populateNested_moves, IH.
Qed.

Lemma schemaOf_moves d : defs d < n -> lookup_moves n k (schemaOf d) (schemaOf d).
Proof.
  intros Hd ref h h2 q M E. unfold schemaOf, bindM, loadDefinitions, read in *.
  simpl in *.
  replace (h2 !! defs d) with (h2 !! sh (defs d))
    by (rewrite shift_old by assumption; reflexivity).
  rewrite (moved_lookup _ _ _ M).
  destruct (h !! defs d) as [[| | | | | entries |]|]; try discriminate.
  simpl. rewrite assoc_moved.
  destruct (assoc ref entries) as [def|]; simpl in *; [|discriminate].
  unfold try_ in *. pose proof (deepCopy_moves def h h2) as Hc.
  destruct (deepCopy def h) as [h1 [s|e|]]; simpl in *; try discriminate.
  injection E as ->.
  destruct (Hc q M eq_refl) as (a2 & E2 & -> & M1).
  destruct (deepCopy (shs def) h2) as [g1 r2]. simpl in *. subst r2.
  simpl. auto.
Qed.

Lemma lookupGVK_moved gvk (idx : list (GroupVersionKind * loc)) :
  lookupGVK gvk (map (fun kv => (fst kv, sh (snd kv))) idx)
  = option_map sh (lookupGVK gvk idx).
Proof.
  induction idx as [|[g p] rest IH]; [reflexivity|].
  simpl. destruct (gvk_eqb g gvk); [reflexivity|exact IH].
Qed.

Lemma ResolveSchema_moves d fuel gvk :
  defs d < n -> gvkToSchema d < n ->
  moves n k (fun r r2 => r2 = sh r) (ResolveSchema d fuel gvk) (ResolveSchema d fuel gvk).
Proof.
  intros Hd Hg. unfold ResolveSchema.
  eapply moves_bind; [apply moves_loadIndex, Hg|]. intros idx idx2 ->.
  rewrite lookupGVK_moved. destruct (lookupGVK gvk idx) as [s|]; simpl.
  2:{ intros h h2 a M E. discriminate. }
  eapply moves_bind; [apply moves_loadSchema|]. intros sv sv2 ->.
  apply (moves_try (fun r r2 => r2 = sh r)); [apply deepCopy_moves|].
  intros result r2 ->.
  eapply moves_bind; [apply populateRefs_moves, schemaOf_moves, Hd|]. intros _ _ _.
  apply moves_ret. reflexivity.
Qed.

End Moved.

(** ** Copy isolation *)

Lemma closed_Forall (h : heap) :
  Forall (fun c => Forall (fun p => p < length h) (cell_locs c)) h -> closed h.
Proof. intros H l c Hc. exact (Forall_lookup_1 _ _ _ _ H Hc). Qed.

Lemma prefix_split (h h' : heap) : take (length h) h' = h -> h' = h ++ drop (length h) h'.
Proof. intros H. rewrite <- H at 1. symmetry. apply take_drop. Qed.

(** C4. A call of the static resolver's [ResolveSchema] on a heap [h]
    that holds the definition table and the index (1) leaves every object
    of [h] as it was, whatever its outcome: the heap after the call is [h]
    followed by the objects the call allocated.  When the call returns a
    schema, (2) the schema lies in those new objects and reaches no object
    of [h], so (3) a heap that differs from the one after the call only at
    objects reachable from the result still begins with [h]; and (4) on
    any heap that begins with [h], whatever has been done to the objects
    after it, a call for the same GVK leaves that heap as it was and hands
    back an equal document. *)
Theorem ResolveSchema_copy_isolation :
  forall (d : DefinitionsSchemaResolver) (fuel : nat) (gvk : GroupVersionKind)
         (h : heap),
    closed h -> defs d < length h -> gvkToSchema d < length h ->
    (exists fresh, fst (ResolveSchema d fuel gvk h) = h ++ fresh)
    /\ forall r : loc, snd (ResolveSchema d fuel gvk h) = Ok r ->
       (forall l, reachable (fst (ResolveSchema d fuel gvk h)) r l -> length h <= l)
       /\ (forall h1' : heap,
             (forall l, ~ reachable (fst (ResolveSchema d fuel gvk h)) r l ->
                        h1' !! l = fst (ResolveSchema d fuel gvk h) !! l) ->
             take (length h) h1' = h)
       /\ (forall h1' : heap,
             take (length h) h1' = h ->
             (exists fresh2, fst (ResolveSchema d fuel gvk h1') = h1' ++ fresh2)
             /\ forall f, document f (ResolveSchema d fuel gvk h1')
                          = document f (ResolveSchema d fuel gvk h)).
Proof.
  intros d fuel gvk h Hc Hd Hg.
  destruct (ResolveSchema_appends d fuel gvk h) as ([fresh Hfresh] & Hs & Hlo).
  split; [eauto|]. intros r Hr.
  assert (Hreach : forall l, reachable (fst (ResolveSchema d fuel gvk h)) r l ->
                             length h <= l).
  { intros l. apply reachable_above; auto. }
  split; [exact Hreach|]. split.
  - intros h1' Hsame. apply list_eq. intros l.
    destruct (Nat.lt_ge_cases l (length h)) as [Hl|Hl].
    + rewrite lookup_take_lt by assumption. rewrite Hsame.
      * rewrite Hfresh. apply lookup_app_l, Hl.
      * intros Hrl. apply Hreach in Hrl. lia.
    + rewrite lookup_take_ge by assumption. symmetry. apply lookup_ge_None_2, Hl.
  - intros h1' Hpre.
    assert (exists later, h1' = h ++ later) as [later ->]
      by (eexists; apply prefix_split, Hpre).
    split; [apply ResolveSchema_appends|].
    pose proof (moved_start h later Hc) as M.
    destruct (ResolveSchema_moves _ _ d fuel gvk Hd Hg h (h ++ later) r M Hr)
      as (r2 & E2 & -> & M2).
    intros f. unfold document. rewrite E2, Hr. simpl.
    rewrite (moved_schemaAt _ _ _ _ _ M2).
    destruct (schemaAt (fst (ResolveSchema d fuel gvk h)) r) as [s1| |]; simpl;
      try reflexivity.
    apply (marshal_moved _ _ _ _ M2).
Qed.

(** ** Construction of the index *)

Lemma recordGVKs_spec g dp gvks : forall (h : heap) idx,
  g <> dp -> h !! g = Some (CIndex idx) -> Forall (fun kv => snd kv = dp) idx ->
  exists idx',
    snd (recordGVKs g dp gvks h) = Ok tt
    /\ fst (recordGVKs g dp gvks h) !! g = Some (CIndex idx')
    /\ Forall (fun kv => snd kv = dp) idx'
    /\ length (fst (recordGVKs g dp gvks h)) = length h
    /\ (forall l, l <> g -> fst (recordGVKs g dp gvks h) !! l = h !! l).
Proof.
  induction gvks as [|gvk rest IH]; intros h idx Hne Hg Hall; simpl.
  - exists idx. auto.
  - unfold bindM, loadIndex, read, store. simpl. rewrite Hg. simpl.
    assert (Hlt : g < length h) by (eapply lookup_lt_Some; eauto).
    destruct (IH (<[g := CIndex (assocSet gvk_eqb gvk dp idx)]> h)
                (assocSet gvk_eqb gvk dp idx) Hne)
      as (idx' & E & Hg' & Hall' & Hlen & Hoth).
    + apply list_lookup_insert_eq, Hlt.
    + clear - Hall. induction Hall as [|[k0 v] l Hv Hl IHl]; simpl.
      * constructor; [reflexivity|constructor].
      * destruct (gvk_eqb k0 gvk); constructor; auto.
    + exists idx'. rewrite length_insert in Hlen.
      repeat split; auto. intros l Hl. rewrite (Hoth l Hl).
      apply list_lookup_insert_ne. congruence.
Qed.

Lemma rangeDefs_spec namer g dp entries : forall (h : heap) idx,
  g <> dp -> dp < length h ->
  h !! g = Some (CIndex idx) -> Forall (fun kv => snd kv = dp) idx ->
  exists idx',
    snd (rangeDefs namer g dp entries h) = Ok tt
    /\ fst (rangeDefs namer g dp entries h) !! g = Some (CIndex idx')
    /\ Forall (fun kv => snd kv = dp) idx'
    /\ (forall l, l <> g -> l <> dp ->
          fst (rangeDefs namer g dp entries h) !! l = h !! l)
    /\ (forall init name schema, entries = init ++ [(name, schema)] ->
          fst (rangeDefs namer g dp entries h) !! dp = Some (CSchema schema)).
Proof.
  induction entries as [|[name schema] rest IH]; intros h idx Hne Hdp Hg Hall.
  - exists idx. simpl. repeat split; auto.
    intros init name schema E. destruct init; discriminate.
  - destruct (recordGVKs_spec g dp (extensionsToGVKs (namer name))
                (<[dp := CSchema schema]> h) idx Hne)
      as (idx1 & E1 & Hg1 & Hall1 & Hlen1 & Hoth1); [|exact Hall|].
    { rewrite list_lookup_insert_ne by congruence. exact Hg. }
    rewrite length_insert in Hlen1.
    destruct (recordGVKs g dp (extensionsToGVKs (namer name))
                (<[dp := CSchema schema]> h)) as [h1 r1] eqn:Er.
    simpl in *. subst r1.
    destruct (IH h1 idx1 Hne ltac:(lia) Hg1 Hall1)
      as (idx' & E & Hg' & Hall' & Hoth & Hlast).
    assert (Eq : (let! _ := store dp (CSchema schema) in
                  let! _ := recordGVKs g dp (extensionsToGVKs (namer name)) in
                  rangeDefs namer g dp rest) h = rangeDefs namer g dp rest h1).
    { unfold bindM, store. rewrite Er. reflexivity. }
    rewrite Eq. exists idx'. repeat split; auto.
    + intros l Hl1 Hl2. rewrite (Hoth l Hl1 Hl2), (Hoth1 l Hl1).
      apply list_lookup_insert_ne. congruence.
    + intros init name' schema' Ei. destruct rest as [|e rest'].
      * destruct init as [|i init]; [|destruct init; discriminate].
        injection Ei as <- <-. simpl.
        rewrite (Hoth1 dp) by congruence. apply list_lookup_insert_eq, Hdp.
      * destruct init as [|i init]; [discriminate|].
        injection Ei as _ Ei. eapply Hlast, Ei.
Qed.

(** Whatever the table, every entry of the index built by
    [NewDefinitionsSchemaResolver] holds one and the same address, that
    of the loop variable, which is left holding the schema of the entry
    iterated last. *)
Lemma index_shares_loop_variable namer dl (h : heap) entries :
  h !! dl = Some (CDefinitions entries) ->
  exists idx,
    snd (NewDefinitionsSchemaResolver namer dl h) = Ok (mkResolver dl (length h))
    /\ fst (NewDefinitionsSchemaResolver namer dl h) !! length h = Some (CIndex idx)
    /\ Forall (fun kv => snd kv = S (length h)) idx
    /\ (forall init name schema, entries = init ++ [(name, schema)] ->
          fst (NewDefinitionsSchemaResolver namer dl h) !! S (length h)
          = Some (CSchema schema)).
Proof.
  intros Hd.
  assert (Hdl : dl < length h) by (eapply lookup_lt_Some; eauto).
  destruct (rangeDefs_spec namer (length h) (S (length h)) entries
              ((h ++ [CIndex []]) ++ [CSchema zeroSchema]) [])
    as (idx' & E & Hg & Hall & _ & Hlast).
  - lia.
  - rewrite !length_app. simpl. lia.
  - rewrite <- app_assoc. rewrite lookup_app_r by lia.
    rewrite Nat.sub_diag. reflexivity.
  - constructor.
  - assert (Eq : NewDefinitionsSchemaResolver namer dl h
                 = (fst (rangeDefs namer (length h) (S (length h)) entries
                           ((h ++ [CIndex []]) ++ [CSchema zeroSchema])),
                    Ok (mkResolver dl (length h)))).
    { unfold NewDefinitionsSchemaResolver.
      unfold bindM at 1. unfold alloc at 1.
      unfold bindM at 1. unfold loadDefinitions, read.
      rewrite (lookup_app_l h [CIndex []] dl Hdl), Hd.
      unfold bindM at 1. unfold alloc at 1.
      replace (length (h ++ [CIndex []])) with (S (length h))
        by (rewrite length_app; simpl; lia).
      unfold bindM.
      destruct (rangeDefs namer (length h) (S (length h)) entries
                  ((h ++ [CIndex []]) ++ [CSchema zeroSchema])) as [h' r'].
      simpl in E. subst r'. reflexivity. }
    rewrite Eq. exists idx'. simpl. auto.
Qed.

(** C3 at a table of three entries iterated as Pod, PodSpec, Node: the
    index built by the code maps Pod and Node to the one address 4, where
    the schema of Node is left, and resolving Pod returns the document of
    Node; the index as the specification words it maps Pod to the schema
    of Pod. *)
Theorem index_maps_every_GVK_to_last_entry :
  NewDefinitionsSchemaResolver tableNamer 2 tableHeap =
    (tableHeap ++ [CIndex [(podGVK, 4); (nodeGVK, 4)]; CSchema nodeS],
     Ok (mkResolver 2 3))
  /\ specLookup podGVK (specIndex tableNamer tableEntries []) = Some podS
  /\ document 9 (buildAndResolve tableHeap 2 5 podGVK)
     = Ok (Value.mkSchema None "Node" [] None None [] []).
Proof. repeat split. Qed.

(** ** Failures of deepCopy *)

Lemma returns_value_bind {A B} (m : M A) (f : A -> M B) :
  (forall h, exists a, snd (m h) = Ok a) ->
  (forall a h, exists b, snd (f a h) = Ok b) ->
  forall h, exists b, snd (bindM m f h) = Ok b.
Proof.
  intros Hm Hf h. unfold bindM. destruct (Hm h) as [a Ea].
  destruct (m h) as [h1 r]. simpl in Ea. subst r. apply Hf.
Qed.

Lemma returns_value_ret {A} (a : A) (h : heap) : exists b, snd (ret a h) = Ok b.
Proof. exists a. reflexivity. Qed.

Lemma returns_value_alloc c (h : heap) : exists l, snd (alloc c h) = Ok l.
Proof. eexists. reflexivity. Qed.

Lemma decodeList_returns dec l :
  Forall (fun t => forall h, exists s, snd (dec t h) = Ok s) l ->
  forall h, exists m, snd (decodeList dec l h) = Ok m.
Proof.
  induction 1 as [|t l Ht _ IH]; simpl; [apply returns_value_ret|].
  apply returns_value_bind; [exact Ht|]. intros s.
  apply returns_value_bind; [exact IH|]. intros m. apply returns_value_ret.
Qed.

Lemma decodeEntries_returns dec l :
  Forall (fun kv => forall h, exists s, snd (dec (snd kv) h) = Ok s) l ->
  forall h, exists m, snd (decodeEntries dec l h) = Ok m.
Proof.
  induction 1 as [|t l Ht _ IH]; simpl; [apply returns_value_ret|].
  apply returns_value_bind; [exact Ht|]. intros s.
  apply returns_value_bind; [exact IH|]. intros m. apply returns_value_ret.
Qed.

(** The decoder returns a struct for every document. *)
Lemma unmarshal_returns : forall t h, exists s, snd (unmarshal t h) = Ok s.
Proof.
  induction t as [r d props ap items allOf ext IHp IHa IHi IHall] using Schema_tree_ind.
  simpl. apply returns_value_bind.
  { unfold decodeProperties. destruct props; [apply returns_value_ret|].
    apply returns_value_bind; [apply decodeEntries_returns, IHp|]. intros m.
    apply returns_value_bind; [apply returns_value_alloc|]. intros pl.
    apply returns_value_ret. }
  intros pf. apply returns_value_bind.
  { unfold decodeNested. destruct ap as [[t|]|]; [| |apply returns_value_ret].
    - apply returns_value_bind; [apply (IHa t eq_refl)|]. intros s.
      apply returns_value_bind; [apply returns_value_alloc|]. intros q.
      apply returns_value_bind; [apply returns_value_alloc|]. intros a.
      apply returns_value_ret.
    - apply returns_value_bind; [apply returns_value_alloc|]. intros a.
      apply returns_value_ret. }
  intros af. apply returns_value_bind.
  { unfold decodeItems. destruct items as [[t|]|]; [| |apply returns_value_ret].
    - apply returns_value_bind; [apply (IHi t eq_refl)|]. intros s.
      apply returns_value_bind; [apply returns_value_alloc|]. intros q.
      apply returns_value_bind; [apply returns_value_alloc|]. intros a.
      apply returns_value_ret.
    - apply returns_value_ret. }
  intros itf. apply returns_value_bind.
  { unfold decodeAllOf. destruct allOf; [apply returns_value_ret|].
    apply returns_value_bind; [apply decodeList_returns, IHall|]. intros m.
    apply returns_value_bind; [apply returns_value_alloc|]. intros pl.
    apply returns_value_ret. }
  intros alf. apply returns_value_bind.
  { unfold decodeExtensions.
    destruct (List.filter (fun kv : string * any => isExtension (fst kv)) ext);
      [apply returns_value_ret|].
    apply returns_value_bind; [apply returns_value_alloc|]. intros pl.
    apply returns_value_ret. }
  intros ef. apply returns_value_ret.
Qed.

(** [deepCopy] does what the encoder does: it returns the copy when the
    encoder returns a document, returns the encoder's error with the heap
    as it was, and does not return when the encoder does not. *)
Lemma deepCopy_outcome sv (h : heap) :
  match json_Marshal h sv with
  | Ok _ => exists r, snd (deepCopy sv h) = Ok r
  | Err e => deepCopy sv h = (h, Err e)
  | OutOfFuel => deepCopy sv h = (h, OutOfFuel)
  end.
Proof.
  destruct (json_Marshal h sv) as [b|e|] eqn:E.
  - unfold deepCopy, bindM at 1, read. rewrite E.
    apply returns_value_bind; [apply returns_value_alloc|]. intros result.
    apply returns_value_bind; [apply unmarshal_returns|]. intros rv.
    apply returns_value_bind; [intros h'; exists tt; reflexivity|]. intros _.
    apply returns_value_ret.
  - unfold deepCopy, bindM at 1, read. rewrite E. reflexivity.
  - unfold deepCopy, bindM at 1, read. rewrite E. reflexivity.
Qed.

(** C7 (as the code has it). When the copy of the indexed schema fails,
    [ResolveSchema] returns an error that carries the cause and does not
    wrap [ErrSchemaNotFound].  When the copy of a referenced definition
    fails inside the lookup closure, the closure answers as for a name
    that is not in the table, and [populateRefs] returns the error for a
    reference that cannot be resolved, which wraps [ErrSchemaNotFound]. *)
Theorem deepCopy_failure_reporting :
  forall (d : DefinitionsSchemaResolver) (h : heap),
    (forall fuel gvk idx s sv err h',
        h !! gvkToSchema d = Some (CIndex idx) -> lookupGVK gvk idx = Some s ->
        schemaAt h s = Ok sv -> deepCopy sv h = (h', Err err) ->
        ResolveSchema d fuel gvk h = (h', Err (cannotDeepCopy gvk err))
        /\ Is_ErrSchemaNotFound (cannotDeepCopy gvk err) = false)
    /\ (forall ref entries def err h',
          h !! defs d = Some (CDefinitions entries) -> assoc ref entries = Some def ->
          deepCopy def h = (h', Err err) ->
          schemaOf d ref h = (h', Ok None)
          /\ (forall fuel p s, schemaAt h p = Ok s -> refOf fuel h s = Ok (ref, true) ->
                populateRefs (S fuel) (schemaOf d) p h
                = (h', Err (cannotResolveRef ref)))
          /\ Is_ErrSchemaNotFound (cannotResolveRef ref) = true).
Proof.
  intros d h. split.
  - intros fuel gvk idx s sv err h' Hi Hl Hs Hc.
    unfold ResolveSchema, bindM, loadIndex, loadSchema, read, try_. simpl.
    rewrite Hi. simpl. rewrite Hl. simpl. rewrite Hs. simpl. rewrite Hc. auto.
  - intros ref entries def err h' Hd Ha Hc.
    assert (E : schemaOf d ref h = (h', Ok None)).
    { unfold schemaOf, bindM, loadDefinitions, read, try_. simpl.
      rewrite Hd. simpl. rewrite Ha. simpl. rewrite Hc. reflexivity. }
    split; [exact E|]. split; [|reflexivity].
    intros fuel p s Hs Hr. simpl.
    unfold bindM at 1. unfold replaceIfRef, bindM, loadSchema, read. simpl.
    rewrite Hs. simpl. rewrite Hr. simpl. rewrite E. reflexivity.
Qed.

(** C7 fails as stated: PodSpec is in the table, its copy fails because
    of an extension value that cannot be encoded, and resolving Pod
    returns the error for an unresolvable reference, of the not-found
    kind. *)
Lemma copy_failure_reported_as_not_found :
  snd (deepCopy (Store.mkSchema None "PodSpec" None None None None (Some 1))
         tableHeapUnencodable) = Err unsupportedType
  /\ snd (buildAndResolve tableHeapUnencodable 2 5 podGVK)
     = Err (cannotResolveRef "pkg.v1.PodSpec")
  /\ Is_ErrSchemaNotFound (cannotResolveRef "pkg.v1.PodSpec") = true.
Proof. repeat split. Qed.

End StoreFacts.
(* ================================================================== *)
(** * The encoder's bound on nesting *)

Module Encoder.
Import Store Walk.

Lemma bind_settled {A B} (x : res A) (k : A -> res B) :
  bind x k <> OutOfFuel -> x <> OutOfFuel.
Proof. intros H E. apply H. rewrite E. reflexivity. Qed.

(** ** A walk that returned returns the same with more levels *)

Lemma marshalElems_stable (f g : Schema -> res Value.Schema) l :
  (forall s, In s l -> f s <> OutOfFuel -> g s = f s) ->
  marshalElems f l <> OutOfFuel -> marshalElems g l = marshalElems f l.
Proof.
  induction l as [|v rest IH]; simpl; intros Hfg H; [reflexivity|].
  pose proof (Hfg v (or_introl eq_refl)) as Hv.
  destruct (f v) as [t|e|]; simpl in *.
  - rewrite Hv by discriminate. simpl.
    rewrite IH; [reflexivity|intros s Hs; apply Hfg; right; exact Hs|].
    eapply bind_settled, H.
  - rewrite Hv by discriminate. reflexivity.
  - contradiction H. reflexivity.
Qed.

Lemma marshalEntries_stable (f g : Schema -> res Value.Schema) m :
  (forall s, In s (map snd m) -> f s <> OutOfFuel -> g s = f s) ->
  marshalEntries f m <> OutOfFuel -> marshalEntries g m = marshalEntries f m.
Proof.
  induction m as [|[key v] rest IH]; simpl; intros Hfg H; [reflexivity|].
  pose proof (Hfg v (or_introl eq_refl)) as Hv.
  destruct (f v) as [t|e|]; simpl in *.
  - rewrite Hv by discriminate. simpl.
    rewrite IH; [reflexivity|intros s Hs; apply Hfg; right; exact Hs|].
    eapply bind_settled, H.
  - rewrite Hv by discriminate. reflexivity.
  - contradiction H. reflexivity.
Qed.

Lemma marshalNested_stable (f g : Schema -> res Value.Schema) (h : heap) p :
  (forall s, f s <> OutOfFuel -> g s = f s) ->
  marshalNested f h p <> OutOfFuel -> marshalNested g h p = marshalNested f h p.
Proof.
  intros Hfg. unfold marshalNested. destruct p as [a|]; [|reflexivity].
  destruct (h !! a) as [[| |[q|]| | | |]|]; try reflexivity.
  destruct (schemaAt h q) as [s|e|]; simpl; try reflexivity.
  intros H. rewrite Hfg; [reflexivity|]. eapply bind_settled, H.
Qed.

Lemma marshalProperties_stable (f g : Schema -> res Value.Schema) (h : heap) p :
  (forall s, f s <> OutOfFuel -> g s = f s) ->
  marshalProperties f h p <> OutOfFuel ->
  marshalProperties g h p = marshalProperties f h p.
Proof.
  intros Hfg. unfold marshalProperties. destruct p as [m|]; [|reflexivity].
  destruct (h !! m) as [[]|]; try reflexivity.
  apply marshalEntries_stable. intros s _. apply Hfg.
Qed.

Lemma marshalAllOf_stable (f g : Schema -> res Value.Schema) (h : heap) p :
  (forall s, f s <> OutOfFuel -> g s = f s) ->
  marshalAllOf f h p <> OutOfFuel -> marshalAllOf g h p = marshalAllOf f h p.
Proof.
  intros Hfg. unfold marshalAllOf. destruct p as [m|]; [|reflexivity].
  destruct (h !! m) as [[]|]; try reflexivity.
  apply marshalElems_stable. intros s _. apply Hfg.
Qed.

Lemma marshal_stable_S (h : heap) : forall f s,
  marshal f h s <> OutOfFuel -> marshal (S f) h s = marshal f h s.
Proof.
  induction f as [|f IH]; intros s H; [contradiction H; reflexivity|].
  remember (S f) as f1 eqn:Ef. rewrite Ef in H at 1. rewrite Ef at 2.
  assert (IH' : forall s, marshal f h s <> OutOfFuel -> marshal f1 h s = marshal f h s)
    by (subst f1; exact IH).
  clear IH Ef. cbn [marshal] in *.
  rewrite (marshalProperties_stable _ _ _ _ IH' (bind_settled _ _ H)).
  destruct (marshalProperties (marshal f h) h (Properties s)); simpl in *;
    try reflexivity.
  rewrite (marshalNested_stable _ _ _ _ IH' (bind_settled _ _ H)).
  destruct (marshalNested (marshal f h) h (AdditionalProperties s)); simpl in *;
    try reflexivity.
  rewrite (marshalNested_stable _ _ _ _ IH' (bind_settled _ _ H)).
  destruct (marshalNested (marshal f h) h (Items s)); simpl in *;
    try reflexivity.
  rewrite (marshalAllOf_stable _ _ _ _ IH' (bind_settled _ _ H)).
  reflexivity.
Qed.

Lemma marshal_stable_le (h : heap) f f' s :
  f <= f' -> marshal f h s <> OutOfFuel -> marshal f' h s = marshal f h s.
Proof.
  induction 1 as [|f' _ IH]; intros H; [reflexivity|].
  rewrite marshal_stable_S; rewrite IH; auto.
Qed.

Lemma walk_out (f : Schema -> res Value.Schema) cl :
  walk f cl = OutOfFuel <-> marshalElems f (structs_in cl) = OutOfFuel.
Proof.
  unfold walk. destruct (marshalElems f (structs_in cl)); simpl; split;
    intros H; try discriminate; reflexivity.
Qed.

Lemma walk_stable (h : heap) f f' cl :
  f <= f' -> walk (marshal f h) cl <> OutOfFuel ->
  walk (marshal f' h) cl <> OutOfFuel.
Proof.
  intros Hle H E. apply H. apply (proj2 (walk_out _ cl)).
  apply (proj1 (walk_out _ cl)) in E.
  rewrite <- E. symmetry. apply marshalElems_stable.
  - intros s _. apply marshal_stable_le, Hle.
  - intros E'. apply H. exact (proj2 (walk_out _ cl) E').
Qed.

Lemma ranked_unique (h : heap) r r' c : ranked h r c -> ranked h r' c -> r = r'.
Proof.
  assert (H : forall r r', r < r' -> ranked h r c -> ranked h r' c -> False).
  { intros a b Hlt (cl & Hc & Hs & _) (cl' & Hc' & _ & Ho).
    rewrite Hc in Hc'. injection Hc' as <-.
    apply (walk_stable h (S a) b cl); [lia|exact Hs|exact Ho]. }
  intros H1 H2. destruct (Nat.lt_trichotomy r r') as [Hlt|[E|Hlt]]; [|exact E|];
    exfalso; eauto.
Qed.

(** ** Where a walk that needs one level more goes down *)

Lemma marshalEntries_out (f : Schema -> res Value.Schema) m :
  marshalEntries f m = OutOfFuel <-> marshalElems f (map snd m) = OutOfFuel.
Proof.
  induction m as [|[key v] rest IH]; simpl; [split; discriminate|].
  destruct (f v) as [t|e|]; simpl; [|split; discriminate|split; reflexivity].
  destruct (marshalEntries f rest) eqn:E1, (marshalElems f (map snd rest)) eqn:E2;
    simpl; destruct IH as [I1 I2]; split; intros H;
    try discriminate; try reflexivity;
    try (discriminate (I1 eq_refl)); try (discriminate (I2 eq_refl)).
Qed.

Lemma marshalElems_descent (h : heap) j l :
  marshalElems (marshal j h) l = OutOfFuel ->
  marshalElems (marshal (S j) h) l <> OutOfFuel ->
  exists k, In k l /\ marshal (S j) h k <> OutOfFuel /\ marshal j h k = OutOfFuel.
Proof.
  pose proof (marshal_stable_S h j) as St.
  remember (S j) as j1 eqn:Ej. clear Ej.
  induction l as [|v rest IH]; cbn [marshalElems]; intros H1 H2; [discriminate|].
  destruct (marshal j h v) as [t|e|] eqn:Ev; cbn [bind] in H1.
  - rewrite (St v) in H2 by (rewrite Ev; discriminate).
    rewrite Ev in H2. cbn [bind] in H2.
    destruct IH as (k & Hk & Hs & Ho).
    + destruct (marshalElems (marshal j h) rest); cbn [bind] in H1;
        try discriminate; reflexivity.
    + eapply bind_settled, H2.
    + exists k. split; [right; exact Hk|auto].
  - discriminate.
  - exists v. split; [left; reflexivity|]. split; [|exact Ev].
    eapply bind_settled, H2.
Qed.

Lemma properties_descent (h : heap) j p :
  marshalProperties (marshal j h) h p = OutOfFuel ->
  marshalProperties (marshal (S j) h) h p <> OutOfFuel -> descends h j.
Proof.
  unfold marshalProperties. destruct p as [m|]; [|discriminate].
  destruct (h !! m) as [[|entries| | | | |]|] eqn:Em; try discriminate.
  intros H1 H2. apply marshalEntries_out in H1.
  assert (H2' : marshalElems (marshal (S j) h) (map snd entries) <> OutOfFuel).
  { intros E. apply H2, marshalEntries_out, E. }
  destruct (marshalElems_descent h j _ H1 H2') as (k & Hk & Hs & Ho).
  exists m, (CProperties entries), k. split; [exact Em|]. split; [exact Hk|].
  split; [|auto]. exists (CProperties entries). split; [exact Em|].
  split; [intros E; apply H2'; exact (proj1 (walk_out _ (CProperties entries)) E)
         |exact (proj2 (walk_out _ (CProperties entries)) H1)].
Qed.

Lemma allOf_descent (h : heap) j p :
  marshalAllOf (marshal j h) h p = OutOfFuel ->
  marshalAllOf (marshal (S j) h) h p <> OutOfFuel -> descends h j.
Proof.
  unfold marshalAllOf. destruct p as [m|]; [|discriminate].
  destruct (h !! m) as [[| | |elems| | |]|] eqn:Em; try discriminate.
  intros H1 H2.
  destruct (marshalElems_descent h j _ H1 H2) as (k & Hk & Hs & Ho).
  exists m, (CAllOf elems), k. split; [exact Em|]. split; [exact Hk|].
  split; [|auto]. exists (CAllOf elems). split; [exact Em|].
  split; [intros E; apply H2; exact (proj1 (walk_out _ (CAllOf elems)) E)
         |exact (proj2 (walk_out _ (CAllOf elems)) H1)].
Qed.

Lemma nested_descent (h : heap) j p :
  marshalNested (marshal j h) h p = OutOfFuel ->
  marshalNested (marshal (S j) h) h p <> OutOfFuel -> descends h j.
Proof.
  unfold marshalNested. destruct p as [a|]; [|discriminate].
  destruct (h !! a) as [[| |[q|]| | | |]|]; try discriminate.
  unfold schemaAt. destruct (h !! q) as [[s| | | | | |]|] eqn:Eq; try discriminate.
  cbn [bind]. intros H1 H2.
  assert (Ho : marshal j h s = OutOfFuel).
  { destruct (marshal j h s); cbn [bind] in H1; try discriminate; reflexivity. }
  assert (Hs : marshal (S j) h s <> OutOfFuel) by (eapply bind_settled, H2).
  exists q, (CSchema s), s. split; [exact Eq|]. split; [left; reflexivity|].
  split; [|auto]. exists (CSchema s). split; [exact Eq|].
  unfold walk. cbn [structs_in marshalElems]. split.
  - destruct (marshal (S j) h s); simpl; try discriminate. contradiction Hs. reflexivity.
  - rewrite Ho. reflexivity.
Qed.

Lemma marshalExtensions_settled (h : heap) p : marshalExtensions h p <> OutOfFuel.
Proof.
  unfold marshalExtensions, encodeExtensions. destruct p as [e|]; [|discriminate].
  destruct (h !! e) as [[| | | |m| |]|]; try discriminate.
  destruct (forallb _ _); discriminate.
Qed.

Lemma marshal_descent (h : heap) j s :
  marshal (S (S j)) h s <> OutOfFuel -> marshal (S j) h s = OutOfFuel ->
  descends h j.
Proof.
  remember (S j) as j1 eqn:Ej. intros H2 H1. rewrite Ej in H1.
  assert (St : forall s, marshal j h s <> OutOfFuel -> marshal j1 h s = marshal j h s)
    by (subst j1; apply marshal_stable_S).
  cbn [marshal] in H1, H2.
  destruct (marshalProperties (marshal j h) h (Properties s)) eqn:E1.
  2:{ discriminate. }
  2:{ subst j1. eapply properties_descent; [exact E1|]. eapply bind_settled, H2. }
  rewrite (marshalProperties_stable _ _ _ _ St) in H2 by (rewrite E1; discriminate).
  rewrite E1 in H2. simpl in H1, H2.
  destruct (marshalNested (marshal j h) h (AdditionalProperties s)) eqn:E2.
  2:{ discriminate. }
  2:{ subst j1. eapply nested_descent; [exact E2|]. eapply bind_settled, H2. }
  rewrite (marshalNested_stable _ _ _ _ St) in H2 by (rewrite E2; discriminate).
  rewrite E2 in H2. simpl in H1, H2.
  destruct (marshalNested (marshal j h) h (Items s)) eqn:E3.
  2:{ discriminate. }
  2:{ subst j1. eapply nested_descent; [exact E3|]. eapply bind_settled, H2. }
  rewrite (marshalNested_stable _ _ _ _ St) in H2 by (rewrite E3; discriminate).
  rewrite E3 in H2. simpl in H1, H2.
  destruct (marshalAllOf (marshal j h) h (AllOf s)) eqn:E4.
  2:{ discriminate. }
  2:{ subst j1. eapply allOf_descent; [exact E4|]. eapply bind_settled, H2. }
  simpl in H1. pose proof (marshalExtensions_settled h (Extensions s)) as He.
  destruct (marshalExtensions h (Extensions s)); try discriminate.
  contradiction He. reflexivity.
Qed.

(** A walk that needs [j + 2] levels goes through [j + 1] different
    objects, one below the other. *)
Lemma deep_chain (h : heap) : forall j s,
  marshal (S (S j)) h s <> OutOfFuel -> marshal (S j) h s = OutOfFuel ->
  exists L, length L = S j /\ NoDup L
            /\ Forall (fun c => exists r, r <= j /\ ranked h r c) L.
Proof.
  induction j as [|j IH]; intros s Hs Ho.
  - destruct (marshal_descent h 0 s Hs Ho) as (c & cl & k & Hc & Hk & Hr & _).
    exists [c]. split; [reflexivity|]. split; [apply NoDup_singleton|].
    constructor; [|constructor]. exists 0. split; [lia|exact Hr].
  - destruct (marshal_descent h (S j) s Hs Ho) as (c & cl & k & Hc & Hk & Hr & Hks & Hko).
    destruct (IH k Hks Hko) as (L & Hlen & Hnd & HL).
    exists (c :: L). split; [simpl; lia|]. split.
    + constructor; [|exact Hnd]. intros Hc'.
      rewrite Forall_forall in HL. destruct (HL c) as (r & Hle & Hr').
      { apply list_elem_of_In. exact Hc'. }
      pose proof (ranked_unique h _ _ c Hr Hr'). lia.
    + constructor; [exists (S j); split; [lia|exact Hr]|].
      eapply Forall_impl; [|exact HL]. intros c' (r & Hle & Hr'). exists r.
      split; [lia|exact Hr'].
Qed.

Lemma find_jump (P : nat -> bool) : forall d a,
  P a = false -> P (a + S d) = true ->
  exists j, a <= j /\ P j = false /\ P (S j) = true.
Proof.
  induction d as [|d IH]; intros a Ha Hd.
  - exists a. rewrite Nat.add_1_r in Hd. auto.
  - destruct (P (S a)) eqn:E.
    + exists a. auto.
    + destruct (IH (S a) E) as (j & Hj & H1 & H2).
      * replace (S a + S d) with (a + S (S d)) by lia. exact Hd.
      * exists j. split; [lia|auto].
Qed.

Lemma chain_fits (h : heap) (L : list loc) :
  NoDup L -> Forall (fun c => c < length h) L -> length L <= length h.
Proof.
  intros Hnd HL.
  assert (Hincl : incl L (seq 0 (length h))).
  { intros c Hc. apply in_seq. rewrite Forall_forall in HL.
    specialize (HL c Hc). lia. }
  apply NoDup_incl_length in Hincl.
  - rewrite length_seq in Hincl. exact Hincl.
  - apply NoDup_ListNoDup. exact Hnd.
Qed.

(** What the encoder returns with any allowance of nesting, a document
    or an error, it returns with one level more than there are objects
    in the heap: [json_Marshal] gives no return only where no allowance
    would give one. *)
Lemma marshal_settled_within (h : heap) f s :
  marshal f h s <> OutOfFuel -> json_Marshal h s = marshal f h s.
Proof.
  intros H. unfold json_Marshal.
  destruct (le_lt_dec f (S (length h))) as [Hle|Hlt].
  { apply marshal_stable_le; assumption. }
  destruct (marshal (S (length h)) h s) as [t|e|] eqn:Eb.
  { rewrite <- Eb. symmetry. apply marshal_stable_le; [lia|]. rewrite Eb. discriminate. }
  { rewrite <- Eb. symmetry. apply marshal_stable_le; [lia|]. rewrite Eb. discriminate. }
  exfalso.
  destruct (find_jump
              (fun j => match marshal j h s with OutOfFuel => false | _ => true end)
              (f - S (S (length h))) (S (length h))) as (j & Hj & H1 & H2).
  { rewrite Eb. reflexivity. }
  { replace (S (length h) + S (f - S (S (length h)))) with f by lia.
    destruct (marshal f h s); try reflexivity. contradiction H. reflexivity. }
  destruct j as [|j]; [lia|].
  destruct (deep_chain h j s) as (L & Hlen & Hnd & HL).
  { intros E. rewrite E in H2. discriminate. }
  { destruct (marshal (S j) h s); try discriminate; reflexivity. }
  pose proof (chain_fits h L Hnd) as Hfit.
  assert (Hb : Forall (fun c => c < length h) L).
  { eapply Forall_impl; [|exact HL]. intros c (r & _ & cl & Hcl & _).
    eapply lookup_lt_Some, Hcl. }
  specialize (Hfit Hb). lia.
Qed.

Lemma json_Marshal_never (h : heap) s :
  json_Marshal h s = OutOfFuel -> forall f, marshal f h s = OutOfFuel.
Proof.
  intros H f. destruct (marshal f h s) as [t|e|] eqn:E; [| |reflexivity].
  - rewrite (marshal_settled_within h f s) in H by (rewrite E; discriminate).
    congruence.
  - rewrite (marshal_settled_within h f s) in H by (rewrite E; discriminate).
    congruence.
Qed.

(** ** A walk that does not return runs round a cycle *)

Lemma reachable_trans (h : heap) l1 l2 l3 :
  reachable h l1 l2 -> reachable h l2 l3 -> reachable h l1 l3.
Proof.
  induction 1 as [l|l c l' l'' Hc Hin _ IH]; intros H; [exact H|].
  eapply reachable_step; eauto.
Qed.

Lemma structs_in_locs cl k l0 :
  In k (structs_in cl) -> In l0 (schema_locs k) -> In l0 (cell_locs cl).
Proof.
  destruct cl as [s|m|q|l|e|m|m]; simpl; try tauto.
  - intros [<-|[]] H. exact H.
  - intros Hk H. apply in_map_iff in Hk as [kv [<- Hkv]].
    apply in_flat_map. exists kv. auto.
  - intros Hk H. apply in_flat_map. exists k. auto.
Qed.

(** What is reached from a struct value held by an object is reached
    from the object in one step or more. *)
Lemma reaches_from_cell (h : heap) c cl k l :
  h !! c = Some cl -> In k (structs_in cl) -> reaches h k l ->
  exists l0, In l0 (cell_locs cl) /\ reachable h l0 l.
Proof.
  intros Hc Hk (l0 & Hl0 & Hr). exists l0. split; [|exact Hr].
  eapply structs_in_locs; eauto.
Qed.

Lemma reaches_below (h : heap) s c cl k l :
  reaches h s c -> h !! c = Some cl -> In k (structs_in cl) -> reaches h k l ->
  reaches h s l.
Proof.
  intros (l00 & Hl00 & Hr0) Hc Hk Hl.
  destruct (reaches_from_cell h c cl k l Hc Hk Hl) as (l0 & Hl0 & Hr).
  exists l00. split; [exact Hl00|]. eapply reachable_trans; [exact Hr0|].
  eapply reachable_step; eauto.
Qed.

Lemma marshalElems_out_In (f : Schema -> res Value.Schema) l :
  marshalElems f l = OutOfFuel -> exists k, In k l /\ f k = OutOfFuel.
Proof.
  induction l as [|v rest IH]; simpl; [discriminate|].
  destruct (f v) as [t|e|] eqn:Ev; simpl.
  - intros H. destruct IH as (k & Hk & Ho).
    + destruct (marshalElems f rest); simpl in H; try discriminate; reflexivity.
    + exists k. auto.
  - discriminate.
  - intros _. exists v. auto.
Qed.

(** A walk that does not return within [S n] levels goes one level down
    to a struct value whose walk does not return within [n]. *)
Lemma marshal_out_step (h : heap) n s :
  marshal (S n) h s = OutOfFuel ->
  exists c cl k, h !! c = Some cl /\ In k (structs_in cl) /\ reaches h s c
                 /\ marshal n h k = OutOfFuel.
Proof.
  cbn [marshal]. intros H.
  assert (Hn : forall p, In p (option_list (AdditionalProperties s)
                               ++ option_list (Items s)) ->
                 marshalNested (marshal n h) h (Some p) = OutOfFuel ->
                 exists c cl k, h !! c = Some cl /\ In k (structs_in cl)
                                /\ reaches h s c /\ marshal n h k = OutOfFuel).
  { intros a Ha. unfold marshalNested.
    destruct (h !! a) as [[| |[q|]| | | |]|] eqn:Ea; try discriminate.
    unfold schemaAt. destruct (h !! q) as [[s0| | | | | |]|] eqn:Eq; try discriminate.
    simpl. intros Ho. exists q, (CSchema s0), s0.
    split; [exact Eq|]. split; [left; reflexivity|]. split.
    - exists a. split.
      + unfold schema_locs. apply in_or_app. right.
        rewrite app_assoc. apply in_or_app. left. exact Ha.
      + eapply reachable_step; [exact Ea|left; reflexivity|apply reachable_here].
    - destruct (marshal n h s0); simpl in Ho; try discriminate; reflexivity. }
  destruct (marshalProperties (marshal n h) h (Properties s)) eqn:E1;
    simpl in H; [|discriminate|].
  2:{ unfold marshalProperties in E1. destruct (Properties s) as [m|] eqn:Ep;
        [|discriminate].
      destruct (h !! m) as [[|entries| | | | |]|] eqn:Em; try discriminate.
      apply marshalEntries_out, marshalElems_out_In in E1 as (k & Hk & Ho).
      exists m, (CProperties entries), k. split; [exact Em|]. split; [exact Hk|].
      split; [|exact Ho]. exists m. split; [|apply reachable_here].
      unfold schema_locs. rewrite Ep. left. reflexivity. }
  destruct (marshalNested (marshal n h) h (AdditionalProperties s)) eqn:E2;
    simpl in H; [|discriminate|].
  2:{ destruct (AdditionalProperties s) as [pa|] eqn:Ea; [|discriminate].
      apply (Hn pa); [|exact E2]. left. reflexivity. }
  destruct (marshalNested (marshal n h) h (Items s)) eqn:E3;
    simpl in H; [|discriminate|].
  2:{ destruct (Items s) as [pa|] eqn:Ea; [|discriminate].
      apply (Hn pa); [|exact E3]. apply in_or_app. right. left. reflexivity. }
  destruct (marshalAllOf (marshal n h) h (AllOf s)) eqn:E4;
    simpl in H; [|discriminate|].
  2:{ unfold marshalAllOf in E4. destruct (AllOf s) as [m|] eqn:Ep; [|discriminate].
      destruct (h !! m) as [[| | |elems| | |]|] eqn:Em; try discriminate.
      apply marshalElems_out_In in E4 as (k & Hk & Ho).
      exists m, (CAllOf elems), k. split; [exact Em|]. split; [exact Hk|].
      split; [|exact Ho]. exists m. split; [|apply reachable_here].
      unfold schema_locs. rewrite Ep.
      apply in_or_app. right. apply in_or_app. right. apply in_or_app. right.
      left. reflexivity. }
  pose proof (marshalExtensions_settled h (Extensions s)) as He.
  destruct (marshalExtensions h (Extensions s)); try discriminate.
  contradiction He. reflexivity.
Qed.

Lemma out_chain_or_cycle (h : heap) : forall n s,
  marshal (S n) h s = OutOfFuel ->
  (exists l, reaches h s l /\ on_cycle h l)
  \/ (exists L, length L = S n /\ NoDup L /\ Forall (under h s) L).
Proof.
  induction n as [|n IH]; intros s H;
    destruct (marshal_out_step h _ s H) as (c & cl & k & Hc & Hk & Hr & Ho).
  - right. exists [c]. split; [reflexivity|]. split; [apply NoDup_singleton|].
    constructor; [|constructor]. split; [eapply lookup_lt_Some, Hc|exact Hr].
  - destruct (IH k Ho) as [(l & Hl & Hcy)|(L & Hlen & Hnd & HL)].
    + left. exists l. split; [|exact Hcy]. eapply reaches_below; eauto.
    + destruct (in_dec Nat.eq_dec c L) as [Hin|Hnin].
      * left. exists c. split; [exact Hr|].
        rewrite Forall_forall in HL. destruct (HL c Hin) as [_ Hck].
        destruct (reaches_from_cell h c cl k c Hc Hk Hck) as (l0 & Hl0 & Hr0).
        exists cl, l0. auto.
      * right. exists (c :: L). split; [simpl; lia|]. split.
        { constructor; [|exact Hnd]. intros Hc'. apply Hnin.
          apply list_elem_of_In. exact Hc'. }
        constructor; [split; [eapply lookup_lt_Some, Hc|exact Hr]|].
        eapply Forall_impl; [|exact HL]. intros c' [Hlt Hc'].
        split; [exact Hlt|]. eapply reaches_below; eauto.
Qed.

(** If [json_Marshal] does not return, some object reached from the
    schema lies on a cycle of addresses. *)
Lemma json_Marshal_cycle (h : heap) s :
  json_Marshal h s = OutOfFuel -> exists l, reaches h s l /\ on_cycle h l.
Proof.
  intros H. destruct (out_chain_or_cycle h (length h) s H)
    as [Hc|(L & Hlen & Hnd & HL)]; [exact Hc|].
  exfalso. pose proof (chain_fits h L Hnd) as Hfit.
  assert (Hb : Forall (fun c => c < length h) L).
  { eapply Forall_impl; [|exact HL]. intros c [Hlt _]. exact Hlt. }
  specialize (Hfit Hb). lia.
Qed.

End Encoder.

(* ================================================================== *)
(** * Termination *)

(** Where every address held by an object is smaller than the address of
    the object, no object lies on a cycle. *)
Lemma decreasing_no_cycle (h : Store.heap) :
  (forall l c l', h !! l = Some c -> In l' (Store.cell_locs c) -> l' < l) ->
  forall l, ~ Store.on_cycle h l.
Proof.
  intros Hd.
  assert (Hle : forall a b, Store.reachable h a b -> b <= a).
  { induction 1 as [a|a c a1 a2 Hc Hin _ IH]; [lia|].
    specialize (Hd _ _ _ Hc Hin). lia. }
  intros l (c & l' & Hc & Hin & Hr).
  specialize (Hd _ _ _ Hc Hin). apply Hle in Hr. lia.
Qed.



(* ================================================================== *)
(** * The theorems at concrete inputs *)

Lemma closed_podLastHeap : Store.closed podLastHeap.
Proof.
  apply StoreFacts.closed_Forall. unfold podLastHeap, tableHeapPodLast.
  repeat constructor.
Qed.

Lemma ResolveSchema_copy_isolation_witness :
  (exists fresh, fst podLastResult = podLastHeap ++ fresh)
  /\ (exists fresh,
        fst (Store.ResolveSchema podLastResolver 5 nodeGVK podLastHeap)
        = podLastHeap ++ fresh)
  /\ Store.document 9 (Store.ResolveSchema podLastResolver 5 podGVK
                         (podLastHeap ++ [Store.CSchema Store.zeroSchema]))
     = Store.document 9 podLastResult.
Proof.
  assert (Hd : Store.defs podLastResolver < length podLastHeap) by (vm_compute; lia).
  assert (Hg : Store.gvkToSchema podLastResolver < length podLastHeap)
    by (vm_compute; lia).
  split; [|split].
  - exact (proj1 (StoreFacts.ResolveSchema_copy_isolation podLastResolver 5 podGVK
                    podLastHeap closed_podLastHeap Hd Hg)).
  - exact (proj1 (StoreFacts.ResolveSchema_copy_isolation podLastResolver 5 nodeGVK
                    podLastHeap closed_podLastHeap Hd Hg)).
  - destruct (StoreFacts.ResolveSchema_copy_isolation podLastResolver 5 podGVK
                podLastHeap closed_podLastHeap Hd Hg) as [_ H].
    assert (Hr : exists r, snd (Store.ResolveSchema podLastResolver 5 podGVK podLastHeap) = Ok r)
      by (eexists; vm_compute; reflexivity).
    destruct Hr as [r Hr]. destruct (H r Hr) as (_ & _ & H4).
    destruct (H4 (podLastHeap ++ [Store.CSchema Store.zeroSchema])) as [_ Hdoc].
    + apply take_app_length.
    + apply Hdoc.
Defined.

Lemma populateRefs_replaces_whole_node_witness :
  populateRefs 3 leafLookup describedDeep = populateRefs 3 leafLookup (refTo "B")
  /\ populateRefs 3 leafLookup (refTo "B")
     = populateChildren (populateRefs 2 leafLookup) (leaf "final").
Proof.
  refine (populateRefs_replaces_whole_node 2 leafLookup (refTo "B") describedDeep
            (mkSchema None "inner" [] None None [refTo "B"] [])
            [leaf "a note"] [] "B" eq_refl eq_refl eq_refl _ eq_refl).
  repeat constructor.
Defined.

Lemma deepCopy_failure_reporting_witness :
  Store.ResolveSchema (Store.mkResolver 2 3) 5 podGVK brokenHeap
    = (brokenHeap, Err (Store.cannotDeepCopy podGVK Store.unsupportedType))
  /\ Store.schemaOf (Store.mkResolver 2 3) "pkg.v1.PodSpec" brokenHeap
     = (brokenHeap, Ok None).
Proof.
  destruct (StoreFacts.deepCopy_failure_reporting (Store.mkResolver 2 3) brokenHeap)
    as [H1 H2].
  split.
  - exact (proj1 (H1 5 podGVK [(podGVK, 1)] 1 brokenSchema Store.unsupportedType
                    brokenHeap eq_refl eq_refl eq_refl eq_refl)).
  - exact (proj1 (H2 "pkg.v1.PodSpec" [("pkg.v1.PodSpec", brokenSchema)] brokenSchema
                    Store.unsupportedType brokenHeap eq_refl eq_refl eq_refl)).
Defined.

Lemma populateRefs_idempotent_on_inlined_witness :
  populateRefs 2 chainLookup holderInlined = Ok holderInlined
  /\ (let* s' := populateRefs 2 chainLookup holderInlined in
      populateRefs 2 chainLookup s')
     = populateRefs 2 chainLookup holderInlined.
Proof.
  refine (populateRefs_idempotent_on_inlined holderInlined chainLookup 2 eq_refl _).
  vm_compute. repeat constructor.
Defined.


Lemma discoverySchemaOf_prefix_witness :
  discoverySchemaOf danglingDoc "#/components/schemas/io.k8s.api.core.v1.Pod"
    = assoc "io.k8s.api.core.v1.Pod" (Schemas danglingDoc)
  /\ discoverySchemaOf danglingDoc "io.k8s.api.core.v1.Pod"
     = assoc "io.k8s.api.core.v1.Pod" (Schemas danglingDoc).
Proof.
  split.
  - exact (proj1 (proj2 (discoverySchemaOf_prefix danglingDoc
                           "#/components/schemas/io.k8s.api.core.v1.Pod"))
             "io.k8s.api.core.v1.Pod" eq_refl).
  - refine (proj2 (proj2 (proj2 (discoverySchemaOf_prefix danglingDoc
                                   "io.k8s.api.core.v1.Pod")) _)).
    intros name E. discriminate.
Defined.

(* ================================================================== *)
(** * Further properties of the value layer *)

(** ** The reference unwrapper *)

(** X1. [refOf] gives the node's own reference when it has one; else the
    reference of the first member of its allOf list that has one, by the
    same rule, in the order of the list; else the empty string and
    [false].  A [false] answer always comes with the empty string. *)
Theorem refOf_first_reference :
  forall s : Schema,
    (forall u, Ref s = Some u -> refOf s = (u, true))
    /\ (forall pre a post, Ref s = None -> AllOf s = pre ++ a :: post ->
          Forall (fun x => snd (refOf x) = false) pre -> snd (refOf a) = true ->
          refOf s = refOf a)
    /\ (Ref s = None -> Forall (fun x => snd (refOf x) = false) (AllOf s) ->
          refOf s = (EmptyString, false))
    /\ (snd (refOf s) = false -> fst (refOf s) = EmptyString).
Proof.
  intros s. split; [intros u; apply refOf_own_ref|].
  destruct s as [r d props ap items allOf ext]. cbn [Ref AllOf]. repeat split.
  - intros pre a post -> -> Hpre Ha. simpl.
    induction Hpre as [|x pre Hx _ IH]; simpl.
    + destruct (refOf a) as [ra b]. simpl in Ha. subst b. reflexivity.
    + destruct (refOf x) as [rx b]. simpl in Hx. subst b. exact IH.
  - intros -> Hall. simpl.
    induction Hall as [|x l Hx _ IH]; simpl; [reflexivity|].
    destruct (refOf x) as [rx b]. simpl in Hx. subst b. exact IH.
  - simpl. destruct r as [u|]; [discriminate|].
    induction allOf as [|x l IH]; simpl; [reflexivity|].
    destruct (refOf x) as [rx [|]]; [discriminate|]. exact IH.
Qed.

Lemma refOf_first_reference_witness :
  refOf described = refOf (refTo "B")
  /\ refOf (leaf "final") = (EmptyString, false).
Proof.
  split.
  - exact (proj1 (proj2 (refOf_first_reference described))
             [] (refTo "B") [] eq_refl eq_refl (Forall_nil _) eq_refl).
  - exact (proj1 (proj2 (proj2 (refOf_first_reference (leaf "final"))))
             eq_refl (Forall_nil _)).
Defined.

(** ** What the inliner leaves alone *)

Lemma rangeProperties_names f props props' :
  rangeProperties f props = Ok props' -> map fst props' = map fst props.
Proof.
  revert props'. induction props as [|[k v] rest IH]; simpl; intros props' H.
  - injection H as <-. reflexivity.
  - apply bind_Ok in H as [v' [_ H]]. apply bind_Ok in H as [rest' [Hr H]].
    injection H as <-. simpl. f_equal. apply IH, Hr.
Qed.

Lemma populateNested_outline f p p' :
  populateNested f p = Ok p' -> outline p' = outline p.
Proof.
  destruct p as [[s|]|]; simpl; intros H.
  - apply bind_Ok in H as [s' [_ H]]. injection H as <-. reflexivity.
  - injection H as <-. reflexivity.
  - injection H as <-. reflexivity.
Qed.



(** ** Which references the inliner looks up *)

Lemma written_from_child schemaOf s c ref :
  In c (children s) -> written_from schemaOf c ref -> written_from schemaOf s ref.
Proof.
  intros Hc (r0 & Hr0 & Hp). exists r0. split; [|exact Hp].
  eapply mentions_child; eauto.
Qed.

Lemma written_from_target schemaOf s r t ref :
  refOf s = (r, true) -> schemaOf r = Some t ->
  written_from schemaOf t ref -> written_from schemaOf s ref.
Proof.
  intros Hr Ht (r0 & Hr0 & Hp). exists r. split; [apply refOf_mentions, Hr|].
  eapply Relation_Operators.rt_trans; [|exact Hp].
  apply Relation_Operators.rt_step. exists t. auto.
Qed.

Lemma written_from_own schemaOf s r :
  refOf s = (r, true) -> written_from schemaOf s r.
Proof.
  intros Hr. exists r. split; [apply refOf_mentions, Hr|].
  apply Relation_Operators.rt_refl.
Qed.

Lemma written_from_base schemaOf s base ref :
  replaceIfRef schemaOf s = Ok base ->
  written_from schemaOf base ref -> written_from schemaOf s ref.
Proof.
  intros H Hw. apply replaceIfRef_Ok in H as [[_ ->]|[r [Hr Ht]]]; [exact Hw|].
  eapply written_from_target; eauto.
Qed.

(** X3. An error of [populateRefs] names a reference that the lookup
    function does not know and that the run has met: it is written in
    the node, or in the target of a reference written in the node, and so
    on along targets.  The error wraps [ErrSchemaNotFound]. *)
Theorem populateRefs_error_names_met_reference :
  forall (schemaOf : string -> option Schema) (fuel : nat) (s : Schema) (e : error),
    populateRefs fuel schemaOf s = Err e ->
    exists ref, e = cannotResolveRef ref /\ schemaOf ref = None
                /\ written_from schemaOf s ref
                /\ Is_ErrSchemaNotFound e = true.
Proof.
  intros schemaOf. induction fuel as [|fuel IH]; intros s e H; [discriminate|].
  simpl in H. apply bind_Err in H as [H|[s1 [H1 H]]].
  - unfold replaceIfRef in H. destruct (refOf s) as [ref [|]] eqn:Er; [|discriminate].
    destruct (schemaOf ref) eqn:E; [discriminate|].
    injection H as <-. exists ref. repeat split; auto.
    apply written_from_own, Er.
  - apply populateChildren_Err in H as [c [Hc Hf]].
    destruct (IH _ _ Hf) as (ref & -> & Hn & Hw & Hi).
    exists ref. repeat split; auto.
    eapply written_from_base; [exact H1|].
    eapply written_from_child; eauto.
Qed.

Lemma populateRefs_error_names_met_reference_witness :
  exists ref,
    cannotResolveRef "C" = cannotResolveRef ref /\ leafLookup ref = None
    /\ written_from leafLookup
         (mkSchema None EmptyString [("a", refTo "B"); ("b", refTo "C")] None None [] [])
         ref.
Proof.
  destruct (populateRefs_error_names_met_reference leafLookup 3
              (mkSchema None EmptyString [("a", refTo "B"); ("b", refTo "C")]
                 None None [] [])
              (cannotResolveRef "C") eq_refl) as (ref & H1 & H2 & H3 & _).
  exists ref. auto.
Defined.

Lemma rangeProperties_ext_In (f g : Schema -> res Schema) props :
  (forall c, In c (map snd props) -> g c = f c) ->
  rangeProperties g props = rangeProperties f props.
Proof.
  induction props as [|[k v] rest IH]; simpl; intros H; [reflexivity|].
  rewrite (H v) by auto. rewrite IH by auto. reflexivity.
Qed.

Lemma populateChildren_ext_In (f g : Schema -> res Schema) s :
  (forall c, In c (children s) -> g c = f c) ->
  populateChildren g s = populateChildren f s.
Proof.
  intros H. unfold populateChildren, children in *.
  rewrite (rangeProperties_ext_In f g) by (intros c Hc; apply H, in_or_app; auto).
  assert (Ha : populateNested g (AdditionalProperties s)
               = populateNested f (AdditionalProperties s)).
  { destruct (AdditionalProperties s) as [[a|]|]; simpl; try reflexivity.
    rewrite H; [reflexivity|]. apply in_or_app. right. left. reflexivity. }
  assert (Hi : populateNested g (Items s) = populateNested f (Items s)).
  { destruct (Items s) as [[a|]|]; simpl; try reflexivity.
    rewrite H; [reflexivity|]. apply in_or_app. right.
    apply in_or_app. right. left. reflexivity. }
  rewrite Ha, Hi. reflexivity.
Qed.

(** X4. The run consults the lookup function only for references
    written in the node or reached from it along targets: two lookup
    functions that agree on those give the same outcome. *)
Theorem populateRefs_lookup_local :
  forall (schemaOf schemaOf' : string -> option Schema) (fuel : nat) (s : Schema),
    (forall ref, written_from schemaOf s ref -> schemaOf' ref = schemaOf ref) ->
    populateRefs fuel schemaOf' s = populateRefs fuel schemaOf s.
Proof.
  intros schemaOf schemaOf'. induction fuel as [|fuel IH]; intros s H; [reflexivity|].
  simpl.
  assert (E : replaceIfRef schemaOf' s = replaceIfRef schemaOf s).
  { unfold replaceIfRef. destruct (refOf s) as [ref [|]] eqn:Er; [|reflexivity].
    rewrite H by (apply written_from_own, Er). reflexivity. }
  rewrite E. destruct (replaceIfRef schemaOf s) as [base| |] eqn:Eb; try reflexivity.
  simpl. apply populateChildren_ext_In. intros c Hc. apply IH.
  intros ref Hw. apply H. eapply written_from_base; [exact Eb|].
  eapply written_from_child; eauto.
Qed.

Lemma populateRefs_lookup_local_witness :
  populateRefs 3 chainLookup holder = populateRefs 3 leafLookup holder.
Proof.
  apply (populateRefs_lookup_local leafLookup chainLookup 3 holder).
  intros ref (r0 & Hr0 & Hp).
  assert (Hb : forall a b,
             Relation_Operators.clos_refl_trans string
               (fun a b => points_to leafLookup b a) a b -> a = "B" -> b = "B").
  { intros a b Hab. induction Hab as [a b (t & Ht & Hin)| |a b c _ IH1 _ IH2]; auto.
    intros ->. unfold leafLookup in Ht. simpl in Ht. injection Ht as <-.
    destruct Hin. }
  simpl in Hr0. destruct Hr0 as [<-|[]].
  rewrite (Hb _ _ Hp eq_refl). reflexivity.
Defined.

(** ** Running the inliner again *)

Lemma rangeProperties_fixed f g props props' :
  rangeProperties f props = Ok props' ->
  (forall c c', In c (map snd props) -> f c = Ok c' -> g c' = Ok c') ->
  rangeProperties g props' = Ok props'.
Proof.
  revert props'. induction props as [|[k v] rest IH]; simpl; intros props' H Hg.
  - injection H as <-. reflexivity.
  - apply bind_Ok in H as [v' [Hv H]]. apply bind_Ok in H as [rest' [Hr H]].
    injection H as <-. simpl. rewrite (Hg v v') by auto. simpl.
    rewrite (IH rest' Hr) by (intros c c' Hc; apply Hg; right; exact Hc).
    reflexivity.
Qed.

Lemma populateNested_fixed f g p p' :
  populateNested f p = Ok p' ->
  (forall c c', p = Some (Some c) -> f c = Ok c' -> g c' = Ok c') ->
  populateNested g p' = Ok p'.
Proof.
  destruct p as [[c|]|]; simpl; intros H Hg.
  - apply bind_Ok in H as [c' [Hc H]]. injection H as <-. simpl.
    rewrite (Hg c c') by auto. reflexivity.
  - injection H as <-. reflexivity.
  - injection H as <-. reflexivity.
Qed.

(** X5. When no looked-up target is itself a reference, a second run on
    the result of a successful run changes nothing: with the same lookup
    function and the same allowance of nested calls it returns the tree
    it was given. *)
Theorem populateRefs_second_run :
  forall (schemaOf : string -> option Schema),
    (forall r t, schemaOf r = Some t -> snd (refOf t) = false) ->
    forall (fuel : nat) (s s' : Schema),
      populateRefs fuel schemaOf s = Ok s' ->
      populateRefs fuel schemaOf s' = Ok s'.
Proof.
  intros schemaOf Htargets. induction fuel as [|fuel IH]; intros s s' H; [discriminate|].
  apply populateRefs_Ok_inv in H as [base [H1 H2]].
  assert (Hbase : snd (refOf base) = false).
  { apply replaceIfRef_Ok in H1 as [[Hp ->]|[ref [_ Ht]]]; [exact Hp|].
    eapply Htargets, Ht. }
  pose proof (populateChildren_keeps _ _ _ H2) as (Hr & Hal & Hd & He & Href & Hp & Ha & Hi).
  simpl. rewrite replaceIfRef_plain by (rewrite Href; exact Hbase). simpl.
  unfold populateChildren.
  rewrite (rangeProperties_fixed _ (populateRefs fuel schemaOf) _ _ Hp)
    by (intros c c' _ Hc; eapply IH, Hc).
  simpl.
  rewrite (populateNested_fixed _ (populateRefs fuel schemaOf) _ _ Ha)
    by (intros c c' _ Hc; eapply IH, Hc).
  simpl.
  rewrite (populateNested_fixed _ (populateRefs fuel schemaOf) _ _ Hi)
    by (intros c c' _ Hc; eapply IH, Hc).
  simpl. destruct s'; reflexivity.
Qed.

Lemma populateRefs_second_run_witness :
  populateRefs 3 leafLookup holderInlined = Ok holderInlined.
Proof.
  refine (populateRefs_second_run leafLookup _ 3 holder holderInlined eq_refl).
  intros r t. unfold leafLookup. destruct (String.eqb r "B"); [|discriminate].
  intros E. injection E as <-. reflexivity.
Defined.

(* ================================================================== *)
(** * Further properties of the discovery resolver *)

(** ** resolveType *)

Lemma gvk_eqb_eq (a b : GroupVersionKind) : gvk_eqb a b = true <-> a = b.
Proof.
  unfold gvk_eqb. destruct a as [g v k], b as [g' v' k']. simpl.
  rewrite !Bool.andb_true_iff, !String.eqb_eq. split.
  - intros [[-> ->] ->]. reflexivity.
  - intros E. injection E as -> -> ->. auto.
Qed.

Lemma existsb_gvk (gvk : GroupVersionKind) (l : list GroupVersionKind) :
  existsb (fun g => gvk_eqb g gvk) l = true <-> In gvk l.
Proof.
  rewrite existsb_exists. split.
  - intros [g [Hin Hg]]. apply gvk_eqb_eq in Hg. subst. exact Hin.
  - intros Hin. exists gvk. split; [exact Hin|]. apply gvk_eqb_eq. reflexivity.
Qed.

Lemma resolveTypeLoop_outcome GetObject gvk : forall schemas,
  match resolveTypeLoop GetObject schemas gvk with
  | Ok s =>
      exists pre name post gvks,
        schemas = pre ++ (name, s) :: post
        /\ Forall (passes_over GetObject gvk) pre
        /\ GetObject (Extensions s) extGVK = Ok gvks /\ In gvk gvks
  | Err e =>
      (e = cannotResolveGVK gvk /\ Forall (passes_over GetObject gvk) schemas)
      \/ (exists pre name s post,
            schemas = pre ++ (name, s) :: post
            /\ Forall (passes_over GetObject gvk) pre
            /\ GetObject (Extensions s) extGVK = Err e)
  | OutOfFuel =>
      exists pre name s post,
        schemas = pre ++ (name, s) :: post
        /\ Forall (passes_over GetObject gvk) pre
        /\ GetObject (Extensions s) extGVK = OutOfFuel
  end.
Proof.
  induction schemas as [|[name s] rest IH]; simpl.
  - left. split; [reflexivity|constructor].
  - destruct (GetObject (Extensions s) extGVK) as [gvks|e|] eqn:Eg; simpl.
    + destruct (existsb (fun g => gvk_eqb g gvk) gvks) eqn:Ex.
      * exists [], name, rest, gvks. repeat split; auto.
        apply existsb_gvk, Ex.
      * assert (Hp : passes_over GetObject gvk (name, s)).
        { exists gvks. split; [exact Eg|]. intros Hin.
          apply existsb_gvk in Hin. congruence. }
        destruct (resolveTypeLoop GetObject rest gvk) as [s'|e|].
        -- destruct IH as (pre & n' & post & l & -> & Hpre & Hg & Hin).
           exists ((name, s) :: pre), n', post, l. repeat split; auto.
        -- destruct IH as [[-> Hall]|(pre & n' & s' & post & -> & Hpre & Hg)].
           ++ left. split; [reflexivity|]. constructor; assumption.
           ++ right. exists ((name, s) :: pre), n', s', post. repeat split; auto.
        -- destruct IH as (pre & n' & s' & post & -> & Hpre & Hg).
           exists ((name, s) :: pre), n', s', post. repeat split; auto.
    + right. exists [], name, s, rest. repeat split; auto.
    + exists [], name, s, rest. repeat split; auto.
Qed.

(** X6. [resolveType] returns the first schema of the document, in the
    order of the iteration, whose extension lists the requested GVK, the
    extensions of all schemas before it having been decoded without
    listing it.  It fails with the not-found error only when every
    extension was decoded and none lists the GVK; any other failure is
    the error of the first extension that could not be decoded, met
    before any schema that lists the GVK. *)
Theorem resolveType_first_declaring :
  forall (GetObject : Extensions_t -> string -> res (list GroupVersionKind))
         (resp : schemaResponse) (gvk : GroupVersionKind),
    (forall s, resolveType GetObject resp gvk = Ok s ->
       exists pre name post gvks,
         Schemas resp = pre ++ (name, s) :: post
         /\ Forall (passes_over GetObject gvk) pre
         /\ GetObject (Extensions s) extGVK = Ok gvks /\ In gvk gvks)
    /\ (forall e, resolveType GetObject resp gvk = Err e ->
          (e = cannotResolveGVK gvk
           /\ Forall (passes_over GetObject gvk) (Schemas resp))
          \/ (exists pre name s post,
                Schemas resp = pre ++ (name, s) :: post
                /\ Forall (passes_over GetObject gvk) pre
                /\ GetObject (Extensions s) extGVK = Err e))
    /\ (Forall (passes_over GetObject gvk) (Schemas resp) ->
          resolveType GetObject resp gvk = Err (cannotResolveGVK gvk)).
Proof.
  intros GetObject resp gvk. unfold resolveType.
  pose proof (resolveTypeLoop_outcome GetObject gvk (Schemas resp)) as H.
  split; [|split].
  - intros s E. rewrite E in H. exact H.
  - intros e E. rewrite E in H. exact H.
  - clear H. induction 1 as [|[name s] rest (l & Hl & Hn) _ IH]; simpl; [reflexivity|].
    simpl in Hl. rewrite Hl. simpl.
    destruct (existsb (fun g => gvk_eqb g gvk) l) eqn:Ex; [|exact IH].
    apply existsb_gvk in Ex. contradiction.
Qed.

Lemma resolveType_first_declaring_witness :
  (exists pre name post gvks,
      Schemas danglingDoc = pre ++ (name, podDocSchema) :: post
      /\ Forall (passes_over GetObject_json podGVK) pre
      /\ GetObject_json (Extensions podDocSchema) extGVK = Ok gvks /\ In podGVK gvks)
  /\ resolveType GetObject_json (mkResponse []) podGVK = Err (cannotResolveGVK podGVK).
Proof.
  split.
  - exact (proj1 (resolveType_first_declaring GetObject_json danglingDoc podGVK)
             podDocSchema eq_refl).
  - exact (proj2 (proj2 (resolveType_first_declaring GetObject_json (mkResponse [])
                           podGVK)) (Forall_nil _)).
Defined.

(** ** resourcePathFromGV *)

Lemma append_slash_inj : forall a b v1 v2 : string,
  ~ In "/"%char (list_ascii_of_string a) ->
  ~ In "/"%char (list_ascii_of_string b) ->
  String.append a (String "/" v1) = String.append b (String "/" v2) ->
  a = b /\ v1 = v2.
Proof.
  induction a as [|c a IH]; intros [|d b] v1 v2 Ha Hb E; simpl in *.
  - injection E as <-. auto.
  - injection E as <- _. exfalso. apply Hb. left. reflexivity.
  - injection E as -> _. exfalso. apply Ha. left. reflexivity.
  - injection E as -> E. destruct (IH b v1 v2) as [-> ->]; auto.
Qed.

(** X7. The path of the core group is [api/<version>] and the path of a
    named group is [apis/<group>/<version>]; a core path is never the
    path of a named group, and two group versions whose group names hold
    no slash have the same path only when they are equal. *)
Theorem resourcePathFromGV_distinct :
  forall g1 v1 g2 v2 : string,
    resourcePathFromGV EmptyString v1 = String.append "api/" v1
    /\ (g2 <> EmptyString ->
          resourcePathFromGV g2 v2
            = String.append "apis/" (String.append g2 (String.append "/" v2))
          /\ resourcePathFromGV EmptyString v1 <> resourcePathFromGV g2 v2)
    /\ (~ In "/"%char (list_ascii_of_string g1) ->
        ~ In "/"%char (list_ascii_of_string g2) ->
        resourcePathFromGV g1 v1 = resourcePathFromGV g2 v2 ->
        g1 = g2 /\ v1 = v2).
Proof.
  intros g1 v1 g2 v2. split; [reflexivity|]. split.
  - intros Hg. destruct g2 as [|c g2]; [congruence|]. split; [reflexivity|].
    simpl. intros E. discriminate.
  - intros H1 H2 E. unfold resourcePathFromGV in E.
    destruct g1 as [|c1 g1], g2 as [|c2 g2]; simpl in E.
    + injection E as <-. auto.
    + discriminate.
    + discriminate.
    + injection E as E1 E2.
      apply (append_slash_inj (String c1 g1) (String c2 g2)); auto.
      simpl. rewrite E1, E2. reflexivity.
Qed.

Lemma resourcePathFromGV_distinct_witness :
  resourcePathFromGV EmptyString "v1" <> resourcePathFromGV "apps" "v1"
  /\ (resourcePathFromGV "apps" "v1" = resourcePathFromGV "apps" "v1" ->
      "apps" = "apps" /\ "v1" = "v1").
Proof.
  split.
  - refine (proj2 (proj1 (proj2 (resourcePathFromGV_distinct "apps" "v1" "apps" "v1")) _)).
    discriminate.
  - refine (proj2 (proj2 (resourcePathFromGV_distinct "apps" "v1" "apps" "v1")) _ _).
    + simpl. intros [H|[H|[H|[H|[]]]]]; discriminate.
    + simpl. intros [H|[H|[H|[H|[]]]]]; discriminate.
Defined.

(* ================================================================== *)
(** * Further properties of the store layer *)

Module StoreMore.
Import Store.

(** ** refOf on the heap *)

Lemma scanAllOf_document (f : Schema -> res (string * bool))
    (g : Schema -> res Value.Schema) elems ts :
  (forall s t, In s elems -> g s = Ok t -> f s = Ok (Value.refOf t)) ->
  marshalElems g elems = Ok ts ->
  scanAllOf f elems
  = Ok ((fix scan (l : list Value.Schema) : string * bool :=
           match l with
           | [] => (EmptyString, false)
           | allOf :: rest =>
               let '(ref, isRef) := Value.refOf allOf in
               if isRef then (ref, isRef) else scan rest
           end) ts).
Proof.
  revert ts. induction elems as [|v rest IH]; simpl; intros ts Hf H.
  - injection H as <-. reflexivity.
  - apply bind_Ok in H as [t [Ht H]]. apply bind_Ok in H as [ts' [Hts H]].
    injection H as <-. rewrite (Hf v t) by auto. simpl.
    destruct (Value.refOf t) as [r [|]]; simpl; [reflexivity|].
    apply IH; auto.
Qed.

Lemma refOf_document_fuel (h : heap) : forall f s t,
  marshal f h s = Ok t -> refOf f h s = Ok (Value.refOf t).
Proof.
  induction f as [|f IH]; intros s t H; [discriminate|].
  simpl in H.
  apply bind_Ok in H as [props [Hp H]].
  apply bind_Ok in H as [ap [Ha H]].
  apply bind_Ok in H as [items [Hi H]].
  apply bind_Ok in H as [allOf [Hal H]].
  apply bind_Ok in H as [ext [He H]].
  injection H as <-. simpl.
  destruct (Ref s) as [u|]; [reflexivity|].
  unfold marshalAllOf in Hal.
  destruct (AllOf s) as [a|]; [|injection Hal as <-; reflexivity].
  destruct (h !! a) as [[| | |elems| | |]|]; try discriminate.
  eapply scanAllOf_document; [|exact Hal]. intros s' t' _. apply IH.
Qed.

Lemma scanAllOf_Ok_ext (f g : Schema -> res (string * bool)) l r :
  (forall s r0, f s = Ok r0 -> g s = Ok r0) ->
  scanAllOf f l = Ok r -> scanAllOf g l = Ok r.
Proof.
  intros Hfg. induction l as [|v rest IH]; simpl; intros H; [exact H|].
  apply bind_Ok in H as [r0 [Hr0 H]]. rewrite (Hfg _ _ Hr0). simpl.
  destruct (snd r0); [exact H|]. apply IH, H.
Qed.

Lemma refOf_fuel_S (h : heap) : forall f s r,
  refOf f h s = Ok r -> refOf (S f) h s = Ok r.
Proof.
  induction f as [|f IH]; intros s r H; [discriminate|].
  remember (S f) as f1. rewrite Heqf1 in H. simpl in H. simpl.
  destruct (Ref s) as [u|]; [exact H|].
  destruct (AllOf s) as [a|]; [|exact H].
  destruct (h !! a) as [[| | |elems| | |]|]; try exact H.
  subst f1. eapply scanAllOf_Ok_ext; [exact IH|exact H].
Qed.

Lemma refOf_fuel_le (h : heap) f f' s r :
  f <= f' -> refOf f h s = Ok r -> refOf f' h s = Ok r.
Proof.
  induction 1 as [|f1 _ IH]; intros H; [exact H|].
  apply refOf_fuel_S, IH, H.
Qed.

(** X9. [refOf] reads the reference indicator and the allOf list only.
    On a schema in the heap that the encoder turns into the document [t],
    it returns what [refOf] returns on [t], within the nesting allowed to
    the encoder; and whenever it returns, with whatever allowance, that
    is its answer. *)
Theorem refOf_reads_document :
  forall (h : heap) (f : nat) (s : Schema) (t : Value.Schema),
    marshal f h s = Ok t ->
    refOf f h s = Ok (Value.refOf t)
    /\ forall f' r, refOf f' h s = Ok r -> r = Value.refOf t.
Proof.
  intros h f s t H. pose proof (refOf_document_fuel h f s t H) as E.
  split; [exact E|]. intros f' r Hr.
  assert (E1 : refOf (Nat.max f f') h s = Ok (Value.refOf t))
    by (eapply refOf_fuel_le; [apply Nat.le_max_l|exact E]).
  assert (E2 : refOf (Nat.max f f') h s = Ok r)
    by (eapply refOf_fuel_le; [apply Nat.le_max_r|exact Hr]).
  congruence.
Qed.

Lemma refOf_reads_document_witness :
  refOf 2 [CAllOf [mkSchema (Some "pkg.v1.PodSpec") EmptyString None None None None None]]
    (mkSchema None "wrapped" None None None (Some 0) None)
  = Ok (Value.refOf
          (Value.mkSchema None "wrapped" [] None None
             [Value.mkSchema (Some "pkg.v1.PodSpec") EmptyString [] None None [] []] [])).
Proof.
  exact (proj1 (refOf_reads_document
                  [CAllOf [mkSchema (Some "pkg.v1.PodSpec") EmptyString
                             None None None None None]]
                  2 (mkSchema None "wrapped" None None None (Some 0) None)
                  _ eq_refl)).
Defined.

(** ** The index built by NewDefinitionsSchemaResolver *)

Lemma lookupGVK_assocSet gvk k (v : loc) m :
  lookupGVK gvk (assocSet gvk_eqb k v m)
  = if gvk_eqb k gvk then Some v else lookupGVK gvk m.
Proof.
  induction m as [|[k0 w] rest IH]; simpl.
  - reflexivity.
  - destruct (gvk_eqb k0 k) eqn:E0; simpl.
    + apply gvk_eqb_eq in E0. subst k0.
      destruct (gvk_eqb k gvk); reflexivity.
    + rewrite IH. destruct (gvk_eqb k0 gvk) eqn:E1; [|reflexivity].
      destruct (gvk_eqb k gvk) eqn:E2; [|reflexivity].
      apply gvk_eqb_eq in E1, E2. subst. rewrite (proj2 (gvk_eqb_eq gvk gvk) eq_refl) in E0.
      discriminate.
Qed.

Lemma lookupGVK_record gvk (dp : loc) gvks : forall idx,
  lookupGVK gvk (fold_left (fun i g => assocSet gvk_eqb g dp i) gvks idx)
  = if existsb (fun g => gvk_eqb g gvk) gvks then Some dp else lookupGVK gvk idx.
Proof.
  induction gvks as [|g rest IH]; intros idx; simpl; [reflexivity|].
  rewrite IH, lookupGVK_assocSet.
  destruct (existsb (fun g0 => gvk_eqb g0 gvk) rest); [rewrite Bool.orb_true_r|
    rewrite Bool.orb_false_r]; reflexivity.
Qed.

Lemma recordGVKs_run g dp gvks : forall (h : heap) idx,
  h !! g = Some (CIndex idx) ->
  recordGVKs g dp gvks h
  = (<[g := CIndex (fold_left (fun i gvk => assocSet gvk_eqb gvk dp i) gvks idx)]> h,
     Ok tt).
Proof.
  induction gvks as [|gvk rest IH]; intros h idx Hg; simpl.
  - unfold ret. rewrite list_insert_id by exact Hg. reflexivity.
  - unfold bindM, loadIndex, read, store. simpl. rewrite Hg. simpl.
    rewrite (IH _ (assocSet gvk_eqb gvk dp idx)).
    + rewrite list_insert_insert_eq. reflexivity.
    + apply list_lookup_insert_eq. eapply lookup_lt_Some, Hg.
Qed.

Lemma rangeDefs_run namer g dp entries : forall (h : heap) idx c0,
  g <> dp -> h !! g = Some (CIndex idx) -> h !! dp = Some c0 ->
  exists idx' c,
    rangeDefs namer g dp entries h
    = (<[g := CIndex idx']> (<[dp := c]> h), Ok tt)
    /\ forall gvk,
         (exists p, lookupGVK gvk idx' = Some p)
         <-> (exists p, lookupGVK gvk idx = Some p) \/ declared namer entries gvk.
Proof.
  induction entries as [|[name schema] rest IH]; intros h idx c0 Hne Hg Hdp.
  - exists idx, c0. simpl. unfold ret.
    rewrite (list_insert_id h dp c0 Hdp), (list_insert_id h g _ Hg).
    split; [reflexivity|]. intros gvk. split; [auto|].
    intros [H|(n & s & [] & _)]. exact H.
  - assert (Hlg : g < length h) by (eapply lookup_lt_Some, Hg).
    assert (Hld : dp < length h) by (eapply lookup_lt_Some, Hdp).
    simpl. unfold bindM at 1. unfold store at 1. unfold bindM at 1.
    rewrite (recordGVKs_run g dp _ _ idx)
      by (rewrite list_lookup_insert_ne by congruence; exact Hg).
    set (idx1 := fold_left (fun i gvk => assocSet gvk_eqb gvk dp i)
                   (extensionsToGVKs (namer name)) idx).
    destruct (IH (<[g := CIndex idx1]> (<[dp := CSchema schema]> h)) idx1
                (CSchema schema) Hne) as (idx' & c & E & Hkeys).
    + apply list_lookup_insert_eq. rewrite length_insert. exact Hlg.
    + rewrite list_lookup_insert_ne by exact Hne.
      apply list_lookup_insert_eq, Hld.
    + exists idx', c. split.
      * rewrite E. f_equal.
        rewrite (list_insert_insert_ne _ dp g) by congruence.
        rewrite !list_insert_insert_eq. reflexivity.
      * intros gvk. rewrite Hkeys. unfold idx1. rewrite lookupGVK_record.
        destruct (existsb (fun g0 => gvk_eqb g0 gvk) (extensionsToGVKs (namer name)))
          eqn:Ex.
        -- apply existsb_gvk in Ex. split; intros _; [|left; eauto].
           right. exists name, schema. split; [left; reflexivity|exact Ex].
        -- assert (Hn : ~ In gvk (extensionsToGVKs (namer name))).
           { intros Hin. apply existsb_gvk in Hin. congruence. }
           split.
           ++ intros [H|(n & s & Hin & Hd)]; [auto|].
              right. exists n, s. split; [right; exact Hin|exact Hd].
           ++ intros [H|(n & s & [Hin|Hin] & Hd)]; [auto| |].
              ** injection Hin as <- <-. contradiction.
              ** right. exists n, s. auto.
Qed.

Lemma NewDefinitionsSchemaResolver_run namer dl (h : heap) entries :
  h !! dl = Some (CDefinitions entries) ->
  exists idx c,
    NewDefinitionsSchemaResolver namer dl h
    = (h ++ [CIndex idx; c], Ok (mkResolver dl (length h)))
    /\ forall gvk,
         (exists p, lookupGVK gvk idx = Some p) <-> declared namer entries gvk.
Proof.
  intros Hd.
  assert (Hdl : dl < length h) by (eapply lookup_lt_Some; eauto).
  destruct (rangeDefs_run namer (length h) (S (length h)) entries
              (h ++ [CIndex []; CSchema zeroSchema]) [] (CSchema zeroSchema))
    as (idx & c & E & Hkeys).
  - lia.
  - rewrite lookup_app_r by lia. rewrite Nat.sub_diag. reflexivity.
  - rewrite lookup_app_r by lia.
    replace (S (length h) - length h) with 1 by lia. reflexivity.
  - exists idx, c. split.
    + unfold NewDefinitionsSchemaResolver.
      unfold bindM at 1. unfold alloc at 1.
      unfold bindM at 1. unfold loadDefinitions, read.
      rewrite (lookup_app_l h [CIndex []] dl Hdl), Hd.
      unfold bindM at 1. unfold alloc at 1.
      replace (length (h ++ [CIndex []])) with (S (length h))
        by (rewrite length_app; simpl; lia).
      rewrite <- app_assoc. simpl. unfold bindM. rewrite E. unfold ret. f_equal.
      rewrite (insert_app_r_alt h _ (S (length h))) by lia.
      rewrite (insert_app_r_alt h _ (length h)) by lia.
      replace (S (length h) - length h) with 1 by lia.
      rewrite Nat.sub_diag. reflexivity.
    + intros gvk. rewrite Hkeys. split; [|auto].
      intros [[p Hp]|H]; [discriminate|exact H].
Qed.

(** X10. On a heap that holds the definition table,
    [NewDefinitionsSchemaResolver] allocates two objects, the index and
    the loop variable, and changes nothing else.  The index has an entry
    for a GVK exactly when the name of some table entry carries that GVK
    in its extension; so on the resolver it returns, [ResolveSchema]
    answers a GVK that no entry carries with the not-found error, leaving
    the heap as it is. *)
Theorem index_lists_declared_GVKs :
  forall (namer : string -> Extensions_t) (dl : loc) (h : heap)
         (entries : list (string * Schema)),
    h !! dl = Some (CDefinitions entries) ->
    exists idx c,
      NewDefinitionsSchemaResolver namer dl h
      = (h ++ [CIndex idx; c], Ok (mkResolver dl (length h)))
      /\ (forall gvk,
            (exists p, lookupGVK gvk idx = Some p) <-> declared namer entries gvk)
      /\ (forall gvk fuel,
            ~ declared namer entries gvk ->
            ResolveSchema (mkResolver dl (length h)) fuel gvk (h ++ [CIndex idx; c])
            = (h ++ [CIndex idx; c], Err (cannotResolve gvk))
            /\ Is_ErrSchemaNotFound (cannotResolve gvk) = true).
Proof.
  intros namer dl h entries Hd.
  destruct (NewDefinitionsSchemaResolver_run namer dl h entries Hd)
    as (idx & c & E & Hkeys).
  exists idx, c. split; [exact E|]. split; [exact Hkeys|].
  intros gvk fuel Hn. split; [|reflexivity].
  unfold ResolveSchema, bindM, loadIndex, read. simpl.
  rewrite lookup_app_r by lia. rewrite Nat.sub_diag. simpl.
  destruct (lookupGVK gvk idx) as [p|] eqn:El; [|reflexivity].
  exfalso. apply Hn, Hkeys. eauto.
Qed.

Lemma lookupGVK_In gvk idx (p : loc) :
  lookupGVK gvk idx = Some p -> exists g, In (g, p) idx.
Proof.
  induction idx as [|[g q] rest IH]; simpl; intros H; [discriminate|].
  destruct (gvk_eqb g gvk).
  - injection H as ->. exists g. auto.
  - destruct (IH H) as [g' Hg']. exists g'. auto.
Qed.

(** X11. Whatever the table, as long as its last entry in the order of
    the iteration is [(name, schema)]: after
    [NewDefinitionsSchemaResolver] the loop variable holds [schema], the
    index maps every GVK carried by some entry to the address of the loop
    variable, and [ResolveSchema] therefore gives, for any two such GVKs,
    the same result: when it returns a schema for one, the call for the
    other returns the same schema in the same heap. *)
Theorem declared_GVKs_resolve_alike :
  forall (namer : string -> Extensions_t) (dl : loc) (h : heap)
         (entries init : list (string * Schema)) (name : string) (schema : Schema),
    h !! dl = Some (CDefinitions entries) ->
    entries = init ++ [(name, schema)] ->
    exists idx,
      NewDefinitionsSchemaResolver namer dl h
      = (h ++ [CIndex idx; CSchema schema], Ok (mkResolver dl (length h)))
      /\ (forall gvk, declared namer entries gvk ->
            lookupGVK gvk idx = Some (S (length h)))
      /\ (forall gvk1 gvk2 fuel r,
            declared namer entries gvk1 -> declared namer entries gvk2 ->
            snd (ResolveSchema (mkResolver dl (length h)) fuel gvk1
                   (h ++ [CIndex idx; CSchema schema])) = Ok r ->
            ResolveSchema (mkResolver dl (length h)) fuel gvk2
              (h ++ [CIndex idx; CSchema schema])
            = ResolveSchema (mkResolver dl (length h)) fuel gvk1
                (h ++ [CIndex idx; CSchema schema])).
Proof.
  intros namer dl h entries init name schema Hd Hlast.
  destruct (NewDefinitionsSchemaResolver_run namer dl h entries Hd)
    as (idx & c & E & Hkeys).
  destruct (StoreFacts.index_shares_loop_variable namer dl h entries Hd)
    as (idx0 & _ & Hi & Hall & Hl).
  specialize (Hl init name schema Hlast).
  rewrite E in Hi, Hl. simpl in Hi, Hl.
  rewrite lookup_app_r in Hi by lia. rewrite Nat.sub_diag in Hi.
  injection Hi as <-.
  rewrite lookup_app_r in Hl by lia.
  replace (S (length h) - length h) with 1 in Hl by lia.
  injection Hl as ->.
  assert (Hdecl : forall gvk, declared namer entries gvk ->
                              lookupGVK gvk idx = Some (S (length h))).
  { intros gvk Hg. apply Hkeys in Hg as [p Hp]. rewrite Hp. f_equal.
    apply lookupGVK_In in Hp as [g Hin].
    rewrite Forall_forall in Hall. exact (Hall _ Hin). }
  exists idx. split; [exact E|]. split; [exact Hdecl|].
  intros gvk1 gvk2 fuel r H1 H2.
  unfold ResolveSchema, bindM, loadIndex, loadSchema, read, try_. simpl.
  rewrite lookup_app_r by lia. rewrite Nat.sub_diag. simpl.
  rewrite (Hdecl _ H1), (Hdecl _ H2).
  destruct (schemaAt (h ++ [CIndex idx; CSchema schema]) (S (length h)));
    try reflexivity.
  destruct (deepCopy a (h ++ [CIndex idx; CSchema schema])) as [h1 [q|e|]];
    try reflexivity.
  simpl. discriminate.
Qed.

Lemma declared_GVKs_resolve_alike_witness :
  exists idx,
    NewDefinitionsSchemaResolver tableNamer 2 tableHeap
    = (tableHeap ++ [CIndex idx; CSchema nodeS], Ok (mkResolver 2 (length tableHeap)))
    /\ lookupGVK podGVK idx = Some (S (length tableHeap)).
Proof.
  destruct (declared_GVKs_resolve_alike tableNamer 2 tableHeap tableEntries
              [("pkg.v1.Pod", podS); ("pkg.v1.PodSpec", podSpecS)]
              "pkg.v1.Node" nodeS eq_refl eq_refl) as (idx & E & Hdecl & _).
  exists idx. split; [exact E|]. apply Hdecl.
  exists "pkg.v1.Pod", podS. split; [left; reflexivity|left; reflexivity].
Defined.

(** ** Errors of the static resolver *)

Lemma fails_in_ret {A} P (a : A) : fails_in P (ret a).
Proof. intros h e H. discriminate. Qed.

Lemma fails_in_fail {A} (P : error -> Prop) e : P e -> fails_in P (@fail A e).
Proof. intros Hp h e' H. injection H as <-. exact Hp. Qed.

Lemma fails_in_bind {A B} P (m : M A) (k : A -> M B) :
  fails_in P m -> (forall a, fails_in P (k a)) -> fails_in P (bindM m k).
Proof.
  intros Hm Hk h e. unfold bindM. specialize (Hm h).
  destruct (m h) as [h1 [a|e1|]]; simpl in *.
  - apply Hk.
  - intros H. injection H as <-. apply Hm. reflexivity.
  - discriminate.
Qed.

Lemma fails_in_try {A} P (m : M A) : fails_in P (try_ m).
Proof. intros h e. unfold try_. destruct (m h) as [h1 [a|e1|]]; discriminate. Qed.

Lemma fails_in_alloc P c : fails_in P (alloc c).
Proof. intros h e H. discriminate. Qed.

Lemma fails_in_store P l c : fails_in P (store l c).
Proof. intros h e H. discriminate. Qed.

Lemma fails_in_loadSchema (P : error -> Prop) p :
  P invalidAccess -> fails_in P (loadSchema p).
Proof.
  intros Hp h e. unfold loadSchema, read, schemaAt. simpl.
  destruct (h !! p) as [[]|]; intros H; try discriminate; injection H as <-; exact Hp.
Qed.

Lemma fails_in_loadProperties (P : error -> Prop) p :
  P invalidAccess -> fails_in P (loadProperties p).
Proof.
  intros Hp h e. unfold loadProperties, read. simpl.
  destruct (h !! p) as [[]|]; intros H; try discriminate; injection H as <-; exact Hp.
Qed.

Lemma fails_in_loadSchemaOr (P : error -> Prop) p :
  P invalidAccess -> fails_in P (loadSchemaOr p).
Proof.
  intros Hp h e. unfold loadSchemaOr, read. simpl.
  destruct (h !! p) as [[]|]; intros H; try discriminate; injection H as <-; exact Hp.
Qed.

Lemma fails_in_loadDefinitions (P : error -> Prop) p :
  P invalidAccess -> fails_in P (loadDefinitions p).
Proof.
  intros Hp h e. unfold loadDefinitions, read. simpl.
  destruct (h !! p) as [[]|]; intros H; try discriminate; injection H as <-; exact Hp.
Qed.

Lemma fails_in_loadIndex (P : error -> Prop) p :
  P invalidAccess -> fails_in P (loadIndex p).
Proof.
  intros Hp h e. unfold loadIndex, read. simpl.
  destruct (h !! p) as [[]|]; intros H; try discriminate; injection H as <-; exact Hp.
Qed.

Lemma scanAllOf_Err (f : Schema -> res (string * bool)) l e :
  scanAllOf f l = Err e -> exists s, In s l /\ f s = Err e.
Proof.
  induction l as [|v rest IH]; simpl; intros H; [discriminate|].
  apply bind_Err in H as [H|[r [Hr H]]]; [eauto|].
  destruct (snd r); [discriminate|].
  destruct (IH H) as [s [Hs Hf]]. eauto.
Qed.

Lemma refOf_Err (h : heap) : forall f s e, refOf f h s = Err e -> e = invalidAccess.
Proof.
  induction f as [|f IH]; intros s e H; [discriminate|].
  simpl in H. destruct (Ref s); [discriminate|].
  destruct (AllOf s) as [a|]; [|discriminate].
  destruct (h !! a) as [[| | |elems| | |]|]; try (injection H as <-; reflexivity).
  apply scanAllOf_Err in H as [s' [_ Hs']]. eapply IH, Hs'.
Qed.

Lemma fails_in_rangeProperties (P : error -> Prop) f schema m prop names :
  P invalidAccess -> (forall p, fails_in P (f p)) ->
  fails_in P (rangeProperties f schema m prop names).
Proof.
  intros Hp Hf. induction names as [|name rest IH]; simpl; [apply fails_in_ret|].
  apply fails_in_bind; [apply fails_in_loadProperties, Hp|]. intros entries.
  destruct (assoc name entries) as [v|]; [|exact IH].
  apply fails_in_bind; [apply fails_in_store|]. intros _.
  apply fails_in_bind; [apply Hf|]. intros _.
  apply fails_in_bind; [apply fails_in_loadSchema, Hp|]. intros v'.
  apply fails_in_bind; [apply fails_in_loadSchema, Hp|]. intros s1.
  destruct (Properties s1) as [m1|]; [|apply fails_in_fail, Hp].
  apply fails_in_bind; [apply fails_in_loadProperties, Hp|]. intros entries1.
  apply fails_in_bind; [apply fails_in_store|]. intros _. exact IH.
Qed.

Lemma fails_in_populateNested (P : error -> Prop) f p :
  P invalidAccess -> (forall q, fails_in P (f q)) ->
  fails_in P (populateNested f p).
Proof.
  intros Hp Hf. unfold populateNested. destruct p as [a|]; [|apply fails_in_ret].
  apply fails_in_bind; [apply fails_in_loadSchemaOr, Hp|]. intros [q|];
    [apply Hf|apply fails_in_ret].
Qed.

Lemma fails_in_replaceIfRef fuel schemaOf schema :
  (forall ref, fails_in inliner_error (schemaOf ref)) ->
  fails_in inliner_error (replaceIfRef fuel schemaOf schema).
Proof.
  intros Hs. unfold replaceIfRef.
  apply fails_in_bind; [apply fails_in_loadSchema; left; reflexivity|]. intros s.
  apply fails_in_bind.
  { intros h e H. left. eapply refOf_Err, H. }
  intros r. destruct (snd r); [|apply fails_in_ret].
  apply fails_in_bind; [apply Hs|]. intros [resolved|].
  - apply fails_in_bind; [apply fails_in_loadSchema; left; reflexivity|]. intros rv.
    apply fails_in_store.
  - apply fails_in_fail. right. eauto.
Qed.

Lemma fails_in_populateProperties (P : error -> Prop) f schema :
  P invalidAccess -> (forall p, fails_in P (f p)) ->
  fails_in P (populateProperties f schema).
Proof.
  intros Hp Hf. unfold populateProperties.
  apply fails_in_bind; [apply fails_in_loadSchema, Hp|]. intros s.
  destruct (Properties s) as [m|]; [|apply fails_in_ret].
  apply fails_in_bind; [apply fails_in_loadProperties, Hp|]. intros entries.
  apply fails_in_bind; [apply fails_in_alloc|]. intros prop.
  apply fails_in_rangeProperties; assumption.
Qed.

Lemma fails_in_populateRefs schemaOf :
  (forall ref, fails_in inliner_error (schemaOf ref)) ->
  forall fuel schema, fails_in inliner_error (populateRefs fuel schemaOf schema).
Proof.
  intros Hs. induction fuel as [|fuel IH]; intros schema; simpl.
  - intros h e H. discriminate.
  - assert (Hi : inliner_error invalidAccess) by (left; reflexivity).
    apply fails_in_bind; [apply fails_in_replaceIfRef, Hs|]. intros _.
    apply fails_in_bind; [apply fails_in_populateProperties; assumption|]. intros _.
    apply fails_in_bind; [apply fails_in_loadSchema, Hi|]. intros s2.
    apply fails_in_bind; [apply fails_in_populateNested; assumption|]. intros _.
    apply fails_in_bind; [apply fails_in_loadSchema, Hi|]. intros s3.
    apply fails_in_populateNested; assumption.
Qed.

Lemma fails_in_schemaOf d ref : fails_in inliner_error (schemaOf d ref).
Proof.
  unfold schemaOf.
  apply fails_in_bind; [apply fails_in_loadDefinitions; left; reflexivity|].
  intros entries. destruct (assoc ref entries) as [def|]; [|apply fails_in_ret].
  apply fails_in_bind; [apply fails_in_try|]. intros [e|s]; apply fails_in_ret.
Qed.

(** X12. The errors of the static resolver's [ResolveSchema].  An error
    it returns is the not-found error for the GVK, and then the index has
    no entry for the GVK; or the deep-copy error for the GVK, which
    carries the error of the encoder; or the error of [populateRefs] for
    a reference without a usable definition; or an access through a nil
    or ill-typed address.  The first and the third wrap
    [ErrSchemaNotFound], the others do not. *)
Theorem ResolveSchema_static_error_kinds :
  forall (d : DefinitionsSchemaResolver) (fuel : nat) (gvk : GroupVersionKind)
         (h : heap) (e : error),
    snd (ResolveSchema d fuel gvk h) = Err e ->
    ((e = cannotResolve gvk
      /\ exists idx, h !! gvkToSchema d = Some (CIndex idx)
                     /\ lookupGVK gvk idx = None)
     \/ (exists ref, e = cannotResolveRef ref))
    /\ Is_ErrSchemaNotFound e = true
    \/ ((exists idx s sv cause,
           h !! gvkToSchema d = Some (CIndex idx) /\ lookupGVK gvk idx = Some s
           /\ schemaAt h s = Ok sv /\ json_Marshal h sv = Err cause
           /\ e = cannotDeepCopy gvk cause)
        \/ e = invalidAccess)
       /\ Is_ErrSchemaNotFound e = false.
Proof.
  intros d fuel gvk h e. unfold ResolveSchema.
  unfold bindM at 1. unfold loadIndex, read. cbn [fst snd].
  destruct (h !! gvkToSchema d) as [[| | | | | |idx]|] eqn:Ei;
    try (intros H; injection H as <-; right; (split; [right|]; reflexivity)).
  destruct (lookupGVK gvk idx) as [s|] eqn:El.
  2:{ intros H. injection H as <-. left. split; [|reflexivity]. left. eauto. }
  unfold bindM at 1. unfold loadSchema at 1. unfold read. cbn [fst snd].
  destruct (schemaAt h s) as [sv|e0|] eqn:Es.
  2:{ assert (e0 = invalidAccess) as ->.
      { unfold schemaAt in Es. destruct (h !! s) as [[]|]; congruence. }
      intros H. injection H as <-. right. split; [right|]; reflexivity. }
  2:{ discriminate. }
  unfold bindM at 1. unfold try_.
  pose proof (StoreFacts.deepCopy_outcome sv h) as Ho.
  destruct (json_Marshal h sv) as [b|cause|] eqn:Em.
  - destruct Ho as [r Hr].
    destruct (deepCopy sv h) as [h1 [r'|e'|]]; try discriminate. cbn [fst snd].
    intros H.
    assert (Hf : fails_in inliner_error
                   (let! _ := populateRefs fuel (schemaOf d) r' in ret r')).
    { apply fails_in_bind; [apply fails_in_populateRefs, fails_in_schemaOf|].
      intros _. apply fails_in_ret. }
    destruct (Hf h1 e H) as [->|[ref ->]].
    + right. split; [right|]; reflexivity.
    + left. split; [right; eauto|reflexivity].
  - rewrite Ho. cbn [fst snd]. intros H. injection H as <-.
    right. split; [|reflexivity]. left. exists idx, s, sv, cause. auto.
  - rewrite Ho. cbn [fst snd]. discriminate.
Qed.

Lemma ResolveSchema_static_error_kinds_witness :
  ((cannotDeepCopy podGVK unsupportedType = cannotResolve podGVK
    /\ exists idx, brokenHeap !! gvkToSchema (mkResolver 2 3) = Some (CIndex idx)
                   /\ lookupGVK podGVK idx = None)
   \/ (exists ref, cannotDeepCopy podGVK unsupportedType = cannotResolveRef ref))
  /\ Is_ErrSchemaNotFound (cannotDeepCopy podGVK unsupportedType) = true
  \/ ((exists idx s sv cause,
         brokenHeap !! gvkToSchema (mkResolver 2 3) = Some (CIndex idx)
         /\ lookupGVK podGVK idx = Some s
         /\ schemaAt brokenHeap s = Ok sv /\ json_Marshal brokenHeap sv = Err cause
         /\ cannotDeepCopy podGVK unsupportedType = cannotDeepCopy podGVK cause)
      \/ cannotDeepCopy podGVK unsupportedType = invalidAccess)
     /\ Is_ErrSchemaNotFound (cannotDeepCopy podGVK unsupportedType) = false.
Proof.
  exact (ResolveSchema_static_error_kinds (mkResolver 2 3) 5 podGVK brokenHeap
           (cannotDeepCopy podGVK unsupportedType) eq_refl).
Defined.

(** ** Errors of the discovery resolver *)

Lemma fails_in_weaken {A} (P Q : error -> Prop) (m : M A) :
  (forall e, P e -> Q e) -> fails_in P m -> fails_in Q m.
Proof. intros HPQ Hm h e H. apply HPQ. eapply Hm, H. Qed.

Lemma fails_in_unmarshal (P : error -> Prop) t : fails_in P (unmarshal t).
Proof.
  intros h e H. destruct (StoreFacts.unmarshal_returns t h) as [s Hs]. congruence.
Qed.

Lemma fails_in_decodeSchemas (P : error -> Prop) doc :
  fails_in P (Discovery.decodeSchemas doc).
Proof.
  induction doc as [|[name [t|]] rest IH]; simpl.
  - apply fails_in_ret.
  - apply fails_in_bind; [apply fails_in_unmarshal|]. intros s.
    apply fails_in_bind; [apply fails_in_alloc|]. intros q.
    apply fails_in_bind; [exact IH|]. intros m. apply fails_in_ret.
  - apply fails_in_bind; [exact IH|]. intros m. apply fails_in_ret.
Qed.

Lemma fails_in_loadExtensions (P : error -> Prop) e :
  P invalidAccess -> fails_in P (Discovery.loadExtensions e).
Proof.
  intros Hp. destruct e as [a|]; simpl; [|apply fails_in_ret].
  intros h e. unfold read. simpl.
  destruct (h !! a) as [[]|]; intros H; try discriminate; injection H as <-; exact Hp.
Qed.

Lemma fails_in_resolveType (P : error -> Prop) GetObject gvk resp :
  P invalidAccess -> P (Value.cannotResolveGVK gvk) ->
  (forall ext e, GetObject ext extGVK = Err e -> P e) ->
  fails_in P (Discovery.resolveType GetObject resp gvk).
Proof.
  intros Hp Hg Hc. induction resp as [|[name [s|]] rest IH]; simpl.
  - apply fails_in_fail, Hg.
  - apply fails_in_bind; [apply fails_in_loadSchema, Hp|]. intros sv.
    apply fails_in_bind; [apply fails_in_loadExtensions, Hp|]. intros ext.
    apply fails_in_bind.
    { intros h e H. unfold Discovery.lift in H. simpl in H. eapply Hc, H. }
    intros gvks. destruct (existsb (fun g => gvk_eqb g gvk) gvks);
      [apply fails_in_ret|exact IH].
  - apply fails_in_fail, Hp.
Qed.

Lemma fails_in_discovery_schemaOf resp ref :
  fails_in inliner_error (Discovery.schemaOf resp ref).
Proof.
  unfold Discovery.schemaOf.
  destruct (assoc (TrimPrefix ref refPrefix) resp) as [[q|]|].
  - apply fails_in_ret.
  - apply fails_in_fail. left. reflexivity.
  - apply fails_in_ret.
Qed.

(** X8. The errors of the discovery resolver's [ResolveSchema].  An
    error that does not come from a collaborator (the discovery client,
    the parser of the document, the decoder of a GVK extension) is one of
    the resolver's own three: no document for the group version, no
    schema for the kind, or a reference without a component, each of
    which wraps [ErrSchemaNotFound]; or it is the panic of an access
    through a nil pointer, as a null component gives. *)
Theorem ResolveSchema_error_kinds :
  forall (GetObject : Extensions_t -> string -> res (list GroupVersionKind))
         (json_Unmarshal : string -> res Discovery.document)
         (r : Value.ClientDiscoveryResolver) (fuel : nat) (gvk : GroupVersionKind)
         (h : heap) (e : error),
    snd (Discovery.ResolveSchema GetObject json_Unmarshal r fuel gvk h) = Err e ->
    Discovery.from_collaborator GetObject json_Unmarshal r e
    \/ ((e = Value.cannotResolveGV gvk \/ e = Value.cannotResolveGVK gvk
         \/ exists ref, e = cannotResolveRef ref)
        /\ Is_ErrSchemaNotFound e = true)
    \/ (e = invalidAccess /\ Is_ErrSchemaNotFound e = false).
Proof.
  intros GetObject json_Unmarshal r fuel gvk h e.
  unfold Discovery.ResolveSchema.
  unfold bindM at 1. unfold Discovery.lift at 1.
  destruct (Value.Paths r) as [p|e0|] eqn:Ep; cbn [fst snd];
    [|intros H; injection H as <-; left; left; exact Ep|discriminate].
  destruct (assoc (Value.resourcePathFromGV (Group gvk) (Version gvk)) p) as [c|] eqn:Ec.
  2:{ intros H. injection H as <-. right. left. split; [auto|reflexivity]. }
  unfold bindM at 1. unfold Discovery.lift at 1.
  destruct (Value.Schema_bytes c Value.ContentTypeJSON) as [b|e0|] eqn:Eb; cbn [fst snd];
    [|intros H; injection H as <-; left; right; left; eauto 8|discriminate].
  unfold bindM at 1. unfold Discovery.lift at 1.
  destruct (json_Unmarshal b) as [doc|e0|] eqn:Ed; cbn [fst snd];
    [|intros H; injection H as <-; left; right; right; left; eauto|discriminate].
  set (P := fun e : error =>
    Discovery.from_collaborator GetObject json_Unmarshal r e
    \/ ((e = Value.cannotResolveGV gvk \/ e = Value.cannotResolveGVK gvk
         \/ exists ref, e = cannotResolveRef ref)
        /\ Is_ErrSchemaNotFound e = true)
    \/ (e = invalidAccess /\ Is_ErrSchemaNotFound e = false)).
  assert (Hp : P invalidAccess) by (right; right; split; reflexivity).
  revert h e. change (fails_in P
    (let! resp := Discovery.decodeSchemas doc in
     let! s := Discovery.resolveType GetObject resp gvk in
     let! _ := populateRefs fuel (Discovery.schemaOf resp) s in ret s)).
  apply fails_in_bind; [apply fails_in_decodeSchemas|]. intros resp.
  apply fails_in_bind.
  { apply fails_in_resolveType; [exact Hp| |].
    - right. left. split; [auto|reflexivity].
    - intros ext e He. left. right. right. right. eauto. }
  intros s. apply fails_in_bind; [|intros _; apply fails_in_ret].
  eapply fails_in_weaken; [|apply fails_in_populateRefs, fails_in_discovery_schemaOf].
  intros e [->|[ref ->]]; [exact Hp|].
  right. left. split; [eauto|reflexivity].
Qed.

End StoreMore.

Lemma index_lists_declared_GVKs_witness :
  exists idx c,
    Store.NewDefinitionsSchemaResolver tableNamer 2 tableHeap
    = (tableHeap ++ [Store.CIndex idx; c], Ok (Store.mkResolver 2 (length tableHeap)))
    /\ (exists p, Store.lookupGVK podGVK idx = Some p).
Proof.
  destruct (StoreMore.index_lists_declared_GVKs tableNamer 2 tableHeap tableEntries
              eq_refl) as (idx & c & E & Hkeys & _).
  exists idx, c. split; [exact E|].
  apply Hkeys. exists "pkg.v1.Pod", podS. split; [left; reflexivity|left; reflexivity].
Defined.

Lemma ResolveSchema_error_kinds_witness :
  Discovery.from_collaborator GetObject_json (fun _ => Ok malformedDocument) coreV1
    (External "json: cannot unmarshal into Go value of type []schema.GroupVersionKind")
  \/ ((External "json: cannot unmarshal into Go value of type []schema.GroupVersionKind"
         = cannotResolveGV podGVK
       \/ External "json: cannot unmarshal into Go value of type []schema.GroupVersionKind"
         = cannotResolveGVK podGVK
       \/ exists ref,
           External "json: cannot unmarshal into Go value of type []schema.GroupVersionKind"
           = cannotResolveRef ref)
      /\ Is_ErrSchemaNotFound
           (External "json: cannot unmarshal into Go value of type []schema.GroupVersionKind")
         = true)
  \/ (External "json: cannot unmarshal into Go value of type []schema.GroupVersionKind"
      = Store.invalidAccess
      /\ Is_ErrSchemaNotFound
           (External "json: cannot unmarshal into Go value of type []schema.GroupVersionKind")
         = false).
Proof.
  exact (StoreMore.ResolveSchema_error_kinds GetObject_json (fun _ => Ok malformedDocument)
           coreV1 5 podGVK [] _ eq_refl).
Defined.
(* ================================================================== *)
(** * A run of populateRefs under sharing *)

Module InlineFacts.
Import Store Inline.

(** ** [refOf] reads the allOf lists only *)

Lemma scanAllOf_ext (f g : Schema -> res (string * bool)) l :
  (forall s, In s l -> f s = g s) -> scanAllOf f l = scanAllOf g l.
Proof.
  induction l as [|v rest IH]; simpl; intros H; [reflexivity|].
  rewrite (H v) by (left; reflexivity).
  destruct (g v) as [r|e|]; simpl; try reflexivity.
  destruct (snd r); [reflexivity|]. apply IH. intros s Hs. apply H. right. exact Hs.
Qed.

Lemma refOf_agree (h h' : heap) n :
  (forall a elems, a < n ->
     h !! a = Some (CAllOf elems) <-> h' !! a = Some (CAllOf elems)) ->
  (forall a elems, a < n -> h !! a = Some (CAllOf elems) ->
     Forall (fun s => Forall (fun p => p < n) (schema_locs s)) elems) ->
  forall f s, Forall (fun p => p < n) (schema_locs s) ->
    refOf f h' s = refOf f h s.
Proof.
  intros Hsame Hin. induction f as [|f IH]; intros s Hs; [reflexivity|].
  simpl. destruct (Ref s); [reflexivity|].
  destruct (AllOf s) as [a|] eqn:Ea; [|reflexivity].
  assert (Ha : a < n).
  { rewrite Forall_forall in Hs. apply Hs. unfold schema_locs. rewrite Ea.
    apply in_or_app. right. apply in_or_app. right. apply in_or_app. right.
    left. reflexivity. }
  destruct (h !! a) as [c|] eqn:E1.
  - destruct c as [s0|m|o|elems|e|m|m];
      try (destruct (h' !! a) as [[s1|m1|o1|elems1|e1|m1|m1]|] eqn:E2; try reflexivity;
           apply (Hsame a elems1 Ha) in E2; congruence).
    rewrite (proj1 (Hsame a elems Ha) E1).
    apply scanAllOf_ext. intros s' Hs'. apply IH.
    specialize (Hin a elems Ha E1). rewrite Forall_forall in Hin. apply Hin, Hs'.
  - destruct (h' !! a) as [[s1|m1|o1|elems1|e1|m1|m1]|] eqn:E2; try reflexivity.
    apply (Hsame a elems1 Ha) in E2. congruence.
Qed.

Lemma closed_allOf (h : heap) a elems :
  closed h -> h !! a = Some (CAllOf elems) ->
  Forall (fun s => Forall (fun p => p < length h) (schema_locs s)) elems.
Proof.
  intros Hc Ha. specialize (Hc _ _ Ha). simpl in Hc.
  apply Forall_forall. intros s Hs. apply Forall_forall. intros p Hp.
  rewrite Forall_forall in Hc. apply Hc. apply in_flat_map. exists s. auto.
Qed.

Lemma same_kind_allOf c c' elems :
  same_kind c c' -> (c = CAllOf elems <-> c' = CAllOf elems).
Proof.
  destruct c, c'; simpl; intros H; split; intros E; try discriminate;
    try congruence.
Qed.

Lemma refOf_ev X (h h' : heap) :
  closed h -> ev X h h' ->
  forall f s, within h s -> refOf f h' s = refOf f h s.
Proof.
  intros Hc He. apply refOf_agree.
  - intros a elems Ha.
    destruct (lookup_lt_is_Some_2 h a Ha) as [c Hca].
    destruct (ev_kind _ _ _ He a c Hca) as (c' & Hc' & Hk).
    rewrite Hca, Hc'. pose proof (same_kind_allOf c c' elems Hk) as [K1 K2].
    split; intros E; injection E as E; f_equal; auto.
  - intros a elems _ Ha. eapply closed_allOf; eauto.
Qed.

Lemma notRef_ev X (h h' : heap) s :
  closed h -> ev X h h' -> within h s -> (notRef h' s <-> notRef h s).
Proof.
  intros Hc He Hs. unfold notRef.
  split; intros [f Hf]; exists f.
  - rewrite <- (refOf_ev X h h' Hc He f s Hs). exact Hf.
  - rewrite (refOf_ev X h h' Hc He f s Hs). exact Hf.
Qed.

(** A schema that [refOf] finds to be a reference is not found to be
    none with another allowance. *)
Lemma isRef_not_notRef (h : heap) f s r :
  refOf f h s = Ok r -> snd r = true -> ~ notRef h s.
Proof.
  intros H Hr [f' Hf'].
  apply (StoreMore.refOf_fuel_le h f (Nat.max f f')) in H; [|apply Nat.le_max_l].
  apply (StoreMore.refOf_fuel_le h f' (Nat.max f f')) in Hf'; [|apply Nat.le_max_r].
  rewrite H in Hf'. injection Hf' as ->. discriminate.
Qed.

Lemma refOf_false (h : heap) f s r :
  refOf f h s = Ok r -> snd r = false -> notRef h s.
Proof.
  intros H Hr. exists f. rewrite H. f_equal.
  assert (G : forall f s r, refOf f h s = Ok r -> snd r = false -> r = (EmptyString, false)).
  { clear. induction f as [|f IH]; intros s r H Hr; [discriminate|].
    simpl in H. destruct (Ref s); [injection H as <-; discriminate|].
    destruct (AllOf s) as [a|]; [|congruence].
    destruct (h !! a) as [[| | |elems| | |]|]; try discriminate.
    revert H. induction elems as [|v rest IHl]; simpl; [congruence|].
    destruct (refOf f h v) as [rv|e|] eqn:Ev; simpl; try discriminate.
    destruct (snd rv) eqn:Es; [|exact IHl].
    intros E. injection E as <-. congruence. }
  eapply G; eauto.
Qed.

Lemma notRef_Ref (h : heap) s : notRef h s -> Ref s = None.
Proof.
  intros [f H]. destruct f; [discriminate|]. simpl in H.
  destruct (Ref s); [discriminate|reflexivity].
Qed.

(** ** Struct values of a closed heap *)

Lemma closed_struct (h : heap) l c k :
  closed h -> h !! l = Some c -> In k (Walk.structs_in c) -> within h k.
Proof.
  intros Hc Hl Hk. specialize (Hc _ _ Hl). apply Forall_forall. intros p Hp.
  rewrite Forall_forall in Hc. apply Hc.
  eapply Encoder.structs_in_locs; eauto.
Qed.

Lemma within_Properties (h : heap) s m : within h s -> Properties s = Some m -> m < length h.
Proof.
  intros H E. unfold within in H. rewrite Forall_forall in H. apply H.
  unfold schema_locs. rewrite E. left. reflexivity.
Qed.

Lemma within_Additional (h : heap) s a :
  within h s -> AdditionalProperties s = Some a -> a < length h.
Proof.
  intros H E. unfold within in H. rewrite Forall_forall in H. apply H.
  unfold schema_locs. rewrite E. apply in_or_app. right. left. reflexivity.
Qed.

Lemma within_Items (h : heap) s a : within h s -> Items s = Some a -> a < length h.
Proof.
  intros H E. unfold within in H. rewrite Forall_forall in H. apply H.
  unfold schema_locs. rewrite E. apply in_or_app. right. apply in_or_app. right.
  left. reflexivity.
Qed.

Lemma closed_pointee (h : heap) a q :
  closed h -> h !! a = Some (CSchemaOr (Some q)) -> q < length h.
Proof.
  intros Hc Ha. specialize (Hc _ _ Ha). simpl in Hc. inversion Hc. assumption.
Qed.

Lemma child_within (h : heap) s c : closed h -> child h s c -> within h c.
Proof.
  intros Hc [m entries name v _ Hm Hin|a q v _ _ Hq|a q v _ _ Hq].
  - eapply (closed_struct h m); eauto. simpl.
    apply in_map_iff. exists (name, v). auto.
  - eapply (closed_struct h q); eauto. left. reflexivity.
  - eapply (closed_struct h q); eauto. left. reflexivity.
Qed.

Lemma inlined_child (h : heap) s c : inlined h s -> child h s c -> inlined h c.
Proof. intros Hi Hc n Hn. apply Hi. eapply visited_child; eauto. Qed.

Lemma inlined_root (h : heap) s : inlined h s -> notRef h s.
Proof. intros Hi. apply Hi. apply visited_root. Qed.

(** ** The run relation *)

Lemma same_kind_refl c : same_kind c c.
Proof. destruct c; simpl; auto. Qed.

Lemma same_kind_trans c1 c2 c3 : same_kind c1 c2 -> same_kind c2 c3 -> same_kind c1 c3.
Proof. destruct c1, c2, c3; simpl; intros H1 H2; try discriminate; congruence || auto. Qed.

Lemma same_kind_schema s c : same_kind (CSchema s) c -> exists s', c = CSchema s'.
Proof. destruct c; simpl; intros H; try discriminate. eauto. Qed.

Lemma same_kind_schema_r c s : same_kind c (CSchema s) -> exists s', c = CSchema s'.
Proof. destruct c; simpl; intros H; try discriminate. eauto. Qed.

Lemma same_kind_props_r c e : same_kind c (CProperties e) -> exists e', c = CProperties e'.
Proof. destruct c; simpl; intros H; try discriminate. eauto. Qed.

Lemma same_kind_props e c : same_kind (CProperties e) c -> exists e', c = CProperties e'.
Proof. destruct c; simpl; intros H; try discriminate. eauto. Qed.

Lemma same_kind_holder_r c q : same_kind c (CSchemaOr q) -> c = CSchemaOr q.
Proof. destruct c; simpl; intros H; try discriminate; congruence. Qed.

Lemma same_kind_holder q c : same_kind (CSchemaOr q) c -> c = CSchemaOr q.
Proof. destruct c; simpl; intros H; try discriminate; congruence. Qed.

Lemma ev_back_holder X (h h' : heap) a q :
  ev X h h' -> a < length h -> h' !! a = Some (CSchemaOr q) -> h !! a = Some (CSchemaOr q).
Proof.
  intros He Ha H'. destruct (lookup_lt_is_Some_2 h a Ha) as [c Hc].
  destruct (ev_kind _ _ _ He a c Hc) as (c' & Hc' & Hk).
  rewrite H' in Hc'. injection Hc' as <-. apply same_kind_holder_r in Hk. congruence.
Qed.

Lemma ev_back_props X (h h' : heap) m e' :
  ev X h h' -> m < length h -> h' !! m = Some (CProperties e') ->
  exists e, h !! m = Some (CProperties e).
Proof.
  intros He Ha H'. destruct (lookup_lt_is_Some_2 h m Ha) as [c Hc].
  destruct (ev_kind _ _ _ He m c Hc) as (c' & Hc' & Hk).
  rewrite H' in Hc'. injection Hc' as <-. apply same_kind_props_r in Hk as [e ->]. eauto.
Qed.

Lemma ev_back_schema X (h h' : heap) l s' :
  ev X h h' -> l < length h -> h' !! l = Some (CSchema s') ->
  exists s, h !! l = Some (CSchema s).
Proof.
  intros He Ha H'. destruct (lookup_lt_is_Some_2 h l Ha) as [c Hc].
  destruct (ev_kind _ _ _ He l c Hc) as (c' & Hc' & Hk).
  rewrite H' in Hc'. injection Hc' as <-. apply same_kind_schema_r in Hk as [e ->]. eauto.
Qed.

Lemma ev_fwd_schema X (h h' : heap) l s :
  ev X h h' -> h !! l = Some (CSchema s) -> exists s', h' !! l = Some (CSchema s').
Proof.
  intros He Hl. destruct (ev_kind _ _ _ He l _ Hl) as (c' & Hc' & Hk).
  apply same_kind_schema in Hk as [s' ->]. eauto.
Qed.

Lemma ev_fwd_props X (h h' : heap) l e :
  ev X h h' -> h !! l = Some (CProperties e) -> exists e', h' !! l = Some (CProperties e').
Proof.
  intros He Hl. destruct (ev_kind _ _ _ He l _ Hl) as (c' & Hc' & Hk).
  apply same_kind_props in Hk as [s' ->]. eauto.
Qed.

Lemma ev_fwd_holder X (h h' : heap) l q :
  ev X h h' -> h !! l = Some (CSchemaOr q) -> h' !! l = Some (CSchemaOr q).
Proof.
  intros He Hl. destruct (ev_kind _ _ _ He l _ Hl) as (c' & Hc' & Hk).
  apply same_kind_holder in Hk as ->. exact Hc'.
Qed.

Lemma ev_refl X (h : heap) : ev X h h.
Proof.
  split.
  - lia.
  - intros l c Hl. exists c. split; [exact Hl|apply same_kind_refl].
  - intros l s s' Hl _ Hl'. left. congruence.
  - intros m e e' H1 H2. assert (e' = e) by congruence. subst. split; [reflexivity|]. auto.
  - intros a q Ha Hq. apply lookup_lt_Some in Hq. lia.
Qed.

Lemma ev_weaken (X X' : loc -> Prop) (h h' : heap) :
  (forall x, X x -> X' x) -> ev X h h' -> ev X' h h'.
Proof.
  intros HX He. split.
  - apply (ev_len _ _ _ He).
  - apply (ev_kind _ _ _ He).
  - intros l s s' Hl Hn Hl'. eapply (ev_schema _ _ _ He); eauto.
  - apply (ev_props _ _ _ He).
  - apply (ev_new _ _ _ He).
Qed.

(** What was inlined stays inlined. *)
Lemma inlined_ev X (h h' : heap) :
  closed h -> ev X h h' -> (forall x, X x -> ~ pointee h x) ->
  forall s n, visited h' s n -> within h s -> inlined h s -> notRef h' n.
Proof.
  intros Hc He HX s n Hv. induction Hv as [s|s c n Hch Hv IH]; intros Hw Hi.
  - apply (notRef_ev X h h' s Hc He Hw). apply inlined_root, Hi.
  - destruct Hch as [m entries' name v Hp Hm Hin|a q v Hp Ha Hq|a q v Hp Ha Hq].
    + pose proof (within_Properties h s m Hw Hp) as Hlt.
      destruct (ev_back_props X h h' m entries' He Hlt Hm) as [entries Hm0].
      destruct (ev_props _ _ _ He m entries entries' Hm0 Hm) as [_ Hvals].
      destruct (Hvals name v Hin) as [Hold|Hnew].
      * assert (Hch : child h s v) by (eapply child_property; eauto).
        apply IH; [eapply child_within; eauto|eapply inlined_child; eauto].
      * apply Hnew, Hv.
    + pose proof (within_Additional h s a Hw Hp) as Hlt.
      pose proof (ev_back_holder X h h' a (Some q) He Hlt Ha) as Ha0.
      pose proof (closed_pointee h a q Hc Ha0) as Hq0.
      destruct (ev_back_schema X h h' q v He Hq0 Hq) as [v0 Hv0].
      assert (Hch : child h s v0) by (eapply child_additional; eauto).
      assert (HnX : ~ X q) by (intros HXq; apply (HX q HXq); exists a; exact Ha0).
      destruct (ev_schema _ _ _ He q v0 v Hv0 HnX Hq) as [->|[Hnot _]].
      * apply IH; [eapply child_within; eauto|eapply inlined_child; eauto].
      * exfalso. apply Hnot. apply inlined_root. eapply inlined_child; eauto.
    + pose proof (within_Items h s a Hw Hp) as Hlt.
      pose proof (ev_back_holder X h h' a (Some q) He Hlt Ha) as Ha0.
      pose proof (closed_pointee h a q Hc Ha0) as Hq0.
      destruct (ev_back_schema X h h' q v He Hq0 Hq) as [v0 Hv0].
      assert (Hch : child h s v0) by (eapply child_items; eauto).
      assert (HnX : ~ X q) by (intros HXq; apply (HX q HXq); exists a; exact Ha0).
      destruct (ev_schema _ _ _ He q v0 v Hv0 HnX Hq) as [->|[Hnot _]].
      * apply IH; [eapply child_within; eauto|eapply inlined_child; eauto].
      * exfalso. apply Hnot. apply inlined_root. eapply inlined_child; eauto.
Qed.

Lemma inlined_pres X (h h' : heap) s :
  closed h -> ev X h h' -> (forall x, X x -> ~ pointee h x) ->
  within h s -> inlined h s -> inlined h' s.
Proof. intros Hc He HX Hw Hi n Hn. eapply inlined_ev; eauto. Qed.

Lemma ev_trans X (h h1 h2 : heap) :
  closed h -> closed h1 -> (forall x, X x -> ~ pointee h1 x) ->
  ev X h h1 -> ev X h1 h2 -> ev X h h2.
Proof.
  intros Hc Hc1 HX E1 E2. split.
  - pose proof (ev_len _ _ _ E1). pose proof (ev_len _ _ _ E2). lia.
  - intros l c Hl. destruct (ev_kind _ _ _ E1 l c Hl) as (c1 & Hl1 & K1).
    destruct (ev_kind _ _ _ E2 l c1 Hl1) as (c2 & Hl2 & K2).
    exists c2. split; [exact Hl2|eapply same_kind_trans; eauto].
  - intros l s s2 Hl HnX Hl2.
    destruct (ev_fwd_schema X h h1 l s E1 Hl) as [s1 Hl1].
    assert (Hws : within h s) by (eapply (closed_struct h l); eauto; left; reflexivity).
    assert (Hws1 : within h1 s1) by (eapply (closed_struct h1 l); eauto; left; reflexivity).
    destruct (ev_schema _ _ _ E1 l s s1 Hl HnX Hl1) as [Q1|[N1 R1]];
      destruct (ev_schema _ _ _ E2 l s1 s2 Hl1 HnX Hl2) as [Q2|[N2 R2]].
    + left; congruence.
    + right. split; [|exact R2]. intros Hn. apply N2. rewrite Q1.
      apply (notRef_ev X h h1 s Hc E1 Hws). exact Hn.
    + right. split; [exact N1|]. rewrite Q2.
      apply (notRef_ev X h1 h2 s1 Hc1 E2 Hws1). exact R1.
    + contradiction.
  - intros m e e2 Hm Hm2.
    destruct (ev_fwd_props X h h1 m e E1 Hm) as [e1 Hm1].
    destruct (ev_props _ _ _ E1 m e e1 Hm Hm1) as [K1 V1].
    destruct (ev_props _ _ _ E2 m e1 e2 Hm1 Hm2) as [K2 V2].
    split; [congruence|]. intros name v Hin.
    destruct (V2 name v Hin) as [Hold|Hnew]; [|right; exact Hnew].
    destruct (V1 name v Hold) as [Hold1|Hnew1]; [left; exact Hold1|].
    right. eapply (inlined_pres X h1 h2); eauto.
    eapply (closed_struct h1 m); eauto. simpl. apply in_map_iff. exists (name, v). auto.
  - intros a q Ha Hq. destruct (Nat.lt_ge_cases a (length h1)) as [Hlt|Hge].
    + pose proof (ev_back_holder X h1 h2 a (Some q) E2 Hlt Hq) as Hq1.
      apply (ev_new _ _ _ E1 a q Ha Hq1).
    + pose proof (ev_new _ _ _ E2 a q Hge Hq). pose proof (ev_len _ _ _ E1). lia.
Qed.

(** Exempt addresses that are not yet allocated exempt nothing. *)
Lemma ev_fresh (X : loc -> Prop) (h h' : heap) :
  (forall x, X x -> length h <= x) -> ev X h h' -> ev (fun _ => False) h h'.
Proof.
  intros HX He. split.
  - apply (ev_len _ _ _ He).
  - apply (ev_kind _ _ _ He).
  - intros l s s' Hl _ Hl'. eapply (ev_schema _ _ _ He); eauto.
    intros HXl. apply HX in HXl. apply lookup_lt_Some in Hl. lia.
  - apply (ev_props _ _ _ He).
  - apply (ev_new _ _ _ He).
Qed.

(** ** Single steps *)

Lemma ev_app X (h ext : heap) :
  (forall a q, length h <= a -> (h ++ ext) !! a = Some (CSchemaOr (Some q)) ->
     length h <= q) ->
  ev X h (h ++ ext).
Proof.
  intros Hnew. split.
  - rewrite length_app. lia.
  - intros l c Hl. exists c. split; [|apply same_kind_refl].
    rewrite lookup_app_l by (eapply lookup_lt_Some; eauto). exact Hl.
  - intros l s s' Hl _ Hl'. left.
    rewrite lookup_app_l in Hl' by (eapply lookup_lt_Some; eauto). congruence.
  - intros m e e' Hm Hm'.
    rewrite lookup_app_l in Hm' by (eapply lookup_lt_Some; eauto).
    assert (e' = e) by congruence. subst. split; [reflexivity|auto].
  - exact Hnew.
Qed.

Lemma ev_alloc_schema X (h : heap) s : ev X h (h ++ [CSchema s]).
Proof.
  apply ev_app. intros a q Ha Hq.
  rewrite lookup_app_r in Hq by exact Ha.
  destruct (a - length h) as [|k]; simpl in Hq; [discriminate|].
  rewrite lookup_nil in Hq. discriminate.
Qed.

Lemma wf_alloc_schema (h : heap) s : wf h -> within h s -> wf (h ++ [CSchema s]).
Proof.
  intros [Hc Hm] Hw. split.
  - intros l c Hl. rewrite length_app. simpl.
    apply lookup_app_Some in Hl as [Hl|[Hge Hl]].
    + specialize (Hc _ _ Hl). rewrite Forall_forall in *. intros x Hx.
      specialize (Hc x Hx). lia.
    + destruct (l - length h) as [|k]; simpl in Hl; [|rewrite lookup_nil in Hl; discriminate].
      injection Hl as <-. simpl. unfold within in Hw. rewrite Forall_forall in *.
      intros x Hx. specialize (Hw x Hx). lia.
  - intros l e Hl. apply lookup_app_Some in Hl as [Hl|[Hge Hl]]; [eapply Hm; eauto|].
    destruct (l - length h) as [|k]; simpl in Hl; [discriminate|].
    rewrite lookup_nil in Hl. discriminate.
Qed.

Lemma within_zero (h : heap) : within h zeroSchema.
Proof. unfold within, zeroSchema, schema_locs. simpl. constructor. Qed.

Lemma refOf_insert (h : heap) l c c' :
  closed h -> h !! l = Some c ->
  (forall elems, c <> CAllOf elems) -> (forall elems, c' <> CAllOf elems) ->
  forall f s, within h s -> refOf f (<[l := c']> h) s = refOf f h s.
Proof.
  intros Hc Hl N N'. apply refOf_agree.
  - intros a elems Ha. destruct (Nat.eq_dec a l) as [->|Hne].
    + rewrite list_lookup_insert_eq by exact Ha. rewrite Hl.
      split; intros E; injection E as E; [destruct (N _ E)|destruct (N' _ E)].
    + rewrite list_lookup_insert_ne by auto. tauto.
  - intros a elems _ Ha. eapply closed_allOf; eauto.
Qed.

Lemma notRef_insert (h : heap) l c c' s :
  closed h -> h !! l = Some c ->
  (forall elems, c <> CAllOf elems) -> (forall elems, c' <> CAllOf elems) ->
  within h s -> (notRef (<[l := c']> h) s <-> notRef h s).
Proof.
  intros Hc Hl N N' Hw. unfold notRef.
  split; intros [f Hf]; exists f.
  - rewrite <- (refOf_insert h l c c' Hc Hl N N' f s Hw). exact Hf.
  - rewrite (refOf_insert h l c c' Hc Hl N N' f s Hw). exact Hf.
Qed.

Lemma wf_store_schema (h : heap) l s1 s2 :
  wf h -> h !! l = Some (CSchema s1) -> within h s2 -> wf (<[l := CSchema s2]> h).
Proof.
  intros [Hc Hm] Hl Hw. pose proof (lookup_lt_Some _ _ _ Hl) as Hlt. split.
  - intros a c Ha. rewrite length_insert.
    destruct (Nat.eq_dec a l) as [->|Hne].
    + rewrite list_lookup_insert_eq in Ha by exact Hlt. injection Ha as <-. exact Hw.
    + rewrite list_lookup_insert_ne in Ha by auto. eapply Hc; eauto.
  - intros a e Ha. destruct (Nat.eq_dec a l) as [->|Hne].
    + rewrite list_lookup_insert_eq in Ha by exact Hlt. discriminate.
    + rewrite list_lookup_insert_ne in Ha by auto. eapply Hm; eauto.
Qed.

Lemma ev_store_schema (X : loc -> Prop) (h : heap) l s1 s2 :
  closed h -> h !! l = Some (CSchema s1) -> within h s2 ->
  X l \/ (~ notRef h s1 /\ notRef h s2) ->
  ev X h (<[l := CSchema s2]> h).
Proof.
  intros Hc Hl Hw Hor. pose proof (lookup_lt_Some _ _ _ Hl) as Hlt. split.
  - rewrite length_insert. lia.
  - intros a c Ha. destruct (Nat.eq_dec a l) as [->|Hne].
    + rewrite list_lookup_insert_eq by exact Hlt. exists (CSchema s2).
      split; [reflexivity|]. assert (c = CSchema s1) by congruence. subst. exact I.
    + rewrite list_lookup_insert_ne by auto. exists c. split; [exact Ha|apply same_kind_refl].
  - intros a s s' Ha HnX Ha'. destruct (Nat.eq_dec a l) as [->|Hne].
    + rewrite list_lookup_insert_eq in Ha' by exact Hlt.
      assert (s = s1) by congruence. assert (s' = s2) by congruence. subst.
      destruct Hor as [HX|[N R]]; [contradiction|]. right. split; [exact N|].
      apply (notRef_insert h l _ (CSchema _) _ Hc Hl); try discriminate; auto.
    + rewrite list_lookup_insert_ne in Ha' by auto. left. congruence.
  - intros m e e' Hm Hm'. destruct (Nat.eq_dec m l) as [->|Hne].
    + congruence.
    + rewrite list_lookup_insert_ne in Hm' by auto.
      assert (e' = e) by congruence. subst. split; [reflexivity|auto].
  - intros a q Ha Hq. apply lookup_lt_Some in Hq.
    rewrite length_insert in Hq. lia.
Qed.
(** ** The write [schema.Properties[name] = prop] *)

Lemma In_assocSet name (v' : Schema) entries k c :
  In (k, c) (assocSet String.eqb name v' entries) ->
  In (k, c) entries \/ c = v'.
Proof.
  induction entries as [|[k0 w] rest IH]; simpl.
  - intros [E|[]]. right. congruence.
  - destruct (String.eqb k0 name).
    + intros [E|H]; [right; congruence|left; right; exact H].
    + intros [E|H]; [left; left; exact E|].
      destruct (IH H) as [H'|H']; [left; right; exact H'|right; exact H'].
Qed.

Lemma assocSet_keys name (v' : Schema) entries :
  In name (map fst entries) ->
  map fst (assocSet String.eqb name v' entries) = map fst entries.
Proof.
  induction entries as [|[k0 w] rest IH]; simpl; [intros []|].
  destruct (String.eqb k0 name) eqn:E; [reflexivity|].
  intros [H|H]; [apply String.eqb_neq in E; congruence|].
  simpl. f_equal. apply IH, H.
Qed.

Lemma assocSet_value name (v' : Schema) entries v :
  NoDup (map fst entries) ->
  In (name, v) (assocSet String.eqb name v' entries) -> v = v'.
Proof.
  induction entries as [|[k0 w] rest IH]; simpl; intros Hnd.
  - intros [E|[]]. congruence.
  - apply list.NoDup_cons in Hnd as [Hnin Hnd']. rewrite list_elem_of_In in Hnin.
    destruct (String.eqb k0 name) eqn:E.
    + apply String.eqb_eq in E. subst k0.
      intros [E'|H]; [congruence|]. exfalso. apply Hnin.
      apply in_map_iff. exists (name, v). auto.
    + apply String.eqb_neq in E.
      intros [E'|H]; [congruence|]. apply IH; assumption.
Qed.

Lemma assoc_In name (entries : list (string * Schema)) v :
  assoc name entries = Some v -> In (name, v) entries.
Proof.
  induction entries as [|[k0 w] rest IH]; simpl; [discriminate|].
  destruct (String.eqb k0 name) eqn:E.
  - apply String.eqb_eq in E. subst. intros H. injection H as ->. left; reflexivity.
  - intros H. right. apply IH, H.
Qed.

Lemma In_assoc name (entries : list (string * Schema)) :
  In name (map fst entries) -> exists v, assoc name entries = Some v.
Proof.
  induction entries as [|[k0 w] rest IH]; simpl; [intros []|].
  destruct (String.eqb k0 name) eqn:E; [eauto|].
  intros [H|H]; [apply String.eqb_neq in E; congruence|]. apply IH, H.
Qed.

Section StoreMap.
Variable h : heap.
Variables (m : loc) (entries : list (string * Schema)) (name : string) (v' : Schema).
Hypothesis Hc : closed h.
Hypothesis Hm : h !! m = Some (CProperties entries).
Hypothesis Hw' : within h v'.
Hypothesis Hi' : inlined h v'.

Lemma store_map_other l c :
  (<[m := CProperties (assocSet String.eqb name v' entries)]> h) !! l = Some c ->
  (forall e, c <> CProperties e) -> h !! l = Some c.
Proof.
  intros Hl Hn. destruct (Nat.eq_dec l m) as [->|Hne].
  - rewrite list_lookup_insert_eq in Hl by (eapply lookup_lt_Some; eauto).
    injection Hl as <-. destruct (Hn _ eq_refl).
  - rewrite list_lookup_insert_ne in Hl by auto. exact Hl.
Qed.

Lemma visited_store_map s n :
  visited (<[m := CProperties (assocSet String.eqb name v' entries)]> h) s n ->
  within h s -> inlined h s -> within h n /\ notRef h n.
Proof.
  intros Hv. induction Hv as [s|s c n Hch Hv IH]; intros Hw Hi.
  - split; [exact Hw|apply inlined_root, Hi].
  - assert (Hold : child h s c \/ c = v').
    { destruct Hch as [m0 e0 k v Hp Hm0 Hin|a q v Hp Ha Hq|a q v Hp Ha Hq].
      - destruct (Nat.eq_dec m0 m) as [->|Hne].
        + rewrite list_lookup_insert_eq in Hm0 by (eapply lookup_lt_Some; eauto).
          injection Hm0 as <-. apply In_assocSet in Hin as [Hin| ->]; [|right; reflexivity].
          left. eapply child_property; eauto.
        + rewrite list_lookup_insert_ne in Hm0 by auto.
          left. eapply child_property; eauto.
      - left. apply (child_additional h s a q v Hp);
          apply store_map_other; try assumption; intros; discriminate.
      - left. apply (child_items h s a q v Hp);
          apply store_map_other; try assumption; intros; discriminate. }
    destruct Hold as [Hold| ->].
    + apply IH; [eapply child_within; eauto|eapply inlined_child; eauto].
    + apply IH; assumption.
Qed.

Lemma notRef_store_map s :
  within h s ->
  (notRef (<[m := CProperties (assocSet String.eqb name v' entries)]> h) s <-> notRef h s).
Proof.
  intros Hw.
  apply (notRef_insert h m (CProperties entries)); auto; discriminate.
Qed.

Lemma inlined_store_map s :
  within h s -> inlined h s ->
  inlined (<[m := CProperties (assocSet String.eqb name v' entries)]> h) s.
Proof.
  intros Hw Hi n Hn. destruct (visited_store_map s n Hn Hw Hi) as [Hwn Hnn].
  apply notRef_store_map; assumption.
Qed.

Lemma wf_store_map :
  maps_wf h -> In name (map fst entries) ->
  wf (<[m := CProperties (assocSet String.eqb name v' entries)]> h).
Proof.
  intros Hmw Hin. pose proof (lookup_lt_Some _ _ _ Hm) as Hlt. split.
  - intros a c Ha. rewrite length_insert.
    destruct (Nat.eq_dec a m) as [->|Hne].
    + rewrite list_lookup_insert_eq in Ha by exact Hlt. injection Ha as <-.
      simpl. apply Forall_forall. intros x Hx. apply in_flat_map in Hx as [[k c] [Hkc Hx]].
      simpl in Hx. apply In_assocSet in Hkc as [Hkc| ->].
      * specialize (Hc _ _ Hm). simpl in Hc. rewrite Forall_forall in Hc. apply Hc.
        apply in_flat_map. exists (k, c). auto.
      * unfold within in Hw'. rewrite Forall_forall in Hw'. apply Hw', Hx.
    + rewrite list_lookup_insert_ne in Ha by auto. eapply Hc; eauto.
  - intros a e Ha. destruct (Nat.eq_dec a m) as [->|Hne].
    + rewrite list_lookup_insert_eq in Ha by exact Hlt. injection Ha as <-.
      rewrite assocSet_keys by exact Hin. eapply Hmw; eauto.
    + rewrite list_lookup_insert_ne in Ha by auto. eapply Hmw; eauto.
Qed.

Lemma ev_store_map X :
  In name (map fst entries) ->
  ev X h (<[m := CProperties (assocSet String.eqb name v' entries)]> h).
Proof.
  intros Hin. pose proof (lookup_lt_Some _ _ _ Hm) as Hlt. split.
  - rewrite length_insert. lia.
  - intros a c Ha. destruct (Nat.eq_dec a m) as [->|Hne].
    + rewrite list_lookup_insert_eq by exact Hlt. eexists. split; [reflexivity|].
      assert (c = CProperties entries) by congruence. subst. exact I.
    + rewrite list_lookup_insert_ne by auto. exists c. split; [exact Ha|apply same_kind_refl].
  - intros a s s' Ha _ Ha'. left. apply store_map_other in Ha'; [congruence|discriminate].
  - intros a e e' Ha Ha'. destruct (Nat.eq_dec a m) as [->|Hne].
    + rewrite list_lookup_insert_eq in Ha' by exact Hlt. injection Ha' as <-.
      assert (e = entries) by congruence. subst e.
      split; [apply assocSet_keys, Hin|].
      intros k c Hkc. apply In_assocSet in Hkc as [Hkc| ->]; [left; exact Hkc|].
      right. apply inlined_store_map; assumption.
    + rewrite list_lookup_insert_ne in Ha' by auto.
      assert (e' = e) by congruence. subst. split; [reflexivity|auto].
  - intros a q Ha Hq. apply lookup_lt_Some in Hq.
    rewrite length_insert in Hq. lia.
Qed.

End StoreMap.

(** ** Steps of a computation that returned *)

Lemma bindM_Ok {A B} (c : M A) (k : A -> M B) (h h' : heap) b :
  bindM c k h = (h', Ok b) ->
  exists h1 a, c h = (h1, Ok a) /\ k a h1 = (h', Ok b).
Proof.
  unfold bindM. destruct (c h) as [h1 [a|e|]]; intros H; try discriminate.
  eauto.
Qed.

Lemma loadSchema_Ok p (h h' : heap) s :
  loadSchema p h = (h', Ok s) -> h' = h /\ h !! p = Some (CSchema s).
Proof.
  unfold loadSchema, read, schemaAt. intros H. injection H as <- H.
  split; [reflexivity|]. destruct (h !! p) as [[]|]; try discriminate. congruence.
Qed.

Lemma loadProperties_Ok m (h h' : heap) e :
  loadProperties m h = (h', Ok e) -> h' = h /\ h !! m = Some (CProperties e).
Proof.
  unfold loadProperties, read. intros H. injection H as <- H.
  split; [reflexivity|]. destruct (h !! m) as [[]|]; try discriminate. congruence.
Qed.

Lemma loadSchemaOr_Ok a (h h' : heap) q :
  loadSchemaOr a h = (h', Ok q) -> h' = h /\ h !! a = Some (CSchemaOr q).
Proof.
  unfold loadSchemaOr, read. intros H. injection H as <- H.
  split; [reflexivity|]. destruct (h !! a) as [[]|]; try discriminate. congruence.
Qed.

Lemma read_Ok {A} (f : heap -> res A) (h h' : heap) a :
  read f h = (h', Ok a) -> h' = h /\ f h = Ok a.
Proof. unfold read. intros H. injection H as <- H. auto. Qed.

Lemma store_Ok l c (h h' : heap) u :
  store l c h = (h', Ok u) -> h' = <[l := c]> h.
Proof. unfold store. intros H. injection H as <-. reflexivity. Qed.

Lemma alloc_Ok c (h h' : heap) l :
  alloc c h = (h', Ok l) -> h' = h ++ [c] /\ l = length h.
Proof. unfold alloc. intros H. injection H as <- <-. auto. Qed.

Lemma ret_Ok {A} (a b : A) (h h' : heap) : ret a h = (h', Ok b) -> h' = h /\ b = a.
Proof. unfold ret. intros H. injection H as <- <-. auto. Qed.
(** ** The run *)

Section Run.
Variable schemaOf : lookup_fn.
Variable J : heap -> Prop.
Variable n0 : nat.
Hypothesis Hlook : lookup_ok J schemaOf.
Hypothesis Hstable : stable n0 J.

Lemma none_exempt (h : heap) : forall x : loc, False -> ~ pointee h x.
Proof. intros x []. Qed.

Lemma replaceIfRef_ok fuel p (h hb : heap) :
  wf h -> J h -> replaceIfRef fuel schemaOf p h = (hb, Ok tt) ->
  wf hb /\ ev (fun _ => False) h hb
  /\ exists sb, hb !! p = Some (CSchema sb) /\ notRef hb sb.
Proof.
  intros Hwf HJ H. unfold replaceIfRef in H.
  apply bindM_Ok in H as (h1 & s & H1 & H). apply loadSchema_Ok in H1 as [-> Hp].
  apply bindM_Ok in H as (h1 & r & H1 & H). apply read_Ok in H1 as [-> Hr].
  destruct Hwf as [Hc Hm].
  assert (Hws : within h s) by (eapply (closed_struct h p); eauto; left; reflexivity).
  destruct (snd r) eqn:Er.
  - apply bindM_Ok in H as (h1 & found & H1 & H).
    destruct found as [resolved|]; [|discriminate].
    apply bindM_Ok in H as (h2 & rv & H2 & H). apply loadSchema_Ok in H2 as [-> Hrv].
    apply store_Ok in H. subst hb.
    destruct (Hlook (fst r) h HJ (conj Hc Hm)) as (ext & Hext & [Hc1 Hm1] & Hnew & Hfound).
    rewrite H1 in Hext, Hfound. simpl in Hext, Hfound. subst h1.
    destruct (Hfound resolved eq_refl) as (rv' & Hrv' & Hnr).
    assert (rv' = rv) by congruence. subst rv'.
    assert (E1 : ev (fun _ => False) h (h ++ ext)) by (apply ev_app, Hnew).
    assert (Hp1 : (h ++ ext) !! p = Some (CSchema s)).
    { rewrite lookup_app_l by (eapply lookup_lt_Some; eauto). exact Hp. }
    assert (Hwrv : within (h ++ ext) rv)
      by (eapply (closed_struct (h ++ ext) resolved); eauto; left; reflexivity).
    assert (Hn1 : ~ notRef (h ++ ext) s).
    { intros Hn. apply (notRef_ev _ h (h ++ ext) s Hc E1 Hws) in Hn.
      eapply isRef_not_notRef; eauto. }
    split; [eapply wf_store_schema; eauto; split; assumption|].
    split.
    + eapply ev_trans; [exact Hc|exact Hc1|apply none_exempt|exact E1|].
      eapply ev_store_schema; eauto.
    + exists rv. split.
      * apply list_lookup_insert_eq. eapply lookup_lt_Some; eauto.
      * apply (notRef_insert (h ++ ext) p (CSchema s) (CSchema rv) rv Hc1 Hp1);
          try discriminate; auto.
  - apply ret_Ok in H as [-> _]. split; [split; assumption|].
    split; [apply ev_refl|]. exists s. split; [exact Hp|].
    eapply refOf_false; eauto.
Qed.

Lemma J_ev (X : loc -> Prop) (h h' : heap) :
  J h -> wf h -> wf h' -> ev X h h' -> (forall x, X x -> n0 <= x) -> J h'.
Proof. intros. eapply Hstable; eauto. Qed.

Lemma populateNested_ok f o (h h' : heap) :
  call_ok J n0 f -> wf h -> J h -> n0 <= length h ->
  populateNested f o h = (h', Ok tt) ->
  wf h' /\ ev (fun _ => False) h h'
  /\ forall a q v, o = Some a -> h' !! a = Some (CSchemaOr (Some q)) ->
       h' !! q = Some (CSchema v) -> inlined h' v.
Proof.
  intros Hf Hwf HJ Hn H. unfold populateNested in H.
  destruct o as [a|].
  - apply bindM_Ok in H as (h1 & q0 & H1 & H). apply loadSchemaOr_Ok in H1 as [-> Ha].
    destruct q0 as [q0|].
    + destruct (Hf q0 h h' Hwf HJ Hn H) as (Hwf' & He & s' & Hq & Hi).
      split; [exact Hwf'|]. split; [exact He|].
      intros a' q v Ea Ha' Hq'. injection Ea as <-.
      pose proof (ev_fwd_holder _ h h' a (Some q0) He Ha) as Ha2.
      assert (q = q0) by congruence. subst q.
      assert (v = s') by congruence. subst v. exact Hi.
    + apply ret_Ok in H as [-> _]. split; [exact Hwf|]. split; [apply ev_refl|].
      intros a' q v Ea Ha' _. congruence.
  - apply ret_Ok in H as [-> _]. split; [exact Hwf|]. split; [apply ev_refl|].
    intros a q v Ea. discriminate.
Qed.

Lemma not_pointee_insert (h : heap) l c x :
  (forall q, c <> CSchemaOr q) -> ~ pointee h x -> ~ pointee (<[l := c]> h) x.
Proof.
  intros Hc Hn [a Ha]. apply Hn. exists a.
  destruct (Nat.eq_dec a l) as [->|Hne].
  - apply list_lookup_insert_Some in Ha as [[_ [E _]]|[Hne _]]; [|congruence].
    destruct (Hc _ E).
  - rewrite list_lookup_insert_ne in Ha by auto. exact Ha.
Qed.

Lemma not_pointee_ev (h h' : heap) x :
  ev (fun _ => False) h h' -> x < length h -> ~ pointee h x -> ~ pointee h' x.
Proof.
  intros He Hx Hn [a Ha]. destruct (Nat.lt_ge_cases a (length h)) as [Hlt|Hge].
  - apply Hn. exists a. eapply ev_back_holder; eauto.
  - pose proof (ev_new _ _ _ He a x Hge Ha). lia.
Qed.

Lemma schema_kept (h h' : heap) p sb :
  closed h -> ev (fun _ => False) h h' -> h !! p = Some (CSchema sb) -> notRef h sb ->
  h' !! p = Some (CSchema sb) /\ notRef h' sb.
Proof.
  intros Hc He Hp Hn.
  destruct (ev_fwd_schema _ h h' p sb He Hp) as [s' Hp'].
  assert (Hw : within h sb) by (eapply (closed_struct h p); eauto; left; reflexivity).
  destruct (ev_schema _ _ _ He p sb s' Hp (fun x => x) Hp') as [->|[N _]]; [|contradiction].
  split; [exact Hp'|]. apply (notRef_ev _ h h' sb Hc He Hw). exact Hn.
Qed.

Lemma rangeProperties_ok f p m prop sb :
  call_ok J n0 f -> p <> prop -> Properties sb = Some m -> n0 <= prop ->
  forall names (hc h' : heap),
    wf hc -> J hc ->
    (exists v0, hc !! prop = Some (CSchema v0)) -> ~ pointee hc prop ->
    hc !! p = Some (CSchema sb) -> notRef hc sb ->
    (exists e, hc !! m = Some (CProperties e)
               /\ forall name, In name names -> In name (map fst e)) ->
    rangeProperties f p m prop names hc = (h', Ok tt) ->
    wf h' /\ ev (eq prop) hc h' /\ ~ pointee h' prop
    /\ forall e' name v, h' !! m = Some (CProperties e') -> In name names ->
         In (name, v) e' -> inlined h' v.
Proof.
  intros Hf Hpp HP Hn0. induction names as [|name rest IH];
    intros hc h' Hwf HJ [v0 Hprop] Hnp Hp Hnr (e & Hm & Hkeys) H.
  - simpl in H. apply ret_Ok in H as [-> _].
    split; [exact Hwf|]. split; [apply ev_refl|]. split; [exact Hnp|].
    intros e' name v _ [].
  - cbn [rangeProperties] in H.
    apply bindM_Ok in H as (hx & entries & H1 & H).
    apply loadProperties_Ok in H1 as [-> Hm'].
    assert (entries = e) by congruence. subst entries. clear Hm'.
    destruct (In_assoc name e (Hkeys name (or_introl eq_refl))) as [v Hv].
    rewrite Hv in H.
    apply bindM_Ok in H as (h1 & u1 & H1 & H). apply store_Ok in H1.
    apply bindM_Ok in H as (h2 & u2 & H2 & H). destruct u2.
    apply bindM_Ok in H as (hx & v' & H3 & H). apply loadSchema_Ok in H3 as [-> Hv'].
    apply bindM_Ok in H as (hx & s1 & H4 & H). apply loadSchema_Ok in H4 as [-> Hs1].
    destruct Hwf as [Hc Hmw].
    pose proof (lookup_lt_Some _ _ _ Hprop) as Hplt.
    assert (Hmp : m <> prop) by (intros ->; congruence).
    assert (Hwv : within hc v).
    { eapply (closed_struct hc m); eauto. simpl. apply in_map_iff.
      exists (name, v). split; [reflexivity|apply assoc_In, Hv]. }
    assert (Hwsb : within hc sb) by (eapply (closed_struct hc p); eauto; left; reflexivity).
    (* the assignment to the loop variable *)
    assert (Hwf1 : wf h1) by (subst h1; eapply wf_store_schema; eauto; split; assumption).
    assert (E01 : ev (eq prop) hc h1)
      by (subst h1; eapply ev_store_schema; eauto).
    assert (HJ1 : J h1).
    { eapply (J_ev (eq prop) hc h1); eauto; [split; assumption|]. intros x <-. exact Hn0. }
    assert (Hnp1 : ~ pointee h1 prop)
      by (subst h1; apply not_pointee_insert; [discriminate|exact Hnp]).
    assert (Hp1 : h1 !! p = Some (CSchema sb))
      by (subst h1; rewrite list_lookup_insert_ne by auto; exact Hp).
    assert (Hm1 : h1 !! m = Some (CProperties e))
      by (subst h1; rewrite list_lookup_insert_ne by auto; exact Hm).
    assert (Hnr1 : notRef h1 sb).
    { subst h1. apply (notRef_insert hc prop (CSchema v0) (CSchema v) sb Hc Hprop);
        try discriminate; auto. }
    assert (Hlen1 : length h1 = length hc) by (subst h1; apply length_insert).
    (* the call on the loop variable *)
    assert (Hn1 : n0 <= length h1) by lia.
    destruct (Hf prop h1 h2 Hwf1 HJ1 Hn1 H2) as (Hwf2 & E12 & s' & Hprop2 & Hi2).
    assert (s' = v') by congruence. subst s'.
    destruct Hwf1 as [Hc1 Hmw1].
    assert (HJ2 : J h2).
    { eapply (J_ev (fun _ => False) h1 h2); eauto; [split; assumption|]. intros x []. }
    assert (Hnp2 : ~ pointee h2 prop) by (eapply not_pointee_ev; eauto; lia).
    destruct (schema_kept h1 h2 p sb Hc1 E12 Hp1 Hnr1) as [Hp2 Hnr2].
    assert (s1 = sb) by congruence. subst s1. rewrite HP in H.
    apply bindM_Ok in H as (hx & entries1 & H5 & H).
    apply loadProperties_Ok in H5 as [-> Hm2].
    apply bindM_Ok in H as (h3 & u3 & H6 & H). apply store_Ok in H6.
    destruct (ev_props _ _ _ E12 m e entries1 Hm1 Hm2) as [Hk12 _].
    assert (Hin1 : In name (map fst entries1))
      by (rewrite Hk12; apply Hkeys; left; reflexivity).
    destruct Hwf2 as [Hc2 Hmw2].
    assert (Hwv' : within h2 v')
      by (eapply (closed_struct h2 prop); eauto; left; reflexivity).
    (* the write to the map *)
    assert (Hwf3 : wf h3) by (subst h3; eapply wf_store_map; eauto).
    assert (E23 : ev (eq prop) h2 h3) by (subst h3; eapply ev_store_map; eauto).
    assert (HJ3 : J h3).
    { eapply (J_ev (eq prop) h2 h3); eauto; [split; assumption|]. intros x <-. exact Hn0. }
    assert (Hnp3 : ~ pointee h3 prop)
      by (subst h3; apply not_pointee_insert; [discriminate|exact Hnp2]).
    assert (Hmp2 : m <> p) by (intros ->; congruence).
    assert (Hp3 : h3 !! p = Some (CSchema sb))
      by (subst h3; rewrite list_lookup_insert_ne by auto; exact Hp2).
    assert (Hprop3 : h3 !! prop = Some (CSchema v'))
      by (subst h3; rewrite list_lookup_insert_ne by auto; exact Hprop2).
    assert (Hwsb2 : within h2 sb) by (eapply (closed_struct h2 p); eauto; left; reflexivity).
    assert (Hnr3 : notRef h3 sb).
    { subst h3. apply (notRef_store_map h2 m entries1 name v' Hc2 Hm2 sb Hwsb2). exact Hnr2. }
    assert (Hm3 : h3 !! m = Some (CProperties (assocSet String.eqb name v' entries1))).
    { subst h3. apply list_lookup_insert_eq. eapply lookup_lt_Some; eauto. }
    assert (Hi3 : inlined h3 v').
    { subst h3. apply (inlined_store_map h2 m entries1 name v' Hc2 Hm2 Hwv' Hi2 v' Hwv' Hi2). }
    (* the rest of the loop *)
    assert (Hkeys3 : exists e3, h3 !! m = Some (CProperties e3)
                       /\ forall k, In k rest -> In k (map fst e3)).
    { eexists. split; [exact Hm3|]. intros k Hk.
      rewrite assocSet_keys by exact Hin1. rewrite Hk12. apply Hkeys. right. exact Hk. }
    destruct (IH h3 h' Hwf3 HJ3 (ex_intro _ v' Hprop3) Hnp3 Hp3 Hnr3 Hkeys3 H)
      as (Hwf' & E3 & Hnp' & Hvals).
    destruct Hwf3 as [Hc3 Hmw3].
    assert (E13 : ev (eq prop) h1 h3).
    { eapply (ev_trans (eq prop) h1 h2 h3); eauto.
      - intros x <-. exact Hnp2.
      - eapply ev_weaken; [|exact E12]. intros x []. }
    assert (E03 : ev (eq prop) hc h3).
    { eapply (ev_trans (eq prop) hc h1 h3); eauto. intros x <-. exact Hnp1. }
    assert (E0' : ev (eq prop) hc h').
    { eapply (ev_trans (eq prop) hc h3 h'); eauto. intros x <-. exact Hnp3. }
    split; [exact Hwf'|]. split; [exact E0'|]. split; [exact Hnp'|].
    intros e' k w He' [<-|Hk] Hkw; [|eapply Hvals; eauto].
    destruct (ev_props _ _ _ E3 m _ e' Hm3 He') as [_ Hv3].
    destruct (Hv3 name w Hkw) as [Hold|Hnew]; [|exact Hnew].
    apply assocSet_value in Hold; [|eapply Hmw2; eauto]. subst w.
    eapply (inlined_pres (eq prop) h3 h'); eauto.
    + intros x <-. exact Hnp3.
    + eapply (closed_struct h3 prop); eauto. left. reflexivity.
Qed.

Lemma populateProperties_ok f p sb (hb hP : heap) :
  call_ok J n0 f -> wf hb -> J hb -> n0 <= length hb ->
  hb !! p = Some (CSchema sb) -> notRef hb sb ->
  populateProperties f p hb = (hP, Ok tt) ->
  wf hP /\ ev (fun _ => False) hb hP
  /\ forall m e' name v, Properties sb = Some m -> hP !! m = Some (CProperties e') ->
       In (name, v) e' -> inlined hP v.
Proof.
  intros Hf Hwf HJ Hn Hp Hnr H. unfold populateProperties in H.
  apply bindM_Ok in H as (hx & s & H1 & H). apply loadSchema_Ok in H1 as [-> Hs].
  assert (s = sb) by congruence. subst s.
  destruct (Properties sb) as [m|] eqn:HP.
  - apply bindM_Ok in H as (hx & entries & H1 & H).
    apply loadProperties_Ok in H1 as [-> Hm].
    apply bindM_Ok in H as (ha & prop & H1 & H). apply alloc_Ok in H1 as [-> ->].
    destruct Hwf as [Hc Hmw].
    pose proof (lookup_lt_Some _ _ _ Hp) as Hplt.
    set (ha := hb ++ [CSchema zeroSchema]) in *.
    assert (Hwfa : wf ha) by (apply wf_alloc_schema; [split; assumption|apply within_zero]).
    assert (Ea : ev (eq (length hb)) hb ha) by apply ev_alloc_schema.
    assert (HJa : J ha).
    { eapply (J_ev (eq (length hb)) hb ha); eauto; [split; assumption|]. intros x <-. exact Hn. }
    assert (Hpropa : ha !! length hb = Some (CSchema zeroSchema)).
    { unfold ha. rewrite lookup_app_r by lia. rewrite Nat.sub_diag. reflexivity. }
    assert (Hnpa : ~ pointee ha (length hb)).
    { intros [a Ha]. unfold ha in Ha. apply lookup_app_Some in Ha as [Ha|[Hge Ha]].
      - pose proof (closed_pointee hb a _ Hc Ha). lia.
      - destruct (a - length hb) as [|k]; simpl in Ha; [discriminate|].
        rewrite lookup_nil in Ha. discriminate. }
    assert (Hpa : ha !! p = Some (CSchema sb))
      by (unfold ha; rewrite lookup_app_l by lia; exact Hp).
    assert (Hma : ha !! m = Some (CProperties entries)).
    { unfold ha. rewrite lookup_app_l by (eapply lookup_lt_Some; eauto). exact Hm. }
    assert (Hwsb : within hb sb) by (eapply (closed_struct hb p); eauto; left; reflexivity).
    assert (Hnra : notRef ha sb) by (apply (notRef_ev _ hb ha sb Hc Ea Hwsb); exact Hnr).
    assert (Hpp : p <> length hb) by lia.
    assert (Hkeys : exists e, ha !! m = Some (CProperties e)
                      /\ forall name, In name (map fst entries) -> In name (map fst e))
      by (exists entries; split; [exact Hma|auto]).
    destruct (rangeProperties_ok f p m (length hb) sb Hf Hpp HP Hn (map fst entries) ha hP
                Hwfa HJa (ex_intro _ _ Hpropa) Hnpa Hpa Hnra Hkeys H)
      as (HwfP & EP & HnpP & Hvals).
    split; [exact HwfP|].
    assert (EbP : ev (eq (length hb)) hb hP).
    { destruct Hwfa as [Hca _]. eapply (ev_trans _ hb ha hP); eauto. intros x <-. exact Hnpa. }
    split.
    + eapply ev_fresh; [|exact EbP]. intros x <-. lia.
    + intros m' e' name v Em He' Hin. injection Em as <-.
      destruct (ev_props _ _ _ EbP m entries e' Hm He') as [Hk _].
      eapply Hvals; eauto. rewrite <- Hk. apply in_map_iff. exists (name, v). auto.
  - apply ret_Ok in H as [-> _]. split; [exact Hwf|]. split; [apply ev_refl|].
    intros m e' name v Em. discriminate.
Qed.

Lemma populateRefs_ok : forall fuel, call_ok J n0 (populateRefs fuel schemaOf).
Proof.
  induction fuel as [|fuel IH]; intros p h h' Hwf HJ Hn H; [discriminate|].
  cbn [populateRefs] in H.
  apply bindM_Ok in H as (hb & u & H1 & H). destruct u.
  destruct (replaceIfRef_ok fuel p h hb Hwf HJ H1) as (Hwfb & Eb & sb & Hpb & Hnrb).
  assert (HJb : J hb) by (eapply (J_ev (fun _ => False) h hb); eauto; intros x []).
  assert (Hnb : n0 <= length hb) by (pose proof (ev_len _ _ _ Eb); lia).
  apply bindM_Ok in H as (hP & u & H2 & H). destruct u.
  destruct (populateProperties_ok _ p sb hb hP IH Hwfb HJb Hnb Hpb Hnrb H2)
    as (HwfP & EP & HvalsP).
  assert (HJP : J hP) by (eapply (J_ev (fun _ => False) hb hP); eauto; intros x []).
  assert (HnP : n0 <= length hP) by (pose proof (ev_len _ _ _ EP); lia).
  destruct (schema_kept hb hP p sb (proj1 Hwfb) EP Hpb Hnrb) as [HpP HnrP].
  apply bindM_Ok in H as (hx & s2 & H3 & H). apply loadSchema_Ok in H3 as [-> Hs2].
  assert (s2 = sb) by congruence. subst s2.
  apply bindM_Ok in H as (hA & u & H4 & H). destruct u.
  destruct (populateNested_ok _ _ hP hA IH HwfP HJP HnP H4) as (HwfA & EA & HvalA).
  assert (HJA : J hA) by (eapply (J_ev (fun _ => False) hP hA); eauto; intros x []).
  assert (HnA : n0 <= length hA) by (pose proof (ev_len _ _ _ EA); lia).
  destruct (schema_kept hP hA p sb (proj1 HwfP) EA HpP HnrP) as [HpA HnrA].
  apply bindM_Ok in H as (hx & s3 & H5 & H). apply loadSchema_Ok in H5 as [-> Hs3].
  assert (s3 = sb) by congruence. subst s3.
  destruct (populateNested_ok _ _ hA h' IH HwfA HJA HnA H) as (Hwf' & EI & HvalI).
  destruct (schema_kept hA h' p sb (proj1 HwfA) EI HpA HnrA) as [Hp' Hnr'].
  assert (EP' : ev (fun _ => False) hP h')
    by exact (ev_trans _ hP hA h' (proj1 HwfP) (proj1 HwfA) (none_exempt hA) EA EI).
  assert (Eb' : ev (fun _ => False) hb h')
    by exact (ev_trans _ hb hP h' (proj1 Hwfb) (proj1 HwfP) (none_exempt hP) EP EP').
  split; [exact Hwf'|]. split.
  { exact (ev_trans _ h hb h' (proj1 Hwf) (proj1 Hwfb) (none_exempt hb) Eb Eb'). }
  exists sb. split; [exact Hp'|].
  intros n Hv. inversion Hv as [|c n' Hch Hv' En]; subst; [exact Hnr'|].
  assert (Hwsb : within hP sb)
    by (eapply (closed_struct hP p); [apply (proj1 HwfP)|eauto|left; reflexivity]).
  assert (Hic : inlined h' c); [|apply Hic, Hv'].
  destruct Hch as [m e'' name v HPm Hm'' Hin|a q v HA Ha Hq|a q v HI Ha Hq].
  - pose proof (within_Properties hP sb m Hwsb HPm) as Hlt.
    destruct (ev_back_props _ hP h' m e'' EP' Hlt Hm'') as [eP HmP].
    destruct (ev_props _ _ _ EP' m eP e'' HmP Hm'') as [_ Hvals].
    destruct (Hvals name v Hin) as [Hold|Hnew]; [|exact Hnew].
    apply (inlined_pres (fun _ => False) hP h' v (proj1 HwfP) EP' (none_exempt hP)).
    + eapply (closed_struct hP m); [apply (proj1 HwfP)|eauto|].
      simpl. apply in_map_iff. exists (name, v). auto.
    + eapply HvalsP; eauto.
  - assert (HwsA : within hA sb)
      by (eapply (closed_struct hA p); [apply (proj1 HwfA)|eauto|left; reflexivity]).
    pose proof (within_Additional hA sb a HwsA HA) as Hlt.
    pose proof (ev_back_holder _ hA h' a (Some q) EI Hlt Ha) as HaA.
    pose proof (closed_pointee hA a q (proj1 HwfA) HaA) as HqA.
    destruct (ev_back_schema _ hA h' q v EI HqA Hq) as [vA HvA].
    pose proof (HvalA a q vA HA HaA HvA) as HiA.
    assert (HwvA : within hA vA)
      by (eapply (closed_struct hA q); [apply (proj1 HwfA)|eauto|left; reflexivity]).
    destruct (ev_schema _ _ _ EI q vA v HvA (fun x => x) Hq) as [->|[N _]].
    + apply (inlined_pres (fun _ => False) hA h' _ (proj1 HwfA) EI (none_exempt hA));
        assumption.
    + exfalso. apply N. apply inlined_root, HiA.
  - eapply HvalI; eauto.
Qed.

End Run.
(** ** What the decoder builds *)

Lemma within_app (h ext : heap) s : within h s -> within (h ++ ext) s.
Proof.
  unfold within. rewrite !Forall_forall. intros H x Hx. specialize (H x Hx).
  rewrite length_app. lia.
Qed.

Lemma refOf_app (h ext : heap) f s :
  closed h -> within h s -> refOf f (h ++ ext) s = refOf f h s.
Proof.
  intros Hc Hw. revert f s Hw. apply refOf_agree.
  - intros a elems Ha. rewrite lookup_app_l by exact Ha. tauto.
  - intros a elems _ Ha. eapply closed_allOf; eauto.
Qed.

Lemma wf_alloc (h : heap) c :
  wf h -> Forall (fun p => p < S (length h)) (cell_locs c) ->
  (forall e, c = CProperties e -> NoDup (map fst e)) ->
  wf (h ++ [c]).
Proof.
  intros [Hc Hm] Hl Hk. split.
  - intros l c' Hl'. rewrite length_app. simpl. rewrite Nat.add_1_r.
    apply lookup_app_Some in Hl' as [Hl'|[Hge Hl']].
    + specialize (Hc _ _ Hl'). rewrite Forall_forall in *. intros x Hx.
      specialize (Hc x Hx). lia.
    + destruct (l - length h) as [|k]; simpl in Hl'; [|rewrite lookup_nil in Hl'; discriminate].
      injection Hl' as <-. exact Hl.
  - intros l e Hl'. apply lookup_app_Some in Hl' as [Hl'|[Hge Hl']]; [eapply Hm; eauto|].
    destruct (l - length h) as [|k]; simpl in Hl'; [|rewrite lookup_nil in Hl'; discriminate].
    injection Hl' as ->. apply Hk. reflexivity.
Qed.

Lemma bindM_run {A B} (c : M A) (k : A -> M B) (h h1 : heap) a :
  c h = (h1, Ok a) -> bindM c k h = k a h1.
Proof. intros H. unfold bindM. rewrite H. reflexivity. Qed.

Lemma lookup_alloc (h : heap) c : (h ++ [c]) !! length h = Some c.
Proof. rewrite lookup_app_r by lia. rewrite Nat.sub_diag. reflexivity. Qed.

Section Decoded.
Variable dec : Value.Schema -> M Schema.

Lemma decodeEntries_decoded l :
  Forall (fun kv => decoded (snd kv) (dec (snd kv))) l ->
  forall h : heap, wf h ->
    exists ext m, decodeEntries dec l h = (h ++ ext, Ok m)
      /\ wf (h ++ ext)
      /\ Forall (fun kv => within (h ++ ext) (snd kv)) m
      /\ map fst m = map fst l.
Proof.
  induction 1 as [|kv rest Hkv _ IH]; intros h Hwf.
  - exists [], []. simpl. rewrite app_nil_r.
    split; [reflexivity|]. split; [exact Hwf|]. split; [constructor|reflexivity].
  - destruct (Hkv h Hwf) as (e1 & s & E1 & Hwf1 & Hw1 & _).
    destruct (IH (h ++ e1) Hwf1) as (e2 & m & E2 & Hwf2 & Hw2 & Hk).
    exists (e1 ++ e2), ((fst kv, s) :: m). rewrite app_assoc.
    cbn [decodeEntries]. rewrite (bindM_run _ _ _ _ _ E1), (bindM_run _ _ _ _ _ E2).
    split; [reflexivity|]. split; [exact Hwf2|]. split.
    + constructor; [apply within_app, Hw1|exact Hw2].
    + simpl. f_equal. exact Hk.
Qed.

Lemma decodeList_decoded l :
  Forall (fun t => decoded t (dec t)) l ->
  forall h : heap, wf h ->
    exists ext m, decodeList dec l h = (h ++ ext, Ok m)
      /\ wf (h ++ ext)
      /\ Forall (within (h ++ ext)) m
      /\ exists f, Forall2 (fun s t => refOf f (h ++ ext) s = Ok (Value.refOf t)) m l.
Proof.
  induction 1 as [|t rest Ht _ IH]; intros h Hwf.
  - exists [], []. simpl. rewrite app_nil_r.
    split; [reflexivity|]. split; [exact Hwf|]. split; [constructor|].
    exists 0. constructor.
  - destruct (Ht h Hwf) as (e1 & s & E1 & Hwf1 & Hw1 & f1 & Hr1).
    destruct (IH (h ++ e1) Hwf1) as (e2 & m & E2 & Hwf2 & Hw2 & f2 & Hr2).
    exists (e1 ++ e2), (s :: m). rewrite app_assoc.
    cbn [decodeList]. rewrite (bindM_run _ _ _ _ _ E1), (bindM_run _ _ _ _ _ E2).
    split; [reflexivity|]. split; [exact Hwf2|]. split.
    + constructor; [apply within_app, Hw1|exact Hw2].
    + exists (Nat.max f1 f2). constructor.
      * apply (StoreMore.refOf_fuel_le _ f1); [apply Nat.le_max_l|].
        rewrite refOf_app by (try apply (proj1 Hwf1); assumption). exact Hr1.
      * eapply Forall2_impl; [|exact Hr2]. intros s' t' Hs'. simpl in Hs'.
        apply (StoreMore.refOf_fuel_le _ f2); [apply Nat.le_max_r|exact Hs'].
Qed.

Lemma decodeProperties_decoded props :
  NoDup (map fst props) ->
  Forall (fun kv => decoded (snd kv) (dec (snd kv))) props ->
  forall h : heap, wf h ->
    exists ext pf, decodeProperties dec props h = (h ++ ext, Ok pf)
      /\ wf (h ++ ext)
      /\ Forall (fun p => p < length (h ++ ext)) (option_list pf).
Proof.
  intros Hnd Hall h Hwf. unfold decodeProperties.
  destruct props as [|kv rest] eqn:Ep.
  - exists [], None. rewrite app_nil_r.
    split; [reflexivity|]. split; [exact Hwf|]. repeat constructor.
  - rewrite <- Ep in *. clear Ep.
    destruct (decodeEntries_decoded props Hall h Hwf) as (e1 & m & E1 & Hwf1 & Hw1 & Hk).
    exists (e1 ++ [CProperties m]), (Some (length (h ++ e1))). rewrite app_assoc.
    rewrite (bindM_run _ _ _ _ _ E1). unfold bindM, alloc, ret.
    split; [reflexivity|]. split.
    + apply wf_alloc; [exact Hwf1| |].
      * simpl. apply Forall_forall. intros x Hx.
        apply in_flat_map in Hx as [kv' [Hin Hx]].
        rewrite Forall_forall in Hw1. specialize (Hw1 kv' Hin).
        unfold within in Hw1. rewrite Forall_forall in Hw1. specialize (Hw1 x Hx). lia.
      * intros e E. injection E as <-. rewrite Hk. exact Hnd.
    + simpl. constructor; [|constructor]. rewrite (length_app (h ++ e1)). simpl. lia.
Qed.

Lemma decodeHolder_decoded t :
  decoded t (dec t) ->
  forall h : heap, wf h ->
    exists ext af,
      (let! s := dec t in
       let! q := alloc (CSchema s) in
       let! a := alloc (CSchemaOr (Some q)) in
       ret (Some a)) h = (h ++ ext, Ok af)
      /\ wf (h ++ ext)
      /\ Forall (fun p => p < length (h ++ ext)) (option_list af).
Proof.
  intros Ht h Hwf. destruct (Ht h Hwf) as (e1 & s & E1 & Hwf1 & Hw1 & _).
  exists (e1 ++ [CSchema s] ++ [CSchemaOr (Some (length (h ++ e1)))]),
         (Some (length ((h ++ e1) ++ [CSchema s]))).
  rewrite !app_assoc. rewrite (bindM_run _ _ _ _ _ E1). unfold bindM, alloc, ret.
  split; [reflexivity|].
  assert (Hwf2 : wf ((h ++ e1) ++ [CSchema s])).
  { apply wf_alloc; [exact Hwf1| |discriminate].
    simpl. unfold within in Hw1. rewrite Forall_forall in *. intros x Hx.
    specialize (Hw1 x Hx). lia. }
  split.
  - apply wf_alloc; [exact Hwf2| |discriminate].
    simpl. constructor; [|constructor]. rewrite (length_app (h ++ e1)). simpl. lia.
  - simpl. constructor; [|constructor].
    rewrite (length_app ((h ++ e1) ++ [CSchema s])). simpl. lia.
Qed.

Lemma decodeNested_decoded p :
  (forall t, p = Some (Some t) -> decoded t (dec t)) ->
  forall h : heap, wf h ->
    exists ext af, decodeNested dec p h = (h ++ ext, Ok af)
      /\ wf (h ++ ext)
      /\ Forall (fun p => p < length (h ++ ext)) (option_list af).
Proof.
  intros Hp h Hwf. unfold decodeNested. destruct p as [[t|]|].
  - apply decodeHolder_decoded; auto.
  - exists [CSchemaOr None], (Some (length h)). unfold bindM, alloc, ret.
    split; [reflexivity|]. split.
    + apply wf_alloc; [exact Hwf|constructor|discriminate].
    + simpl. constructor; [|constructor]. rewrite length_app. simpl. lia.
  - exists [], None. rewrite app_nil_r.
    split; [reflexivity|]. split; [exact Hwf|]. repeat constructor.
Qed.

Lemma decodeItems_decoded p :
  (forall t, p = Some (Some t) -> decoded t (dec t)) ->
  forall h : heap, wf h ->
    exists ext af, decodeItems dec p h = (h ++ ext, Ok af)
      /\ wf (h ++ ext)
      /\ Forall (fun p => p < length (h ++ ext)) (option_list af).
Proof.
  intros Hp h Hwf. unfold decodeItems. destruct p as [[t|]|].
  - apply decodeHolder_decoded; auto.
  - exists [], None. rewrite app_nil_r.
    split; [reflexivity|]. split; [exact Hwf|]. repeat constructor.
  - exists [], None. rewrite app_nil_r.
    split; [reflexivity|]. split; [exact Hwf|]. repeat constructor.
Qed.

Lemma decodeAllOf_decoded allOf :
  Forall (fun t => decoded t (dec t)) allOf ->
  forall h : heap, wf h ->
    exists ext alf, decodeAllOf dec allOf h = (h ++ ext, Ok alf)
      /\ wf (h ++ ext)
      /\ Forall (fun p => p < length (h ++ ext)) (option_list alf)
      /\ match alf with
         | None => allOf = []
         | Some p =>
             exists m f, (h ++ ext) !! p = Some (CAllOf m)
               /\ Forall2 (fun s t => refOf f (h ++ ext) s = Ok (Value.refOf t)) m allOf
         end.
Proof.
  intros Hall h Hwf. unfold decodeAllOf.
  destruct allOf as [|t rest] eqn:Ea.
  - exists [], None. rewrite app_nil_r.
    split; [reflexivity|]. split; [exact Hwf|]. repeat constructor.
  - rewrite <- Ea in *. clear Ea.
    destruct (decodeList_decoded allOf Hall h Hwf) as (e1 & m & E1 & Hwf1 & Hw1 & f & Hr).
    exists (e1 ++ [CAllOf m]), (Some (length (h ++ e1))). rewrite app_assoc.
    rewrite (bindM_run _ _ _ _ _ E1). unfold bindM, alloc, ret.
    split; [reflexivity|]. split; [|split].
    + apply wf_alloc; [exact Hwf1| |discriminate].
      simpl. apply Forall_forall. intros x Hx.
      apply in_flat_map in Hx as [s' [Hin Hx]].
      rewrite Forall_forall in Hw1. specialize (Hw1 s' Hin).
      unfold within in Hw1. rewrite Forall_forall in Hw1. specialize (Hw1 x Hx). lia.
    + simpl. constructor; [|constructor]. rewrite (length_app (h ++ e1)). simpl. lia.
    + exists m, f. split; [apply lookup_alloc|].
      assert (Hr' : Forall2 (fun s t => within (h ++ e1) s
                              /\ refOf f (h ++ e1) s = Ok (Value.refOf t)) m allOf).
      { clear -Hr Hw1. induction Hr as [|s t m' l' Hs _ IH]; constructor.
        - split; [inversion Hw1; assumption|exact Hs].
        - apply IH. inversion Hw1; assumption. }
      eapply Forall2_impl; [|exact Hr']. intros s' t' [Hw' Hs']. simpl.
      rewrite refOf_app by (try apply (proj1 Hwf1); assumption). exact Hs'.
Qed.

End Decoded.

Lemma decodeExtensions_decoded e (h : heap) :
  wf h ->
  exists ext ef, decodeExtensions e h = (h ++ ext, Ok ef)
    /\ wf (h ++ ext)
    /\ Forall (fun p => p < length (h ++ ext)) (option_list ef).
Proof.
  intros Hwf. unfold decodeExtensions.
  destruct (List.filter (fun kv : string * any => isExtension (fst kv)) e) as [|kv kept].
  - exists [], None. rewrite app_nil_r.
    split; [reflexivity|]. split; [exact Hwf|]. repeat constructor.
  - exists [CExtensions (kv :: kept)], (Some (length h)). unfold bindM, alloc, ret.
    split; [reflexivity|]. split.
    + apply wf_alloc; [exact Hwf|constructor|discriminate].
    + simpl. constructor; [|constructor]. rewrite length_app. simpl. lia.
Qed.

Lemma scan_decoded f (H : heap) m l descr props ap items ext :
  Forall2 (fun s t => refOf f H s = Ok (Value.refOf t)) m l ->
  scanAllOf (refOf f H) m
  = Ok (Value.refOf (Value.mkSchema None descr props ap items l ext)).
Proof.
  induction 1 as [|s t m' l' Hs _ IH]; [reflexivity|].
  cbn [scanAllOf]. rewrite Hs. cbn [bind].
  change (Value.refOf (Value.mkSchema None descr props ap items (t :: l') ext))
    with (let '(ref, isRef) := Value.refOf t in
          if isRef then (ref, isRef)
          else Value.refOf (Value.mkSchema None descr props ap items l' ext)).
  destruct (Value.refOf t) as [r [|]]; cbn [snd]; [reflexivity|exact IH].
Qed.

Lemma Forall_lt_app (h ext : heap) l :
  Forall (fun p => p < length h) l -> Forall (fun p => p < length (h ++ ext)) l.
Proof.
  rewrite !Forall_forall. intros H x Hx. specialize (H x Hx). rewrite length_app. lia.
Qed.

Lemma unmarshal_decoded : forall t, ukeys t -> decoded t (unmarshal t).
Proof.
  induction t as [ref descr props ap items allOf ext IHp IHa IHi IHl] using Schema_tree_ind.
  intros Hu h Hwf. inversion Hu as [r0 d0 p0 a0 i0 l0 e0 Hnd Hup Hua Hui Hul]; subst.
  assert (Hp : Forall (fun kv => decoded (snd kv) (unmarshal (snd kv))) props).
  { clear -IHp Hup. induction props as [|kv rest IH]; constructor.
    - inversion IHp; inversion Hup; subst; auto.
    - apply IH; [inversion IHp|inversion Hup]; assumption. }
  assert (Hl : Forall (fun t => decoded t (unmarshal t)) allOf).
  { clear -IHl Hul. induction allOf as [|kv rest IH]; constructor.
    - inversion IHl; inversion Hul; subst; auto.
    - apply IH; [inversion IHl|inversion Hul]; assumption. }
  destruct (decodeProperties_decoded unmarshal props Hnd Hp h Hwf)
    as (e1 & pf & E1 & Hwf1 & Hb1).
  destruct (decodeNested_decoded unmarshal ap (fun t E => IHa t E (Hua t E)) _ Hwf1)
    as (e2 & af & E2 & Hwf2 & Hb2).
  destruct (decodeItems_decoded unmarshal items (fun t E => IHi t E (Hui t E)) _ Hwf2)
    as (e3 & itf & E3 & Hwf3 & Hb3).
  destruct (decodeAllOf_decoded unmarshal allOf Hl _ Hwf3)
    as (e4 & alf & E4 & Hwf4 & Hb4 & Hscan).
  destruct (decodeExtensions_decoded ext _ Hwf4) as (e5 & ef & E5 & Hwf5 & Hb5).
  exists (e1 ++ e2 ++ e3 ++ e4 ++ e5), (mkSchema ref descr pf af itf alf ef).
  rewrite !app_assoc. cbn [unmarshal].
  rewrite (bindM_run _ _ _ _ _ E1), (bindM_run _ _ _ _ _ E2), (bindM_run _ _ _ _ _ E3),
    (bindM_run _ _ _ _ _ E4), (bindM_run _ _ _ _ _ E5).
  split; [reflexivity|]. split; [exact Hwf5|]. split.
  - unfold within, schema_locs. cbn [Properties AdditionalProperties Items AllOf Extensions].
    repeat apply Forall_app_2.
    + do 4 apply Forall_lt_app. exact Hb1.
    + do 3 apply Forall_lt_app. exact Hb2.
    + do 2 apply Forall_lt_app. exact Hb3.
    + apply Forall_lt_app. exact Hb4.
    + exact Hb5.
  - destruct ref as [u|]; [exists 1; reflexivity|].
    destruct alf as [p|].
    + destruct Hscan as (m & f & Hm & Hr). exists (S f). cbn [refOf Ref AllOf].
      rewrite lookup_app_l by (eapply lookup_lt_Some; eauto). rewrite Hm.
      apply scan_decoded.
      assert (Hwm : Forall (within ((((h ++ e1) ++ e2) ++ e3) ++ e4)) m).
      { pose proof (closed_allOf _ _ _ (proj1 Hwf4) Hm) as Hcl. exact Hcl. }
      clear -Hr Hwm Hwf4. induction Hr as [|s t m' l' Hs _ IH]; constructor.
      * rewrite refOf_app; [exact Hs|apply (proj1 Hwf4)|inversion Hwm; assumption].
      * apply IH. inversion Hwm; assumption.
    + subst allOf. exists 1. reflexivity.
Qed.
(** ** The document of a well-formed heap *)

Lemma marshalEntries_all (g : Schema -> res Value.Schema) (P : Value.Schema -> Prop) m ts :
  (forall s t, g s = Ok t -> P t) -> marshalEntries g m = Ok ts ->
  map fst ts = map fst m /\ Forall (fun kv => P (snd kv)) ts.
Proof.
  intros Hg. revert ts. induction m as [|[k v] rest IH]; simpl; intros ts H.
  - injection H as <-. split; [reflexivity|constructor].
  - apply bind_Ok in H as [t [Ht H]]. apply bind_Ok in H as [ts' [Hts H]].
    injection H as <-. destruct (IH ts' Hts) as [Hk Hall].
    split; [simpl; f_equal; exact Hk|]. constructor; [eapply Hg; eauto|exact Hall].
Qed.

Lemma marshalElems_all (g : Schema -> res Value.Schema) (P : Value.Schema -> Prop) l ts :
  (forall s t, g s = Ok t -> P t) -> marshalElems g l = Ok ts -> Forall P ts.
Proof.
  intros Hg. revert ts. induction l as [|v rest IH]; simpl; intros ts H.
  - injection H as <-. constructor.
  - apply bind_Ok in H as [t [Ht H]]. apply bind_Ok in H as [ts' [Hts H]].
    injection H as <-. constructor; [eapply Hg; eauto|apply IH, Hts].
Qed.

Lemma marshalNested_all (g : Schema -> res Value.Schema) (P : Value.Schema -> Prop)
    (h : heap) p r t :
  (forall s t, g s = Ok t -> P t) -> marshalNested g h p = Ok r ->
  r = Some (Some t) -> P t.
Proof.
  intros Hg H ->. unfold marshalNested in H. destruct p as [a|]; [|discriminate].
  destruct (h !! a) as [[| |[q|]| | | |]|]; try discriminate.
  apply bind_Ok in H as [s [Hs H]]. apply bind_Ok in H as [t' [Ht' H]].
  injection H as <-. eapply Hg; eauto.
Qed.

Lemma marshal_ukeys (h : heap) : maps_wf h ->
  forall f s t, marshal f h s = Ok t -> ukeys t.
Proof.
  intros Hm. induction f as [|f IH]; intros s t H; [discriminate|].
  cbn [marshal] in H.
  apply bind_Ok in H as [props [Hp H]].
  apply bind_Ok in H as [ap [Ha H]].
  apply bind_Ok in H as [items [Hi H]].
  apply bind_Ok in H as [allOf [Hal H]].
  apply bind_Ok in H as [ext [He H]].
  injection H as <-. constructor.
  - unfold marshalProperties in Hp. destruct (Properties s) as [m|].
    + destruct (h !! m) as [[|entries| | | | |]|] eqn:Em; try discriminate.
      destruct (marshalEntries_all _ ukeys _ _ (IH) Hp) as [Hk _].
      rewrite Hk. eapply Hm; eauto.
    + injection Hp as <-. constructor.
  - unfold marshalProperties in Hp. destruct (Properties s) as [m|].
    + destruct (h !! m) as [[|entries| | | | |]|] eqn:Em; try discriminate.
      apply (marshalEntries_all _ ukeys _ _ (IH) Hp).
    + injection Hp as <-. constructor.
  - intros t E. exact (marshalNested_all _ ukeys h _ _ t IH Ha E).
  - intros t E. exact (marshalNested_all _ ukeys h _ _ t IH Hi E).
  - unfold marshalAllOf in Hal. destruct (AllOf s) as [a|].
    + destruct (h !! a) as [[| | |elems| | |]|] eqn:Em; try discriminate.
      eapply marshalElems_all; eauto.
    + injection Hal as <-. constructor.
Qed.

(** ** A deep copy of a schema that is no reference *)

Lemma deepCopy_plain sv (h h' : heap) q :
  wf h -> notRef h sv -> deepCopy sv h = (h', Ok q) ->
  exists ext, h' = h ++ ext /\ wf h'
    /\ (forall a p, length h <= a -> h' !! a = Some (CSchemaOr (Some p)) -> length h <= p)
    /\ exists rv, h' !! q = Some (CSchema rv) /\ notRef h' rv.
Proof.
  intros Hwf [f0 Hn] H.
  pose proof (StoreFacts.deepCopy_keeps (length h) sv h (le_n _)
                (StoreFacts.separate_from_length h)) as [Hk _].
  rewrite H in Hk. cbn [fst] in Hk.
  destruct (StoreFacts.kept_length_appends h h' Hk) as [ext0 Hext].
  exists ext0. split; [exact Hext|].
  unfold deepCopy in H.
  apply bindM_Ok in H as (hx & b & H1 & H). apply read_Ok in H1 as [-> Hb].
  apply bindM_Ok in H as (h1 & result & H1 & H). apply alloc_Ok in H1 as [-> ->].
  apply bindM_Ok in H as (h2 & rv & H2 & H).
  apply bindM_Ok in H as (h3 & u & H3 & H). apply store_Ok in H3.
  apply ret_Ok in H as [-> ->]. subst h3.
  assert (Hwf1 : wf (h ++ [CSchema zeroSchema]))
    by (apply wf_alloc_schema; [exact Hwf|apply within_zero]).
  assert (Hu : ukeys b) by (eapply marshal_ukeys; [apply (proj2 Hwf)|exact Hb]).
  destruct (unmarshal_decoded b Hu _ Hwf1) as (ext & s & E & Hwf2 & Hw2 & f & Hr).
  rewrite H2 in E. injection E as -> ->.
  assert (Hz : ((h ++ [CSchema zeroSchema]) ++ ext) !! length h = Some (CSchema zeroSchema)).
  { rewrite lookup_app_l by (rewrite length_app; simpl; lia). apply lookup_alloc. }
  assert (Hplain : Value.refOf b = (EmptyString, false)).
  { pose proof (StoreMore.refOf_document_fuel h _ sv b Hb) as Hd.
    apply (StoreMore.refOf_fuel_le h _ (Nat.max f0 (S (length h)))) in Hd;
      [|apply Nat.le_max_r].
    apply (StoreMore.refOf_fuel_le h _ (Nat.max f0 (S (length h)))) in Hn;
      [|apply Nat.le_max_l].
    congruence. }
  rewrite Hplain in Hr.
  split; [eapply wf_store_schema; eauto|]. split.
  - intros a p Ha Hp. destruct Hk as (_ & _ & Hsep).
    specialize (Hsep a _ Ha Hp). simpl in Hsep. inversion Hsep. assumption.
  - exists s. split.
    + apply list_lookup_insert_eq. eapply lookup_lt_Some; eauto.
    + apply (notRef_insert _ (length h) (CSchema zeroSchema) (CSchema s) s
               (proj1 Hwf2) Hz); try discriminate; auto.
      exists f. exact Hr.
Qed.

(** ** The closures of the two resolvers *)

Lemma closed_definition (h : heap) l entries name def :
  closed h -> h !! l = Some (CDefinitions entries) -> In (name, def) entries ->
  within h def.
Proof.
  intros Hc Hl Hin. specialize (Hc _ _ Hl). simpl in Hc.
  unfold within. rewrite Forall_forall in *. intros x Hx. apply Hc.
  apply in_flat_map. exists (name, def). auto.
Qed.

Lemma assoc_In_gen {A} name (entries : list (string * A)) v :
  assoc name entries = Some v -> exists k, In (k, v) entries.
Proof.
  induction entries as [|[k0 w] rest IH]; simpl; [discriminate|].
  destruct (String.eqb k0 name).
  - intros H. injection H as ->. exists k0. left; reflexivity.
  - intros H. destruct (IH H) as [k Hk]. exists k. right. exact Hk.
Qed.

Lemma static_lookup_ok d entries :
  lookup_ok (definitions_plain d entries) (schemaOf d).
Proof.
  intros ref h [Hd Hplain] Hwf. unfold schemaOf.
  assert (Hnone : exists ext : heap, h = h ++ ext /\ wf (h ++ ext)
     /\ (forall a q, length h <= a -> (h ++ ext) !! a = Some (CSchemaOr (Some q)) ->
           length h <= q)).
  { exists []. rewrite app_nil_r. split; [reflexivity|]. split; [exact Hwf|].
    intros a q Ha Hq. apply lookup_lt_Some in Hq. lia. }
  assert (El : loadDefinitions (defs d) h = (h, Ok entries))
    by (unfold loadDefinitions, read; rewrite Hd; reflexivity).
  rewrite (bindM_run _ _ _ _ _ El).
  destruct (assoc ref entries) as [def|] eqn:Ea.
  - destruct (assoc_In_gen _ _ _ Ea) as [name Hin].
    pose proof (StoreFacts.deepCopy_outcome def h) as Ho.
    unfold bindM, try_.
    destruct (deepCopy def h) as [h1 [q|e|]] eqn:Ec.
    + destruct (deepCopy_plain def h h1 q Hwf (Hplain _ _ Hin) Ec)
        as (ext & -> & Hwf1 & Hnew & rv & Hq & Hnr).
      exists ext. cbn [fst snd ret]. split; [reflexivity|]. split; [exact Hwf1|].
      split; [exact Hnew|]. intros q' E. injection E as <-. eauto.
    + assert (h1 = h).
      { destruct (json_Marshal h def); [destruct Ho; discriminate|congruence|congruence]. }
      subst h1. destruct Hnone as (ext & E & Hw & Hn). exists ext. cbn [fst snd ret].
      split; [exact E|]. split; [exact Hw|]. split; [exact Hn|]. discriminate.
    + assert (h1 = h).
      { destruct (json_Marshal h def); [destruct Ho; discriminate|congruence|congruence]. }
      subst h1. destruct Hnone as (ext & E & Hw & Hn). exists ext. cbn [fst snd].
      split; [exact E|]. split; [exact Hw|]. split; [exact Hn|]. discriminate.
  - destruct Hnone as (ext & E & Hw & Hn). exists ext. cbn [fst snd ret].
    split; [exact E|]. split; [exact Hw|]. split; [exact Hn|]. discriminate.
Qed.

Lemma definitions_stable d entries n0 : stable n0 (definitions_plain d entries).
Proof.
  intros X h h' [Hd Hplain] Hwf Hwf' He _. split.
  - destruct (ev_kind _ _ _ He _ _ Hd) as (c' & Hc' & Hk).
    destruct c'; simpl in Hk; try discriminate. congruence.
  - intros name def Hin.
    apply (notRef_ev X h h' def (proj1 Hwf) He).
    + eapply closed_definition; eauto. apply (proj1 Hwf).
    + eapply Hplain; eauto.
Qed.

Lemma discovery_lookup_ok resp n0 :
  lookup_ok (components_plain resp n0) (Discovery.schemaOf resp).
Proof.
  intros ref h HJ Hwf. exists []. rewrite app_nil_r. unfold Discovery.schemaOf.
  assert (Hn : forall a q, length h <= a -> h !! a = Some (CSchemaOr (Some q)) ->
                 length h <= q).
  { intros a q Ha Hq. apply lookup_lt_Some in Hq. lia. }
  destruct (assoc (TrimPrefix ref refPrefix) resp) as [[q|]|] eqn:Ea; cbn [fst snd ret fail].
  - split; [reflexivity|]. split; [exact Hwf|]. split; [exact Hn|].
    intros q' E. injection E as <-.
    destruct (assoc_In_gen _ _ _ Ea) as [name Hin].
    destruct (HJ name q Hin) as [_ H]. exact H.
  - split; [reflexivity|]. split; [exact Hwf|]. split; [exact Hn|]. discriminate.
  - split; [reflexivity|]. split; [exact Hwf|]. split; [exact Hn|]. discriminate.
Qed.

Lemma components_stable resp n0 : stable n0 (components_plain resp n0).
Proof.
  intros X h h' HJ Hwf Hwf' He HX name q Hin.
  destruct (HJ name q Hin) as (Hq & s & Hs & Hn). split; [exact Hq|].
  destruct (ev_fwd_schema X h h' q s He Hs) as [s' Hs'].
  exists s'. split; [exact Hs'|].
  assert (HnX : ~ X q) by (intros HXq; apply HX in HXq; lia).
  assert (Hw : within h s)
    by (eapply (closed_struct h q); [apply (proj1 Hwf)|eauto|left; reflexivity]).
  destruct (ev_schema _ _ _ He q s s' Hs HnX Hs') as [->|[_ R]]; [|exact R].
  apply (notRef_ev X h h' s (proj1 Hwf) He Hw). exact Hn.
Qed.
(** ** No reference is left where the run went *)

Lemma inlined_nodes (h : heap) s :
  inlined h s -> forall n, visited h s n -> Ref n = None /\ notRef h n.
Proof. intros Hi n Hn. split; [eapply notRef_Ref|]; apply Hi, Hn. Qed.


Lemma maps_wf_Forall (h : heap) :
  Forall (fun c => forall e, c = CProperties e -> NoDup (map fst e)) h -> maps_wf h.
Proof.
  intros H l e Hl. rewrite Forall_forall in H. apply (H (CProperties e)); [|reflexivity].
  apply list_elem_of_In. eapply list_elem_of_lookup_2; eauto.
Qed.

Lemma wf_componentsHeap : wf componentsHeap.
Proof.
  split.
  - apply StoreFacts.closed_Forall. unfold componentsHeap. repeat constructor.
  - apply maps_wf_Forall. unfold componentsHeap.
    repeat constructor; intros e E; try discriminate; injection E as <-;
      apply NoDup_singleton.
Qed.

Lemma plain_componentsHeap : components_plain componentsResp 4 componentsHeap.
Proof.
  intros name q [E|[E|[]]]; injection E as <- <-; (split; [simpl; lia|]);
    eexists; (split; [reflexivity|]); exists 1; reflexivity.
Qed.

End InlineFacts.


(* ================================================================== *)
(** * The two resolvers on the heap *)

Module ResolverFacts.
Import Store.

(** ** The error for a reference without a target *)

Lemma bindM_snd_Err {A B} (c : M A) (k : A -> M B) (h : heap) e :
  snd (bindM c k h) = Err e ->
  snd (c h) = Err e \/ exists h1 a, c h = (h1, Ok a) /\ snd (k a h1) = Err e.
Proof.
  unfold bindM. destruct (c h) as [h1 [a|e1|]]; cbn [snd]; intros H.
  - right. eauto.
  - left. congruence.
  - discriminate.
Qed.

Lemma replaceIfRef_unresolved fuel schemaOf p :
  (forall ref, fails_in (eq invalidAccess) (schemaOf ref)) ->
  fails_in (unresolved schemaOf) (replaceIfRef fuel schemaOf p).
Proof.
  intros Hs h e H. unfold replaceIfRef in H.
  apply bindM_snd_Err in H as [H|(h1 & s & H1 & H)].
  { left. symmetry.
    exact (StoreMore.fails_in_loadSchema (eq invalidAccess) p eq_refl h e H). }
  apply bindM_snd_Err in H as [H|(h2 & r & H2 & H)].
  { left. unfold read in H. simpl in H. eapply StoreMore.refOf_Err, H. }
  destruct (snd r); [|discriminate].
  apply bindM_snd_Err in H as [H|(h3 & found & H3 & H)].
  { left. symmetry. eapply Hs, H. }
  destruct found as [resolved|].
  - apply bindM_snd_Err in H as [H|(h4 & rv & H4 & H)]; [|discriminate].
    left. symmetry.
    exact (StoreMore.fails_in_loadSchema (eq invalidAccess) resolved eq_refl h3 e H).
  - injection H as <-. right. exists (fst r), h2. split; [reflexivity|].
    rewrite H3. reflexivity.
Qed.

Lemma populateRefs_unresolved schemaOf :
  (forall ref, fails_in (eq invalidAccess) (schemaOf ref)) ->
  forall fuel p, fails_in (unresolved schemaOf) (populateRefs fuel schemaOf p).
Proof.
  intros Hs. induction fuel as [|fuel IH]; intros p; simpl.
  - intros h e H. discriminate.
  - assert (Hi : unresolved schemaOf invalidAccess) by (left; reflexivity).
    apply StoreMore.fails_in_bind; [apply replaceIfRef_unresolved, Hs|]. intros _.
    apply StoreMore.fails_in_bind;
      [apply StoreMore.fails_in_populateProperties; assumption|]. intros _.
    apply StoreMore.fails_in_bind; [apply StoreMore.fails_in_loadSchema, Hi|]. intros s2.
    apply StoreMore.fails_in_bind;
      [apply StoreMore.fails_in_populateNested; assumption|]. intros _.
    apply StoreMore.fails_in_bind; [apply StoreMore.fails_in_loadSchema, Hi|]. intros s3.
    apply StoreMore.fails_in_populateNested; assumption.
Qed.

Lemma discovery_schemaOf_fails resp ref :
  fails_in (eq invalidAccess) (Discovery.schemaOf resp ref).
Proof.
  intros h e. unfold Discovery.schemaOf.
  destruct (assoc (TrimPrefix ref refPrefix) resp) as [[q|]|]; cbn; intros H;
    try discriminate. injection H as <-. reflexivity.
Qed.

Lemma static_schemaOf_fails d ref : fails_in (eq invalidAccess) (schemaOf d ref).
Proof.
  unfold schemaOf.
  apply StoreMore.fails_in_bind; [apply StoreMore.fails_in_loadDefinitions; reflexivity|].
  intros entries. destruct (assoc ref entries) as [def|]; [|apply StoreMore.fails_in_ret].
  apply StoreMore.fails_in_bind; [apply StoreMore.fails_in_try|].
  intros [e|s]; apply StoreMore.fails_in_ret.
Qed.

(** C6. An error of [populateRefs] reaches the caller of [ResolveSchema]
    as it is, in both resolvers.  It is the nil-pointer panic, or the
    error ["internal error: cannot resolve Ref ..."] for a reference on
    which the lookup function answered that it has none: in the
    discovery resolver the document has no component under the
    reference's name.  That error wraps [ErrSchemaNotFound], as the
    errors for a GVK the index or the document does not have and for a
    group version without a document do; it differs from them in its
    text and in what it names. *)
Theorem ResolveSchema_dangling_ref_error :
  (forall (GetObject : Extensions_t -> string -> res (list GroupVersionKind))
          (json_Unmarshal : string -> res Discovery.document)
          (r : Value.ClientDiscoveryResolver) (fuel : nat) (gvk : GroupVersionKind)
          p c b doc (h h1 h2 h3 : heap) resp s e,
     Value.Paths r = Ok p ->
     assoc (Value.resourcePathFromGV (Group gvk) (Version gvk)) p = Some c ->
     Value.Schema_bytes c Value.ContentTypeJSON = Ok b ->
     json_Unmarshal b = Ok doc ->
     Discovery.decodeSchemas doc h = (h1, Ok resp) ->
     Discovery.resolveType GetObject resp gvk h1 = (h2, Ok s) ->
     populateRefs fuel (Discovery.schemaOf resp) s h2 = (h3, Err e) ->
     Discovery.ResolveSchema GetObject json_Unmarshal r fuel gvk h = (h3, Err e)
     /\ (e = invalidAccess
         \/ exists ref, e = cannotResolveRef ref
                        /\ assoc (TrimPrefix ref refPrefix) resp = None))
  /\ (forall (d : DefinitionsSchemaResolver) (fuel : nat) (gvk : GroupVersionKind)
          idx s sv (h h1 h2 : heap) result e,
     h !! gvkToSchema d = Some (CIndex idx) -> lookupGVK gvk idx = Some s ->
     h !! s = Some (CSchema sv) ->
     deepCopy sv h = (h1, Ok result) ->
     populateRefs fuel (schemaOf d) result h1 = (h2, Err e) ->
     ResolveSchema d fuel gvk h = (h2, Err e)
     /\ (e = invalidAccess
         \/ exists ref h0, e = cannotResolveRef ref
                           /\ snd (schemaOf d ref h0) = Ok None))
  /\ (forall (ref : string) (gvk : GroupVersionKind),
        Is_ErrSchemaNotFound (cannotResolveRef ref) = true
        /\ Is_ErrSchemaNotFound (Value.cannotResolveGVK gvk) = true
        /\ Is_ErrSchemaNotFound (Value.cannotResolveGV gvk) = true
        /\ Is_ErrSchemaNotFound (cannotResolve gvk) = true
        /\ cannotResolveRef ref <> Value.cannotResolveGVK gvk
        /\ cannotResolveRef ref <> Value.cannotResolveGV gvk
        /\ cannotResolveRef ref <> cannotResolve gvk).
Proof.
  split; [|split].
  - intros GetObject json_Unmarshal r fuel gvk p c b doc h h1 h2 h3 resp s e
      Hp Hc Hb Hj E1 E2 E3. split.
    + unfold Discovery.ResolveSchema, bindM, Discovery.lift.
      rewrite Hp, Hc, Hb, Hj, E1, E2, E3. reflexivity.
    + pose proof (populateRefs_unresolved (Discovery.schemaOf resp)
                    (discovery_schemaOf_fails resp) fuel s h2 e) as Hu.
      rewrite E3 in Hu. destruct (Hu eq_refl) as [->|(ref & h0 & -> & Hn)];
        [left; reflexivity|].
      right. exists ref. split; [reflexivity|].
      unfold Discovery.schemaOf in Hn.
      destruct (assoc (TrimPrefix ref refPrefix) resp) as [[q|]|];
        [discriminate|discriminate|reflexivity].
  - intros d fuel gvk idx s sv h h1 h2 result e Hi Hl Hs E1 E2. split.
    + unfold ResolveSchema, bindM, loadIndex, loadSchema, read, schemaAt, try_.
      rewrite Hi, Hl, Hs, E1, E2. reflexivity.
    + pose proof (populateRefs_unresolved (schemaOf d) (static_schemaOf_fails d)
                    fuel result h1 e) as Hu.
      rewrite E2 in Hu. exact (Hu eq_refl).
  - intros ref gvk. repeat split; discriminate.
Qed.

(** C6 fails as stated, for the document and for the table: the error for
    a dangling reference and the error for a kind that is not declared
    both satisfy [errors.Is(err, ErrSchemaNotFound)]. *)
Lemma dangling_ref_is_not_found_kind :
  exists e1 e2 e3 e4,
    snd (Discovery.ResolveSchema GetObject_json (fun _ => Ok danglingDocument)
           coreV1 5 podGVK []) = Err e1
    /\ e1 = cannotResolveRef "#/components/schemas/io.k8s.api.core.v1.PodSpec"
    /\ snd (Discovery.ResolveSchema GetObject_json (fun _ => Ok danglingDocument)
              coreV1 5 nodeGVK []) = Err e2
    /\ e2 = Value.cannotResolveGVK nodeGVK
    /\ snd (ResolveSchema danglingResolver 5 podGVK danglingTable) = Err e3
    /\ e3 = cannotResolveRef "pkg.v1.PodSpec"
    /\ snd (ResolveSchema danglingResolver 5 nodeGVK danglingTable) = Err e4
    /\ e4 = cannotResolve nodeGVK
    /\ Is_ErrSchemaNotFound e1 = true /\ Is_ErrSchemaNotFound e2 = true
    /\ Is_ErrSchemaNotFound e3 = true /\ Is_ErrSchemaNotFound e4 = true.
Proof. do 4 eexists. repeat split. Qed.

(** ** Reading the GVK extension *)

Lemma resolveType_passes GetObject gvk (h : heap) pre rest :
  Forall (passes GetObject gvk h) pre ->
  Discovery.resolveType GetObject (pre ++ rest) gvk h
  = Discovery.resolveType GetObject rest gvk h.
Proof.
  induction 1 as [|[name o] pre' (q & sv & ext & l & Eo & Hq & He & Hg & Hn) _ IH];
    [reflexivity|].
  simpl in Eo. subst o. cbn [app Discovery.resolveType].
  unfold bindM at 1. unfold loadSchema, read, schemaAt. rewrite Hq.
  unfold bindM at 1.
  destruct (Discovery.loadExtensions (Extensions sv) h) as [hx rx] eqn:El.
  assert (hx = h) as ->.
  { unfold Discovery.loadExtensions in El. destruct (Extensions sv);
      [unfold read in El|unfold ret in El]; congruence. }
  simpl in He. subst rx.
  unfold bindM at 1. unfold Discovery.lift. rewrite Hg.
  destruct (existsb (fun g => gvk_eqb g gvk) l) eqn:Ex; [|exact IH].
  apply existsb_gvk in Ex. contradiction.
Qed.

Lemma declared_without namer pre name schema post gvk :
  extensionsToGVKs (namer name) = [] ->
  (declared namer (pre ++ (name, schema) :: post) gvk
   <-> declared namer (pre ++ post) gvk).
Proof.
  intros He. unfold declared. split.
  - intros (n & s & Hin & Hg). exists n, s. split; [|exact Hg].
    apply in_app_or in Hin as [Hin|[E|Hin]].
    + apply in_or_app. left. exact Hin.
    + injection E as <- <-. rewrite He in Hg. destruct Hg.
    + apply in_or_app. right. exact Hin.
  - intros (n & s & Hin & Hg). exists n, s. split; [|exact Hg].
    apply in_app_or in Hin as [Hin|Hin]; apply in_or_app; [left|right; right]; exact Hin.
Qed.

(** C2. [extensionsToGVKs], which the static resolver uses, never fails:
    without the extension, with a value that is no sequence, or with a
    sequence one of whose elements lacks a string-valued group, version
    or kind, it returns the empty list, and otherwise the GVK of every
    element.  [NewDefinitionsSchemaResolver] therefore always returns,
    and its index has a key for exactly the GVKs that some entry
    declares; an entry with a malformed extension declares none, so the
    keys are those of the table without it.  The discovery resolver does
    not use [extensionsToGVKs]: [resolveType] decodes the extension of
    each component with [GetObject], and when the loop comes, past
    components that do not list the GVK, to one whose extension does not
    decode, [resolveType] and [ResolveSchema] return the error of that
    call. *)
Theorem extension_reading :
  (forall (extensions : Extensions_t),
     (assoc extGVK extensions = None -> extensionsToGVKs extensions = [])
     /\ (forall v, assoc extGVK extensions = Some v ->
           (forall elems, v <> ASlice elems) -> extensionsToGVKs extensions = [])
     /\ (forall elems a, assoc extGVK extensions = Some (ASlice elems) ->
           In a elems -> gvkOfAny a = None -> extensionsToGVKs extensions = [])
     /\ (forall elems gvks, assoc extGVK extensions = Some (ASlice elems) ->
           allGVKs elems = Some gvks -> extensionsToGVKs extensions = gvks))
  /\ (forall (namer : string -> Extensions_t) (dl : loc) (h : heap)
         (entries : list (string * Schema)),
        h !! dl = Some (CDefinitions entries) ->
        exists idx c,
          NewDefinitionsSchemaResolver namer dl h
          = (h ++ [CIndex idx; c], Ok (mkResolver dl (length h)))
          /\ forall gvk,
               (exists p, lookupGVK gvk idx = Some p) <-> declared namer entries gvk)
  /\ (forall (namer : string -> Extensions_t) pre name schema post gvk,
        extensionsToGVKs (namer name) = [] ->
        (declared namer (pre ++ (name, schema) :: post) gvk
         <-> declared namer (pre ++ post) gvk))
  /\ (forall (GetObject : Extensions_t -> string -> res (list GroupVersionKind))
         (json_Unmarshal : string -> res Discovery.document)
         (r : Value.ClientDiscoveryResolver) (fuel : nat) (gvk : GroupVersionKind)
         p c b doc (h h1 : heap) pre name q sv ext rest e,
        Value.Paths r = Ok p ->
        assoc (Value.resourcePathFromGV (Group gvk) (Version gvk)) p = Some c ->
        Value.Schema_bytes c Value.ContentTypeJSON = Ok b ->
        json_Unmarshal b = Ok doc ->
        Discovery.decodeSchemas doc h = (h1, Ok (pre ++ (name, Some q) :: rest)) ->
        Forall (passes GetObject gvk h1) pre ->
        h1 !! q = Some (CSchema sv) ->
        snd (Discovery.loadExtensions (Extensions sv) h1) = Ok ext ->
        GetObject ext extGVK = Err e ->
        Discovery.resolveType GetObject (pre ++ (name, Some q) :: rest) gvk h1
        = (h1, Err e)
        /\ Discovery.ResolveSchema GetObject json_Unmarshal r fuel gvk h = (h1, Err e)).
Proof.
  split; [|split; [|split]].
  - intros extensions. unfold extensionsToGVKs. repeat split.
    + intros ->. reflexivity.
    + intros v -> Hv. destruct v; try reflexivity. exfalso. eapply Hv; reflexivity.
    + intros elems a -> Hin Hn.
      rewrite gvksLoop_spec, (allGVKs_None _ _ Hin Hn). reflexivity.
    + intros elems gvks -> Hall. rewrite gvksLoop_spec, Hall. reflexivity.
  - intros namer dl h entries Hd.
    exact (StoreMore.NewDefinitionsSchemaResolver_run namer dl h entries Hd).
  - intros namer pre name schema post gvk He. apply declared_without, He.
  - intros GetObject json_Unmarshal r fuel gvk p c b doc h h1 pre name q sv ext rest e
      Hp Hc Hb Hj Ed Hpre Hq Hext Hg.
    assert (Er : Discovery.resolveType GetObject (pre ++ (name, Some q) :: rest) gvk h1
                 = (h1, Err e)).
    { rewrite (resolveType_passes GetObject gvk h1 pre _ Hpre).
      cbn [Discovery.resolveType].
      unfold bindM at 1. unfold loadSchema, read, schemaAt. rewrite Hq.
      unfold bindM at 1.
      destruct (Discovery.loadExtensions (Extensions sv) h1) as [hx rx] eqn:El.
      assert (hx = h1) as ->.
      { unfold Discovery.loadExtensions in El. destruct (Extensions sv);
          [unfold read in El|unfold ret in El]; congruence. }
      simpl in Hext. subst rx.
      unfold bindM. unfold Discovery.lift. rewrite Hg. reflexivity. }
    split; [exact Er|].
    unfold Discovery.ResolveSchema, bindM, Discovery.lift.
    rewrite Hp, Hc, Hb, Hj, Ed. fold (@bindM). unfold bindM in Er. rewrite Er. reflexivity.
Qed.

(** C2 fails as stated for the discovery resolver: the Pod component of
    [malformedDocument] is well formed and resolves when it stands alone,
    yet with the other component, for which [extensionsToGVKs] gives the
    empty list, resolving Pod returns the decoding error. *)
Lemma malformed_extension_fails_discovery :
  extensionsToGVKs [(extGVK, AString "Pod")] = []
  /\ snd (Discovery.ResolveSchema GetObject_json (fun _ => Ok malformedDocument)
            coreV1 5 podGVK [])
     = Err (External "json: cannot unmarshal into Go value of type []schema.GroupVersionKind")
  /\ exists q,
       snd (Discovery.ResolveSchema GetObject_json (fun _ => Ok (tl malformedDocument))
              coreV1 5 podGVK []) = Ok q.
Proof. split; [reflexivity|]. split; [reflexivity|]. eexists. reflexivity. Qed.

End ResolverFacts.

Lemma extension_reading_witness :
  extensionsToGVKs [(extGVK, AString "Pod")] = []
  /\ extensionsToGVKs (gvkExt EmptyString "v1" "Pod") = [podGVK]
  /\ (exists idx c,
        Store.NewDefinitionsSchemaResolver tableNamer 2 tableHeap
        = (tableHeap ++ [Store.CIndex idx; c], Ok (Store.mkResolver 2 (length tableHeap))))
  /\ exists h1,
       Discovery.ResolveSchema GetObject_json (fun _ => Ok malformedDocument)
         coreV1 5 podGVK []
       = (h1, Err (External
                     "json: cannot unmarshal into Go value of type []schema.GroupVersionKind")).
Proof.
  split; [|split; [|split]].
  - refine (proj1 (proj2 (proj1 ResolverFacts.extension_reading [(extGVK, AString "Pod")]))
              (AString "Pod") eq_refl _).
    intros elems. discriminate.
  - exact (proj2 (proj2 (proj2 (proj1 ResolverFacts.extension_reading
                                  (gvkExt EmptyString "v1" "Pod"))))
             _ [podGVK] eq_refl eq_refl).
  - destruct (proj1 (proj2 ResolverFacts.extension_reading) tableNamer 2 tableHeap
                tableEntries eq_refl) as (idx & c & E & _).
    exists idx, c. exact E.
  - eexists.
    refine (proj2 (proj2 (proj2 (proj2 ResolverFacts.extension_reading))
                     GetObject_json (fun _ => Ok malformedDocument) coreV1 5 podGVK
                     _ _ _ _ [] _ [] _ _ _ _ _ _
                     eq_refl eq_refl eq_refl eq_refl _ _ _ _ _)).
    + vm_compute. reflexivity.
    + constructor.
    + reflexivity.
    + reflexivity.
    + reflexivity.
Defined.

Lemma ResolveSchema_dangling_ref_error_witness :
  exists h3,
    Discovery.ResolveSchema GetObject_json (fun _ => Ok danglingDocument)
      coreV1 5 podGVK []
    = (h3, Err (cannotResolveRef "#/components/schemas/io.k8s.api.core.v1.PodSpec")).
Proof.
  eexists.
  refine (proj1 (proj1 ResolverFacts.ResolveSchema_dangling_ref_error
                   GetObject_json (fun _ => Ok danglingDocument) coreV1 5 podGVK
                   _ _ _ _ [] _ _ _ _ _ _
                   eq_refl eq_refl eq_refl eq_refl _ _ _)).
  - vm_compute. reflexivity.
  - vm_compute. reflexivity.
  - vm_compute. reflexivity.
Defined.
